(** * KCSD2D: kernel Current Source Density estimation in two dimensions

    A shallow embedding of [KCSD2D.py] (Python 2, numpy/scipy).

    Conventions of the embedding.
    - A numpy float is an exact rational [Qc]: rounding error, infinities and
      NaN are not represented.  Division is the total division of [Qc].
    - A 1-D array is a [list Qc]; a 2-D array is the list of its rows; a 3-D
      array is a list of 2-D arrays.  A 2-D array without rows carries no
      column count.
    - [self] is the record [kcsd]; methods are computations in the monad [M],
      which threads [self] and either returns a value or raises a Python
      exception.  Text written by [print] is appended to the field [stdout].
    - numpy, scipy and the helper modules that are not part of this file
      ([utility_functions], [basis_functions], [CSD]) are collected in the
      class [External].
    - Indexing and the products, sums and differences that the methods
      apply to arrays of unrelated origin are in [NpErr]: they fail where
      numpy raises on an index out of range or on mismatched shapes.  The
      functions of [Np] are total and pair entries up to the shorter
      operand; they are used to state results, on arrays whose shapes are
      known to agree. *)

From Stdlib Require Import ZArith QArith Qcanon Qround Qabs Lia List String.
From stdpp Require Import base numbers option list gmap strings.

Local Open Scope Qc_scope.

(** ** numpy arrays *)

Module Np.

Abbreviation vec := (list Qc).
Abbreviation mat := (list (list Qc)).
Abbreviation arr3 := (list (list (list Qc))).

Definition zeros (n : nat) : vec := replicate n 0.
Definition zeros2 (r c : nat) : mat := replicate r (zeros c).

(** [np.identity(n)] *)
Definition identity (n : nat) : mat :=
  map (fun i => map (fun j => if (i =? j)%nat then 1 else 0) (seq 0 n)) (seq 0 n).

Definition sum (v : vec) : Qc := foldr Qcplus 0 v.
Definition vadd (u v : vec) : vec := zip_with Qcplus u v.
Definition vscale (a : Qc) (v : vec) : vec := map (Qcmult a) v.
Definition dot (u v : vec) : Qc := sum (zip_with Qcmult u v).

Definition ncols (A : mat) : nat :=
  match A with [] => 0%nat | r :: _ => length r end.

(** [A[:, j]] on an array whose rows all reach index [j]. *)
Definition col (j : nat) (A : mat) : vec := map (fun r => nth j r 0) A.

Definition transpose (A : mat) : mat := map (fun j => col j A) (seq 0 (ncols A)).

Definition mat_vec (A : mat) (v : vec) : vec := map (fun r => dot r v) A.

Definition mat_mul (A B : mat) : mat :=
  map (fun r => map (fun j => dot r (col j B)) (seq 0 (ncols B))) A.

Definition mat_add (A B : mat) : mat := zip_with vadd A B.
Definition mat_scale (a : Qc) (A : mat) : mat := map (vscale a) A.

Definition arr3_add (A B : arr3) : arr3 := zip_with mat_add A B.
Definition arr3_scale (a : Qc) (A : arr3) : arr3 := map (mat_scale a) A.

(** The shape of a 2-D array: [r] rows, each of [c] entries. *)
Definition has_shape (r c : nat) (A : mat) : Prop :=
  length A = r /\ Forall (fun row => length row = c) A.

Definition has_shapeb (r c : nat) (A : mat) : bool :=
  (length A =? r)%nat && forallb (fun row => (length row =? c)%nat) A.

Definition has_shape3 (a b c : nat) (A : arr3) : Prop :=
  length A = a /\ Forall (has_shape b c) A.

(** [k] consecutive chunks of [n] entries: the C-order split that
    [reshape] performs on the flattened data. *)
Fixpoint chunk {A : Type} (n k : nat) (l : list A) : list (list A) :=
  match k with
  | O => []
  | S k' => take n l :: chunk n k' (drop n l)
  end.

Definition size (A : mat) : nat := length (concat A).

Definition symmetric (A : mat) : Prop := transpose A = A.

(** The quadratic form [x^T A x]. *)
Definition quad (A : mat) (x : vec) : Qc := dot x (mat_vec A x).

Definition pos_semidef (A : mat) : Prop :=
  forall x : vec, length x = length A -> 0 <= quad A x.

End Np.

Import Np.

(** ** Python values, exceptions and the object [self] *)

(** Values a keyword argument can hold. *)
Inductive value :=
| VStr (s : string)
| VNum (q : Qc).

Inductive exn :=
| Exception (msg : string)        (* [raise Exception(...)] in [place_basis] *)
| LinAlgError                     (* numpy.linalg.LinAlgError *)
| UnboundLocalError (name : string)
| AttributeError (name : string)
| ValueError
| IndexError
| TypeError.

Inductive outcome (A : Type) :=
| Ok (a : A)
| Raise (e : exn).
Arguments Ok {A} a.
Arguments Raise {A} e.

#[global] Instance value_eq_dec : EqDecision value.
Proof. solve_decision. Defined.

#[global] Instance exn_eq_dec : EqDecision exn.
Proof. solve_decision. Defined.

#[global] Instance outcome_eq_dec {A} `{EqDecision A} : EqDecision (outcome A).
Proof. solve_decision. Defined.

(** A basis function [f(x, y, [x_src, y_src], R)]. *)
Definition basis_fn := Qc -> Qc -> Qc * Qc -> Qc -> Qc.

(** What a method returns to its caller. *)
Inductive retval :=
| RNone
| RTuple (items : list Qc)
| RArr3 (a : arr3).

#[global] Instance retval_eq_dec : EqDecision retval.
Proof. solve_decision. Defined.

(** A line written by a [print] statement: its text and the numbers
    printed after it. *)
Definition out_line := (string * list Qc)%type.

Record kcsd := Build_kcsd {
  (* set by CSD.__init__ *)
  ele_pos : mat;
  pots : mat;
  n_ele : nat;
  n_time : nat;
  cv_error : option Qc;
  (* set by parameters *)
  src_type : value;
  sigma : Qc;
  h : Qc;
  n_src_init : Qc;
  ext_x : Qc;
  ext_y : Qc;
  lambd : Qc;
  R_init : Qc;
  xmin : Qc;
  xmax : Qc;
  ymin : Qc;
  ymax : Qc;
  gdx : Qc;
  gdy : Qc;
  (* set by estimate_at *)
  estm_x : mat;
  estm_y : mat;
  n_estm : nat;
  ngx : nat;
  ngy : nat;
  (* set by place_basis *)
  basis : option basis_fn;
  src_x : mat;
  src_y : mat;
  R : Qc;
  dist_max : Qc;
  n_src : nat;
  nsx : nat;
  nsy : nat;
  (* set by method *)
  dist_table : vec;
  b_pot : mat;
  k_pot : mat;
  b_src : mat;
  k_interp_cross : mat;
  b_interp_pot : mat;
  k_interp_pot : mat;
  (* text printed so far *)
  stdout : list out_line
}.

(** Attribute assignment [self.f = v]: one setter per attribute, every other
    attribute is carried over. *)

Definition set_ele_pos (v : mat) (self : kcsd) : kcsd :=
  Build_kcsd v (pots self) (n_ele self) (n_time self) (cv_error self)
    (src_type self) (sigma self) (h self) (n_src_init self) (ext_x self)
    (ext_y self) (lambd self) (R_init self) (xmin self) (xmax self)
    (ymin self) (ymax self) (gdx self) (gdy self) (estm_x self) (estm_y self)
    (n_estm self) (ngx self) (ngy self) (basis self) (src_x self)
    (src_y self) (R self) (dist_max self) (n_src self) (nsx self) (nsy self)
    (dist_table self) (b_pot self) (k_pot self) (b_src self)
    (k_interp_cross self) (b_interp_pot self) (k_interp_pot self)
    (stdout self).

Definition set_pots (v : mat) (self : kcsd) : kcsd :=
  Build_kcsd (ele_pos self) v (n_ele self) (n_time self) (cv_error self)
    (src_type self) (sigma self) (h self) (n_src_init self) (ext_x self)
    (ext_y self) (lambd self) (R_init self) (xmin self) (xmax self)
    (ymin self) (ymax self) (gdx self) (gdy self) (estm_x self) (estm_y self)
    (n_estm self) (ngx self) (ngy self) (basis self) (src_x self)
    (src_y self) (R self) (dist_max self) (n_src self) (nsx self) (nsy self)
    (dist_table self) (b_pot self) (k_pot self) (b_src self)
    (k_interp_cross self) (b_interp_pot self) (k_interp_pot self)
    (stdout self).

Definition set_n_ele (v : nat) (self : kcsd) : kcsd :=
  Build_kcsd (ele_pos self) (pots self) v (n_time self) (cv_error self)
    (src_type self) (sigma self) (h self) (n_src_init self) (ext_x self)
    (ext_y self) (lambd self) (R_init self) (xmin self) (xmax self)
    (ymin self) (ymax self) (gdx self) (gdy self) (estm_x self) (estm_y self)
    (n_estm self) (ngx self) (ngy self) (basis self) (src_x self)
    (src_y self) (R self) (dist_max self) (n_src self) (nsx self) (nsy self)
    (dist_table self) (b_pot self) (k_pot self) (b_src self)
    (k_interp_cross self) (b_interp_pot self) (k_interp_pot self)
    (stdout self).

Definition set_n_time (v : nat) (self : kcsd) : kcsd :=
  Build_kcsd (ele_pos self) (pots self) (n_ele self) v (cv_error self)
    (src_type self) (sigma self) (h self) (n_src_init self) (ext_x self)
    (ext_y self) (lambd self) (R_init self) (xmin self) (xmax self)
    (ymin self) (ymax self) (gdx self) (gdy self) (estm_x self) (estm_y self)
    (n_estm self) (ngx self) (ngy self) (basis self) (src_x self)
    (src_y self) (R self) (dist_max self) (n_src self) (nsx self) (nsy self)
    (dist_table self) (b_pot self) (k_pot self) (b_src self)
    (k_interp_cross self) (b_interp_pot self) (k_interp_pot self)
    (stdout self).

Definition set_cv_error (v : option Qc) (self : kcsd) : kcsd :=
  Build_kcsd (ele_pos self) (pots self) (n_ele self) (n_time self) v
    (src_type self) (sigma self) (h self) (n_src_init self) (ext_x self)
    (ext_y self) (lambd self) (R_init self) (xmin self) (xmax self)
    (ymin self) (ymax self) (gdx self) (gdy self) (estm_x self) (estm_y self)
    (n_estm self) (ngx self) (ngy self) (basis self) (src_x self)
    (src_y self) (R self) (dist_max self) (n_src self) (nsx self) (nsy self)
    (dist_table self) (b_pot self) (k_pot self) (b_src self)
    (k_interp_cross self) (b_interp_pot self) (k_interp_pot self)
    (stdout self).

Definition set_src_type (v : value) (self : kcsd) : kcsd :=
  Build_kcsd (ele_pos self) (pots self) (n_ele self) (n_time self)
    (cv_error self) v (sigma self) (h self) (n_src_init self) (ext_x self)
    (ext_y self) (lambd self) (R_init self) (xmin self) (xmax self)
    (ymin self) (ymax self) (gdx self) (gdy self) (estm_x self) (estm_y self)
    (n_estm self) (ngx self) (ngy self) (basis self) (src_x self)
    (src_y self) (R self) (dist_max self) (n_src self) (nsx self) (nsy self)
    (dist_table self) (b_pot self) (k_pot self) (b_src self)
    (k_interp_cross self) (b_interp_pot self) (k_interp_pot self)
    (stdout self).

Definition set_sigma (v : Qc) (self : kcsd) : kcsd :=
  Build_kcsd (ele_pos self) (pots self) (n_ele self) (n_time self)
    (cv_error self) (src_type self) v (h self) (n_src_init self) (ext_x self)
    (ext_y self) (lambd self) (R_init self) (xmin self) (xmax self)
    (ymin self) (ymax self) (gdx self) (gdy self) (estm_x self) (estm_y self)
    (n_estm self) (ngx self) (ngy self) (basis self) (src_x self)
    (src_y self) (R self) (dist_max self) (n_src self) (nsx self) (nsy self)
    (dist_table self) (b_pot self) (k_pot self) (b_src self)
    (k_interp_cross self) (b_interp_pot self) (k_interp_pot self)
    (stdout self).

Definition set_h (v : Qc) (self : kcsd) : kcsd :=
  Build_kcsd (ele_pos self) (pots self) (n_ele self) (n_time self)
    (cv_error self) (src_type self) (sigma self) v (n_src_init self)
    (ext_x self) (ext_y self) (lambd self) (R_init self) (xmin self)
    (xmax self) (ymin self) (ymax self) (gdx self) (gdy self) (estm_x self)
    (estm_y self) (n_estm self) (ngx self) (ngy self) (basis self)
    (src_x self) (src_y self) (R self) (dist_max self) (n_src self)
    (nsx self) (nsy self) (dist_table self) (b_pot self) (k_pot self)
    (b_src self) (k_interp_cross self) (b_interp_pot self)
    (k_interp_pot self) (stdout self).

Definition set_n_src_init (v : Qc) (self : kcsd) : kcsd :=
  Build_kcsd (ele_pos self) (pots self) (n_ele self) (n_time self)
    (cv_error self) (src_type self) (sigma self) (h self) v (ext_x self)
    (ext_y self) (lambd self) (R_init self) (xmin self) (xmax self)
    (ymin self) (ymax self) (gdx self) (gdy self) (estm_x self) (estm_y self)
    (n_estm self) (ngx self) (ngy self) (basis self) (src_x self)
    (src_y self) (R self) (dist_max self) (n_src self) (nsx self) (nsy self)
    (dist_table self) (b_pot self) (k_pot self) (b_src self)
    (k_interp_cross self) (b_interp_pot self) (k_interp_pot self)
    (stdout self).

Definition set_ext_x (v : Qc) (self : kcsd) : kcsd :=
  Build_kcsd (ele_pos self) (pots self) (n_ele self) (n_time self)
    (cv_error self) (src_type self) (sigma self) (h self) (n_src_init self) v
    (ext_y self) (lambd self) (R_init self) (xmin self) (xmax self)
    (ymin self) (ymax self) (gdx self) (gdy self) (estm_x self) (estm_y self)
    (n_estm self) (ngx self) (ngy self) (basis self) (src_x self)
    (src_y self) (R self) (dist_max self) (n_src self) (nsx self) (nsy self)
    (dist_table self) (b_pot self) (k_pot self) (b_src self)
    (k_interp_cross self) (b_interp_pot self) (k_interp_pot self)
    (stdout self).

Definition set_ext_y (v : Qc) (self : kcsd) : kcsd :=
  Build_kcsd (ele_pos self) (pots self) (n_ele self) (n_time self)
    (cv_error self) (src_type self) (sigma self) (h self) (n_src_init self)
    (ext_x self) v (lambd self) (R_init self) (xmin self) (xmax self)
    (ymin self) (ymax self) (gdx self) (gdy self) (estm_x self) (estm_y self)
    (n_estm self) (ngx self) (ngy self) (basis self) (src_x self)
    (src_y self) (R self) (dist_max self) (n_src self) (nsx self) (nsy self)
    (dist_table self) (b_pot self) (k_pot self) (b_src self)
    (k_interp_cross self) (b_interp_pot self) (k_interp_pot self)
    (stdout self).

Definition set_lambd (v : Qc) (self : kcsd) : kcsd :=
  Build_kcsd (ele_pos self) (pots self) (n_ele self) (n_time self)
    (cv_error self) (src_type self) (sigma self) (h self) (n_src_init self)
    (ext_x self) (ext_y self) v (R_init self) (xmin self) (xmax self)
    (ymin self) (ymax self) (gdx self) (gdy self) (estm_x self) (estm_y self)
    (n_estm self) (ngx self) (ngy self) (basis self) (src_x self)
    (src_y self) (R self) (dist_max self) (n_src self) (nsx self) (nsy self)
    (dist_table self) (b_pot self) (k_pot self) (b_src self)
    (k_interp_cross self) (b_interp_pot self) (k_interp_pot self)
    (stdout self).

Definition set_R_init (v : Qc) (self : kcsd) : kcsd :=
  Build_kcsd (ele_pos self) (pots self) (n_ele self) (n_time self)
    (cv_error self) (src_type self) (sigma self) (h self) (n_src_init self)
    (ext_x self) (ext_y self) (lambd self) v (xmin self) (xmax self)
    (ymin self) (ymax self) (gdx self) (gdy self) (estm_x self) (estm_y self)
    (n_estm self) (ngx self) (ngy self) (basis self) (src_x self)
    (src_y self) (R self) (dist_max self) (n_src self) (nsx self) (nsy self)
    (dist_table self) (b_pot self) (k_pot self) (b_src self)
    (k_interp_cross self) (b_interp_pot self) (k_interp_pot self)
    (stdout self).

Definition set_xmin (v : Qc) (self : kcsd) : kcsd :=
  Build_kcsd (ele_pos self) (pots self) (n_ele self) (n_time self)
    (cv_error self) (src_type self) (sigma self) (h self) (n_src_init self)
    (ext_x self) (ext_y self) (lambd self) (R_init self) v (xmax self)
    (ymin self) (ymax self) (gdx self) (gdy self) (estm_x self) (estm_y self)
    (n_estm self) (ngx self) (ngy self) (basis self) (src_x self)
    (src_y self) (R self) (dist_max self) (n_src self) (nsx self) (nsy self)
    (dist_table self) (b_pot self) (k_pot self) (b_src self)
    (k_interp_cross self) (b_interp_pot self) (k_interp_pot self)
    (stdout self).

Definition set_xmax (v : Qc) (self : kcsd) : kcsd :=
  Build_kcsd (ele_pos self) (pots self) (n_ele self) (n_time self)
    (cv_error self) (src_type self) (sigma self) (h self) (n_src_init self)
    (ext_x self) (ext_y self) (lambd self) (R_init self) (xmin self) v
    (ymin self) (ymax self) (gdx self) (gdy self) (estm_x self) (estm_y self)
    (n_estm self) (ngx self) (ngy self) (basis self) (src_x self)
    (src_y self) (R self) (dist_max self) (n_src self) (nsx self) (nsy self)
    (dist_table self) (b_pot self) (k_pot self) (b_src self)
    (k_interp_cross self) (b_interp_pot self) (k_interp_pot self)
    (stdout self).

Definition set_ymin (v : Qc) (self : kcsd) : kcsd :=
  Build_kcsd (ele_pos self) (pots self) (n_ele self) (n_time self)
    (cv_error self) (src_type self) (sigma self) (h self) (n_src_init self)
    (ext_x self) (ext_y self) (lambd self) (R_init self) (xmin self)
    (xmax self) v (ymax self) (gdx self) (gdy self) (estm_x self)
    (estm_y self) (n_estm self) (ngx self) (ngy self) (basis self)
    (src_x self) (src_y self) (R self) (dist_max self) (n_src self)
    (nsx self) (nsy self) (dist_table self) (b_pot self) (k_pot self)
    (b_src self) (k_interp_cross self) (b_interp_pot self)
    (k_interp_pot self) (stdout self).

Definition set_ymax (v : Qc) (self : kcsd) : kcsd :=
  Build_kcsd (ele_pos self) (pots self) (n_ele self) (n_time self)
    (cv_error self) (src_type self) (sigma self) (h self) (n_src_init self)
    (ext_x self) (ext_y self) (lambd self) (R_init self) (xmin self)
    (xmax self) (ymin self) v (gdx self) (gdy self) (estm_x self)
    (estm_y self) (n_estm self) (ngx self) (ngy self) (basis self)
    (src_x self) (src_y self) (R self) (dist_max self) (n_src self)
    (nsx self) (nsy self) (dist_table self) (b_pot self) (k_pot self)
    (b_src self) (k_interp_cross self) (b_interp_pot self)
    (k_interp_pot self) (stdout self).

Definition set_gdx (v : Qc) (self : kcsd) : kcsd :=
  Build_kcsd (ele_pos self) (pots self) (n_ele self) (n_time self)
    (cv_error self) (src_type self) (sigma self) (h self) (n_src_init self)
    (ext_x self) (ext_y self) (lambd self) (R_init self) (xmin self)
    (xmax self) (ymin self) (ymax self) v (gdy self) (estm_x self)
    (estm_y self) (n_estm self) (ngx self) (ngy self) (basis self)
    (src_x self) (src_y self) (R self) (dist_max self) (n_src self)
    (nsx self) (nsy self) (dist_table self) (b_pot self) (k_pot self)
    (b_src self) (k_interp_cross self) (b_interp_pot self)
    (k_interp_pot self) (stdout self).

Definition set_gdy (v : Qc) (self : kcsd) : kcsd :=
  Build_kcsd (ele_pos self) (pots self) (n_ele self) (n_time self)
    (cv_error self) (src_type self) (sigma self) (h self) (n_src_init self)
    (ext_x self) (ext_y self) (lambd self) (R_init self) (xmin self)
    (xmax self) (ymin self) (ymax self) (gdx self) v (estm_x self)
    (estm_y self) (n_estm self) (ngx self) (ngy self) (basis self)
    (src_x self) (src_y self) (R self) (dist_max self) (n_src self)
    (nsx self) (nsy self) (dist_table self) (b_pot self) (k_pot self)
    (b_src self) (k_interp_cross self) (b_interp_pot self)
    (k_interp_pot self) (stdout self).

Definition set_estm_x (v : mat) (self : kcsd) : kcsd :=
  Build_kcsd (ele_pos self) (pots self) (n_ele self) (n_time self)
    (cv_error self) (src_type self) (sigma self) (h self) (n_src_init self)
    (ext_x self) (ext_y self) (lambd self) (R_init self) (xmin self)
    (xmax self) (ymin self) (ymax self) (gdx self) (gdy self) v (estm_y self)
    (n_estm self) (ngx self) (ngy self) (basis self) (src_x self)
    (src_y self) (R self) (dist_max self) (n_src self) (nsx self) (nsy self)
    (dist_table self) (b_pot self) (k_pot self) (b_src self)
    (k_interp_cross self) (b_interp_pot self) (k_interp_pot self)
    (stdout self).

Definition set_estm_y (v : mat) (self : kcsd) : kcsd :=
  Build_kcsd (ele_pos self) (pots self) (n_ele self) (n_time self)
    (cv_error self) (src_type self) (sigma self) (h self) (n_src_init self)
    (ext_x self) (ext_y self) (lambd self) (R_init self) (xmin self)
    (xmax self) (ymin self) (ymax self) (gdx self) (gdy self) (estm_x self) v
    (n_estm self) (ngx self) (ngy self) (basis self) (src_x self)
    (src_y self) (R self) (dist_max self) (n_src self) (nsx self) (nsy self)
    (dist_table self) (b_pot self) (k_pot self) (b_src self)
    (k_interp_cross self) (b_interp_pot self) (k_interp_pot self)
    (stdout self).

Definition set_n_estm (v : nat) (self : kcsd) : kcsd :=
  Build_kcsd (ele_pos self) (pots self) (n_ele self) (n_time self)
    (cv_error self) (src_type self) (sigma self) (h self) (n_src_init self)
    (ext_x self) (ext_y self) (lambd self) (R_init self) (xmin self)
    (xmax self) (ymin self) (ymax self) (gdx self) (gdy self) (estm_x self)
    (estm_y self) v (ngx self) (ngy self) (basis self) (src_x self)
    (src_y self) (R self) (dist_max self) (n_src self) (nsx self) (nsy self)
    (dist_table self) (b_pot self) (k_pot self) (b_src self)
    (k_interp_cross self) (b_interp_pot self) (k_interp_pot self)
    (stdout self).

Definition set_ngx (v : nat) (self : kcsd) : kcsd :=
  Build_kcsd (ele_pos self) (pots self) (n_ele self) (n_time self)
    (cv_error self) (src_type self) (sigma self) (h self) (n_src_init self)
    (ext_x self) (ext_y self) (lambd self) (R_init self) (xmin self)
    (xmax self) (ymin self) (ymax self) (gdx self) (gdy self) (estm_x self)
    (estm_y self) (n_estm self) v (ngy self) (basis self) (src_x self)
    (src_y self) (R self) (dist_max self) (n_src self) (nsx self) (nsy self)
    (dist_table self) (b_pot self) (k_pot self) (b_src self)
    (k_interp_cross self) (b_interp_pot self) (k_interp_pot self)
    (stdout self).

Definition set_ngy (v : nat) (self : kcsd) : kcsd :=
  Build_kcsd (ele_pos self) (pots self) (n_ele self) (n_time self)
    (cv_error self) (src_type self) (sigma self) (h self) (n_src_init self)
    (ext_x self) (ext_y self) (lambd self) (R_init self) (xmin self)
    (xmax self) (ymin self) (ymax self) (gdx self) (gdy self) (estm_x self)
    (estm_y self) (n_estm self) (ngx self) v (basis self) (src_x self)
    (src_y self) (R self) (dist_max self) (n_src self) (nsx self) (nsy self)
    (dist_table self) (b_pot self) (k_pot self) (b_src self)
    (k_interp_cross self) (b_interp_pot self) (k_interp_pot self)
    (stdout self).

Definition set_basis (v : option basis_fn) (self : kcsd) : kcsd :=
  Build_kcsd (ele_pos self) (pots self) (n_ele self) (n_time self)
    (cv_error self) (src_type self) (sigma self) (h self) (n_src_init self)
    (ext_x self) (ext_y self) (lambd self) (R_init self) (xmin self)
    (xmax self) (ymin self) (ymax self) (gdx self) (gdy self) (estm_x self)
    (estm_y self) (n_estm self) (ngx self) (ngy self) v (src_x self)
    (src_y self) (R self) (dist_max self) (n_src self) (nsx self) (nsy self)
    (dist_table self) (b_pot self) (k_pot self) (b_src self)
    (k_interp_cross self) (b_interp_pot self) (k_interp_pot self)
    (stdout self).

Definition set_src_x (v : mat) (self : kcsd) : kcsd :=
  Build_kcsd (ele_pos self) (pots self) (n_ele self) (n_time self)
    (cv_error self) (src_type self) (sigma self) (h self) (n_src_init self)
    (ext_x self) (ext_y self) (lambd self) (R_init self) (xmin self)
    (xmax self) (ymin self) (ymax self) (gdx self) (gdy self) (estm_x self)
    (estm_y self) (n_estm self) (ngx self) (ngy self) (basis self) v
    (src_y self) (R self) (dist_max self) (n_src self) (nsx self) (nsy self)
    (dist_table self) (b_pot self) (k_pot self) (b_src self)
    (k_interp_cross self) (b_interp_pot self) (k_interp_pot self)
    (stdout self).

Definition set_src_y (v : mat) (self : kcsd) : kcsd :=
  Build_kcsd (ele_pos self) (pots self) (n_ele self) (n_time self)
    (cv_error self) (src_type self) (sigma self) (h self) (n_src_init self)
    (ext_x self) (ext_y self) (lambd self) (R_init self) (xmin self)
    (xmax self) (ymin self) (ymax self) (gdx self) (gdy self) (estm_x self)
    (estm_y self) (n_estm self) (ngx self) (ngy self) (basis self)
    (src_x self) v (R self) (dist_max self) (n_src self) (nsx self)
    (nsy self) (dist_table self) (b_pot self) (k_pot self) (b_src self)
    (k_interp_cross self) (b_interp_pot self) (k_interp_pot self)
    (stdout self).

Definition set_R (v : Qc) (self : kcsd) : kcsd :=
  Build_kcsd (ele_pos self) (pots self) (n_ele self) (n_time self)
    (cv_error self) (src_type self) (sigma self) (h self) (n_src_init self)
    (ext_x self) (ext_y self) (lambd self) (R_init self) (xmin self)
    (xmax self) (ymin self) (ymax self) (gdx self) (gdy self) (estm_x self)
    (estm_y self) (n_estm self) (ngx self) (ngy self) (basis self)
    (src_x self) (src_y self) v (dist_max self) (n_src self) (nsx self)
    (nsy self) (dist_table self) (b_pot self) (k_pot self) (b_src self)
    (k_interp_cross self) (b_interp_pot self) (k_interp_pot self)
    (stdout self).

Definition set_dist_max (v : Qc) (self : kcsd) : kcsd :=
  Build_kcsd (ele_pos self) (pots self) (n_ele self) (n_time self)
    (cv_error self) (src_type self) (sigma self) (h self) (n_src_init self)
    (ext_x self) (ext_y self) (lambd self) (R_init self) (xmin self)
    (xmax self) (ymin self) (ymax self) (gdx self) (gdy self) (estm_x self)
    (estm_y self) (n_estm self) (ngx self) (ngy self) (basis self)
    (src_x self) (src_y self) (R self) v (n_src self) (nsx self) (nsy self)
    (dist_table self) (b_pot self) (k_pot self) (b_src self)
    (k_interp_cross self) (b_interp_pot self) (k_interp_pot self)
    (stdout self).

Definition set_n_src (v : nat) (self : kcsd) : kcsd :=
  Build_kcsd (ele_pos self) (pots self) (n_ele self) (n_time self)
    (cv_error self) (src_type self) (sigma self) (h self) (n_src_init self)
    (ext_x self) (ext_y self) (lambd self) (R_init self) (xmin self)
    (xmax self) (ymin self) (ymax self) (gdx self) (gdy self) (estm_x self)
    (estm_y self) (n_estm self) (ngx self) (ngy self) (basis self)
    (src_x self) (src_y self) (R self) (dist_max self) v (nsx self)
    (nsy self) (dist_table self) (b_pot self) (k_pot self) (b_src self)
    (k_interp_cross self) (b_interp_pot self) (k_interp_pot self)
    (stdout self).

Definition set_nsx (v : nat) (self : kcsd) : kcsd :=
  Build_kcsd (ele_pos self) (pots self) (n_ele self) (n_time self)
    (cv_error self) (src_type self) (sigma self) (h self) (n_src_init self)
    (ext_x self) (ext_y self) (lambd self) (R_init self) (xmin self)
    (xmax self) (ymin self) (ymax self) (gdx self) (gdy self) (estm_x self)
    (estm_y self) (n_estm self) (ngx self) (ngy self) (basis self)
    (src_x self) (src_y self) (R self) (dist_max self) (n_src self) v
    (nsy self) (dist_table self) (b_pot self) (k_pot self) (b_src self)
    (k_interp_cross self) (b_interp_pot self) (k_interp_pot self)
    (stdout self).

Definition set_nsy (v : nat) (self : kcsd) : kcsd :=
  Build_kcsd (ele_pos self) (pots self) (n_ele self) (n_time self)
    (cv_error self) (src_type self) (sigma self) (h self) (n_src_init self)
    (ext_x self) (ext_y self) (lambd self) (R_init self) (xmin self)
    (xmax self) (ymin self) (ymax self) (gdx self) (gdy self) (estm_x self)
    (estm_y self) (n_estm self) (ngx self) (ngy self) (basis self)
    (src_x self) (src_y self) (R self) (dist_max self) (n_src self)
    (nsx self) v (dist_table self) (b_pot self) (k_pot self) (b_src self)
    (k_interp_cross self) (b_interp_pot self) (k_interp_pot self)
    (stdout self).

Definition set_dist_table (v : vec) (self : kcsd) : kcsd :=
  Build_kcsd (ele_pos self) (pots self) (n_ele self) (n_time self)
    (cv_error self) (src_type self) (sigma self) (h self) (n_src_init self)
    (ext_x self) (ext_y self) (lambd self) (R_init self) (xmin self)
    (xmax self) (ymin self) (ymax self) (gdx self) (gdy self) (estm_x self)
    (estm_y self) (n_estm self) (ngx self) (ngy self) (basis self)
    (src_x self) (src_y self) (R self) (dist_max self) (n_src self)
    (nsx self) (nsy self) v (b_pot self) (k_pot self) (b_src self)
    (k_interp_cross self) (b_interp_pot self) (k_interp_pot self)
    (stdout self).

Definition set_b_pot (v : mat) (self : kcsd) : kcsd :=
  Build_kcsd (ele_pos self) (pots self) (n_ele self) (n_time self)
    (cv_error self) (src_type self) (sigma self) (h self) (n_src_init self)
    (ext_x self) (ext_y self) (lambd self) (R_init self) (xmin self)
    (xmax self) (ymin self) (ymax self) (gdx self) (gdy self) (estm_x self)
    (estm_y self) (n_estm self) (ngx self) (ngy self) (basis self)
    (src_x self) (src_y self) (R self) (dist_max self) (n_src self)
    (nsx self) (nsy self) (dist_table self) v (k_pot self) (b_src self)
    (k_interp_cross self) (b_interp_pot self) (k_interp_pot self)
    (stdout self).

Definition set_k_pot (v : mat) (self : kcsd) : kcsd :=
  Build_kcsd (ele_pos self) (pots self) (n_ele self) (n_time self)
    (cv_error self) (src_type self) (sigma self) (h self) (n_src_init self)
    (ext_x self) (ext_y self) (lambd self) (R_init self) (xmin self)
    (xmax self) (ymin self) (ymax self) (gdx self) (gdy self) (estm_x self)
    (estm_y self) (n_estm self) (ngx self) (ngy self) (basis self)
    (src_x self) (src_y self) (R self) (dist_max self) (n_src self)
    (nsx self) (nsy self) (dist_table self) (b_pot self) v (b_src self)
    (k_interp_cross self) (b_interp_pot self) (k_interp_pot self)
    (stdout self).

Definition set_b_src (v : mat) (self : kcsd) : kcsd :=
  Build_kcsd (ele_pos self) (pots self) (n_ele self) (n_time self)
    (cv_error self) (src_type self) (sigma self) (h self) (n_src_init self)
    (ext_x self) (ext_y self) (lambd self) (R_init self) (xmin self)
    (xmax self) (ymin self) (ymax self) (gdx self) (gdy self) (estm_x self)
    (estm_y self) (n_estm self) (ngx self) (ngy self) (basis self)
    (src_x self) (src_y self) (R self) (dist_max self) (n_src self)
    (nsx self) (nsy self) (dist_table self) (b_pot self) (k_pot self) v
    (k_interp_cross self) (b_interp_pot self) (k_interp_pot self)
    (stdout self).

Definition set_k_interp_cross (v : mat) (self : kcsd) : kcsd :=
  Build_kcsd (ele_pos self) (pots self) (n_ele self) (n_time self)
    (cv_error self) (src_type self) (sigma self) (h self) (n_src_init self)
    (ext_x self) (ext_y self) (lambd self) (R_init self) (xmin self)
    (xmax self) (ymin self) (ymax self) (gdx self) (gdy self) (estm_x self)
    (estm_y self) (n_estm self) (ngx self) (ngy self) (basis self)
    (src_x self) (src_y self) (R self) (dist_max self) (n_src self)
    (nsx self) (nsy self) (dist_table self) (b_pot self) (k_pot self)
    (b_src self) v (b_interp_pot self) (k_interp_pot self) (stdout self).

Definition set_b_interp_pot (v : mat) (self : kcsd) : kcsd :=
  Build_kcsd (ele_pos self) (pots self) (n_ele self) (n_time self)
    (cv_error self) (src_type self) (sigma self) (h self) (n_src_init self)
    (ext_x self) (ext_y self) (lambd self) (R_init self) (xmin self)
    (xmax self) (ymin self) (ymax self) (gdx self) (gdy self) (estm_x self)
    (estm_y self) (n_estm self) (ngx self) (ngy self) (basis self)
    (src_x self) (src_y self) (R self) (dist_max self) (n_src self)
    (nsx self) (nsy self) (dist_table self) (b_pot self) (k_pot self)
    (b_src self) (k_interp_cross self) v (k_interp_pot self) (stdout self).

Definition set_k_interp_pot (v : mat) (self : kcsd) : kcsd :=
  Build_kcsd (ele_pos self) (pots self) (n_ele self) (n_time self)
    (cv_error self) (src_type self) (sigma self) (h self) (n_src_init self)
    (ext_x self) (ext_y self) (lambd self) (R_init self) (xmin self)
    (xmax self) (ymin self) (ymax self) (gdx self) (gdy self) (estm_x self)
    (estm_y self) (n_estm self) (ngx self) (ngy self) (basis self)
    (src_x self) (src_y self) (R self) (dist_max self) (n_src self)
    (nsx self) (nsy self) (dist_table self) (b_pot self) (k_pot self)
    (b_src self) (k_interp_cross self) (b_interp_pot self) v (stdout self).

Definition set_stdout (v : list out_line) (self : kcsd) : kcsd :=
  Build_kcsd (ele_pos self) (pots self) (n_ele self) (n_time self)
    (cv_error self) (src_type self) (sigma self) (h self) (n_src_init self)
    (ext_x self) (ext_y self) (lambd self) (R_init self) (xmin self)
    (xmax self) (ymin self) (ymax self) (gdx self) (gdy self) (estm_x self)
    (estm_y self) (n_estm self) (ngx self) (ngy self) (basis self)
    (src_x self) (src_y self) (R self) (dist_max self) (n_src self)
    (nsx self) (nsy self) (dist_table self) (b_pot self) (k_pot self)
    (b_src self) (k_interp_cross self) (b_interp_pot self)
    (k_interp_pot self) v.

(** ** The monad of methods: state [self], result or exception *)

Definition M (A : Type) : Type := kcsd -> outcome A * kcsd.

Definition ret {A} (a : A) : M A := fun self => (Ok a, self).

Definition bind {A B} (m : M A) (k : A -> M B) : M B :=
  fun self =>
    match m self with
    | (Ok a, self') => k a self'
    | (Raise e, self') => (Raise e, self')
    end.

Definition raise {A} (e : exn) : M A := fun self => (Raise e, self).

(** Read [self]. *)
Definition get : M kcsd := fun self => (Ok self, self).

(** Apply an attribute assignment. *)
Definition assign (f : kcsd -> kcsd) : M unit := fun self => (Ok tt, f self).

(** [print text, num, ...] *)
Definition print (text : string) (nums : list Qc) : M unit :=
  assign (fun self => set_stdout (stdout self ++ [(text, nums)]) self).

(** A partial array operation: [None] raises [e]. *)
Definition lift {A} (e : exn) (o : option A) : M A :=
  match o with Some a => ret a | None => raise e end.

(** [try: body except LinAlgError: handler] *)
Definition try_except_LinAlgError {A} (body handler : M A) : M A :=
  fun self =>
    match body self with
    | (Raise LinAlgError, self') => handler self'
    | r => r
    end.

Declare Scope kcsd_scope.
Delimit Scope kcsd_scope with kcsd.
Notation "x <- m ;; k" := (bind m (fun x => k))
  (at level 100, m at next level, k at level 200, right associativity)
  : kcsd_scope.
Notation "m ;; k" := (bind m (fun _ => k))
  (at level 100, k at level 200, right associativity) : kcsd_scope.
Local Open Scope kcsd_scope.

(** [for x in xs: acc = body(acc, x)] with a local variable [acc]. *)
Fixpoint for_fold {A B} (xs : list A) (acc : B) (body : B -> A -> M B) : M B :=
  match xs with
  | [] => ret acc
  | x :: xs' => acc' <- body acc x ;; for_fold xs' acc' body
  end.

(** [[f(x) for x in xs]] with effects, left to right. *)
Fixpoint for_map {A B} (xs : list A) (f : A -> M B) : M (list B) :=
  match xs with
  | [] => ret []
  | x :: xs' => y <- f x ;; ys <- for_map xs' f ;; ret (y :: ys)
  end.

(** ** numpy operations that can raise *)

Module NpErr.

(** [A[i, j]] *)
Definition get2 (A : mat) (i j : nat) : option Qc :=
  match A !! i with Some r => r !! j | None => None end.

(** [A[:, j]]: every row must reach index [j]. *)
Definition col_at (j : nat) (A : mat) : option vec :=
  mapM (fun r : vec => r !! j) A.

(** [A[idx]] for a list of row indices. *)
Definition take_rows (idx : list nat) (A : mat) : option mat :=
  mapM (fun i => A !! i) idx.

(** [A[np.ix_(rows, cols)]] *)
Definition ix_ (rows cols : list nat) (A : mat) : option mat :=
  mapM (fun i => match A !! i with
                 | Some r => mapM (fun j => r !! j) cols
                 | None => None
                 end) rows.

(** [np.dot(A, v)] for a 2-D [A] and a 1-D [v]: the rows of [A] must
    have the length of [v]. *)
Definition dot_mv (A : mat) (v : vec) : option vec :=
  if forallb (fun r : vec => (length r =? length v)%nat) A
  then Some (mat_vec A v) else None.

(** [np.dot(A, B)] for 2-D arrays: the rows of [A] must have as many
    entries as [B] has rows. *)
Definition dot_mm (A B : mat) : option mat :=
  if forallb (fun r : vec => (length r =? length B)%nat) A
  then Some (mat_mul A B) else None.

(** [A + B] for two 2-D arrays of one shape. *)
Definition add_mm (A B : mat) : option mat :=
  if has_shapeb (length A) (ncols A) A && has_shapeb (length A) (ncols A) B
  then Some (mat_add A B) else None.

(** [A - B] for two 2-D arrays of one shape. *)
Definition sub_mm (A B : mat) : option mat :=
  if has_shapeb (length A) (ncols A) A && has_shapeb (length A) (ncols A) B
  then Some (zip_with (zip_with Qcminus) A B) else None.

(** A 1-D operand broadcast against [n] rows: its length is [n] or 1. *)
Definition broadcast (n : nat) (v : vec) : option vec :=
  if (length v =? n)%nat then Some v
  else match v with
       | [x] => Some (replicate n x)
       | _ => None
       end.

(** [A[:, t] += v] *)
Definition col_iadd (t : nat) (v : vec) (A : mat) : option mat :=
  match broadcast (length A) v with
  | Some bv =>
      mapM (fun rx : vec * Qc =>
              if (t <? length rx.1)%nat
              then Some (alter (fun a => a + rx.2) t rx.1) else None)
           (zip A bv)
  | None => None
  end.

(** [np.min] and [np.max] of the entries: empty input raises. *)
Definition np_min (v : vec) : option Qc :=
  match v with
  | [] => None
  | x :: v' => Some (foldl (fun m y => if bool_decide (y < m) then y else m) x v')
  end.

Definition np_max (v : vec) : option Qc :=
  match v with
  | [] => None
  | x :: v' => Some (foldl (fun m y => if bool_decide (m < y) then y else m) x v')
  end.

(** [A.reshape(a, b, c)] of a 2-D array, in C order. *)
Definition reshape3 (a b c : nat) (A : mat) : option arr3 :=
  if (size A =? a * b * c)%nat
  then Some (chunk b a (chunk c (a * b) (concat A)))
  else None.

End NpErr.

Import NpErr.

(** An integer as a float. *)
Definition ofZ (z : Z) : Qc := Q2Qc (inject_Z z).
Definition ofnat (n : nat) : Qc := ofZ (Z.of_nat n).

(** [np.any(x)]: [x] is [None] or an array; true when some entry is not 0. *)
Definition np_any (x : option vec) : bool :=
  match x with
  | None => false
  | Some v => existsb (fun a => negb (bool_decide (a = 0))) v
  end.

(** [np.round]: to the nearest integer, halves to the even neighbour. *)
Definition np_round (q : Qc) : Z :=
  let f := Qfloor q in
  let r := q - ofZ f in
  if bool_decide (r < Q2Qc (1 # 2)) then f
  else if bool_decide (Q2Qc (1 # 2) < r) then (f + 1)%Z
  else if Z.even f then f else (f + 1)%Z.

(** [np.uint16] of an integral float: the low 16 bits. *)
Definition np_uint16 (z : Z) : Z := z mod 65536.

(** [np.unravel_index(i, (n0, n1), order='C')] *)
Definition unravel_index (i n1 : nat) : nat * nat := (i / n1, i mod n1)%nat.

(** [np.mgrid[start:stop:complex(0, n)]] along one axis: [int(n)] points
    from [start] to [stop], both included. *)
Definition mgrid_axis (start stop n : Qc) : vec :=
  let count := Z.to_nat (Qfloor (Qabs (this n))) in
  let step := if (count =? 1)%nat then 1
              else (stop - start) / (ofnat count - 1) in
  map (fun i => ofnat i * step + start) (seq 0 count).

(** [np.mgrid[x0:x1:nx*1j, y0:y1:ny*1j]]: the two coordinate meshes. *)
Definition mgrid (x0 x1 nx y0 y1 ny : Qc) : mat * mat :=
  let xs := mgrid_axis x0 x1 nx in
  let ys := mgrid_axis y0 y1 ny in
  (map (fun x => map (fun _ => x) ys) xs, map (fun _ => ys) xs).

(** ** Code outside this file

    numpy and scipy routines whose results are not rational functions of
    their arguments, and the helper modules [basis_functions] and
    [utility_functions]. *)

Class External := {
  (** [np.linalg.inv]; [None] is [LinAlgError] *)
  linalg_inv : mat -> option mat;
  (** [x ** 0.5] *)
  np_sqrt : Qc -> Qc;
  np_pi : Qc;
  np_arcsinh : Qc -> Qc;
  (** [np.logspace(start, stop, num, base=10.)] *)
  np_logspace : Z -> Z -> nat -> vec;
  (** [scipy.integrate.dblquad(func, a, b, gfun, hfun)]: the integral and an
      error estimate *)
  dblquad : (Qc -> Qc -> Qc) -> Qc -> Qc -> (Qc -> Qc) -> (Qc -> Qc) -> Qc * Qc;
  (** the three shapes of [basis_functions] *)
  gauss_2D : basis_fn;
  step_2D : basis_fn;
  gauss_lim_2D : basis_fn;
  (** [utils.distribute_srcs_2D(X, Y, n_src, ext_x, ext_y, R_init)]:
      the source meshes and the radius *)
  distribute_srcs_2D : mat -> mat -> Qc -> Qc -> Qc -> Qc -> mat * mat * Qc;
  (** [utils.sparse_dist_table(R, dist_max, dt_len)] *)
  sparse_dist_table : Qc -> Qc -> nat -> vec;
  (** [utils.interpolate_dist_table(xs, probed_dist_table, dt_len)] *)
  interpolate_dist_table : vec -> vec -> nat -> vec
}.

(** Modelled from the spec: [utils.interpolate_dist_table] is not part of
    this file; it interpolates the sparse samples "to a dense table of fixed
    size dist_table_density". *)
Definition interpolate_law `{External} : Prop :=
  forall xs probed dt_len, length (interpolate_dist_table xs probed dt_len) = dt_len.

(** Modelled from the spec: [utils.distribute_srcs_2D] is not part of this
    file; the sources form "a regular 2D mesh of n_src basis-source centers
    (nsx x nsy)" and placement "must guarantee at least one basis source". *)
Definition distribute_law `{External} : Prop :=
  forall X Y n ex ey r0,
    let '(sx, sy, _) := distribute_srcs_2D X Y n ex ey r0 in
    has_shape (length sx) (ncols sx) sx /\
    has_shape (length sx) (ncols sx) sy /\
    concat sx <> [].

(** [np.linalg.inv] returns an array of the shape of its argument. *)
Definition linalg_inv_law `{External} : Prop :=
  forall A B, linalg_inv A = Some B -> has_shape (length A) (length A) B.

(** [np.logspace(-2, -25, 25)] holds 25 powers of ten, which are
    positive. *)
Definition logspace_law `{External} : Prop :=
  length (np_logspace (-2) (-25) 25) = 25%nat /\
  Forall (fun x => 0 < x) (np_logspace (-2) (-25) 25).

Section KCSD2D.

Context `{ext : External}.

(** Modelled from the spec: the registry [basis.basis_2D] of module
    [basis_functions], which is not part of this file; the registered shape
    names are 'gauss', 'step' and 'gauss_lim'. *)
Definition basis_2D : gmap string basis_fn :=
  <["gauss" := gauss_2D]> (<["step" := step_2D]> (<["gauss_lim" := gauss_lim_2D]> ∅)).

(** [scipy.spatial.distance.cdist(XA, XB, 'euclidean')] *)
Definition cdist (XA XB : mat) : mat :=
  map (fun a => map (fun b =>
         np_sqrt (sum (zip_with (fun x y => (x - y) * (x - y)) a b))) XB) XA.

(** [np.linalg.norm] of a 2-D array: the Frobenius norm. *)
Definition linalg_norm (A : mat) : Qc :=
  np_sqrt (sum (map (fun x => x * x) (concat A))).

(** An object on which no attribute has been assigned yet. *)
Definition new_object : kcsd :=
  Build_kcsd [] [] 0 0 None (VStr "") 0 0 0 0 0 0 0 0 0 0 0 0 0
    [] [] 0 0 0 None [] [] 0 0 0 0 0 [] [] [] [] [] [] [] [].

(** Modelled from the spec: the base class [CSD] is not part of this file.
    Its constructor stores the electrode positions and the potentials
    ("n_ele of them", "n_ele x n_time"), and [cv_error] starts as [None]. *)
Definition CSD_init (ele_pos0 pots0 : mat) : M unit :=
  assign (set_ele_pos ele_pos0);;
  assign (set_pots pots0);;
  assign (set_n_ele (length ele_pos0));;
  assign (set_n_time (ncols pots0));;
  assign (set_cv_error None).

(** [kwargs.get(key, default)] for a numeric option.  A string given for a
    numeric option is stored by the source and fails at its first use in
    arithmetic; here it fails when it is read. *)
Definition kwargs_num (kwargs : gmap string value) (key : string) (default : Qc)
  : M Qc :=
  match kwargs !! key with
  | None => ret default
  | Some (VNum q) => ret q
  | Some (VStr _) => raise TypeError
  end.

Definition parameters (kwargs : gmap string value) : M unit :=
  assign (set_src_type (default (VStr "gauss") (kwargs !! "src_type")));;
  v <- kwargs_num kwargs "sigma" 1;; assign (set_sigma v);;
  v <- kwargs_num kwargs "h" 1;; assign (set_h v);;
  v <- kwargs_num kwargs "n_src_init" (ofZ 1000);; assign (set_n_src_init v);;
  v <- kwargs_num kwargs "ext_x" 0;; assign (set_ext_x v);;
  v <- kwargs_num kwargs "ext_y" 0;; assign (set_ext_y v);;
  v <- kwargs_num kwargs "lambd" 0;; assign (set_lambd v);;
  v <- kwargs_num kwargs "R_init" (Q2Qc (23 # 100));; assign (set_R_init v);;
  (* If no estimate plane given, take electrode plane as estimate plane *)
  self <- get;;
  xs <- lift IndexError (col_at 0 (ele_pos self));;
  d <- lift ValueError (np_min xs);;
  v <- kwargs_num kwargs "xmin" d;; assign (set_xmin v);;
  xs <- lift IndexError (col_at 0 (ele_pos self));;
  d <- lift ValueError (np_max xs);;
  v <- kwargs_num kwargs "xmax" d;; assign (set_xmax v);;
  ys <- lift IndexError (col_at 1 (ele_pos self));;
  d <- lift ValueError (np_min ys);;
  v <- kwargs_num kwargs "ymin" d;; assign (set_ymin v);;
  ys <- lift IndexError (col_at 1 (ele_pos self));;
  d <- lift ValueError (np_max ys);;
  v <- kwargs_num kwargs "ymax" d;; assign (set_ymax v);;
  (* Space increment size in estimation *)
  self <- get;;
  v <- kwargs_num kwargs "gdx" (Q2Qc (1 # 100) * (xmax self - xmin self));;
  assign (set_gdx v);;
  v <- kwargs_num kwargs "gdy" (Q2Qc (1 # 100) * (ymax self - ymin self));;
  assign (set_gdy v).

Definition estimate_at : M unit :=
  self <- get;;
  (* Number of points where estimation is to be made. *)
  let nx := (xmax self - xmin self) / gdx self in
  let ny := (ymax self - ymin self) / gdy self in
  (* Making a mesh of points where estimation is to be made. *)
  let '(ex, ey) := mgrid (xmin self) (xmax self) nx (ymin self) (ymax self) ny in
  assign (set_estm_x ex);;
  assign (set_estm_y ey);;
  assign (set_n_estm (size ex));;
  assign (set_ngx (length (mgrid_axis (xmin self) (xmax self) nx)));;
  assign (set_ngy (length (mgrid_axis (ymin self) (ymax self) ny))).

Definition invalid_source_type : string :=
  "Invalid source_type for basis! available are:".

Definition place_basis : M unit :=
  self <- get;;
  (* If Valid basis source type passed? *)
  let source_type := src_type self in
  let found := match source_type with
               | VStr name => basis_2D !! name
               | VNum _ => None
               end in
  match found with
  | None => raise (Exception invalid_source_type)
  | Some f => assign (set_basis (Some f))
  end;;
  (* Mesh where the source basis are placed is at self.src_x *)
  let '(sx, sy, r) := distribute_srcs_2D (estm_x self) (estm_y self)
                        (n_src_init self) (ext_x self) (ext_y self)
                        (R_init self) in
  assign (set_src_x sx);; assign (set_src_y sy);; assign (set_R r);;
  (* Total diagonal distance of the area covered by the basis sources *)
  hi <- lift ValueError (np_max (concat sx));;
  lo <- lift ValueError (np_min (concat sx));;
  let Lx := hi - lo + r in
  hi <- lift ValueError (np_max (concat sy));;
  lo <- lift ValueError (np_min (concat sy));;
  let Ly := hi - lo + r in
  assign (set_dist_max (np_sqrt (Lx * Lx + Ly * Ly)));;
  assign (set_n_src (size sx));;
  assign (set_nsx (length sx));; assign (set_nsy (ncols sx)).

(** [self.basis]: bound by [place_basis]. *)
Definition get_basis : M basis_fn :=
  self <- get;; lift (AttributeError "basis") (basis self).

(** FWD model function: contribution of the point [(xp, yp)] of a basis
    source centred at the origin to the potential measured at [(x, 0)]. *)
Definition int_pot_2D (xp yp x R0 h0 : Qc) (basis_func : basis_fn) : Qc :=
  let y := np_sqrt ((x - xp) * (x - xp) + yp * yp) in
  let y := if bool_decide (y < Q2Qc (1 # 100000)) then Q2Qc (1 # 100000) else y in
  let pot := np_arcsinh (h0 / y) in
  pot * basis_func xp yp (0, 0) R0.

(** FWD model: the potential at [(x, 0)] of a basis source at the origin. *)
Definition forward_model (x R0 h0 sigma0 : Qc) (src : basis_fn) : Qc :=
  let '(pot, err) := dblquad (fun xp yp => int_pot_2D xp yp x R0 h0 src)
                       (- R0) R0 (fun _ => - R0) (fun _ => R0) in
  pot * (1 / (ofZ 2 * np_pi * sigma0)).

Definition create_lookup (dist_table_density : nat) : M unit :=
  let dt_len := dist_table_density in
  self <- get;;
  (* Find pots at sparse points *)
  let xs := sparse_dist_table (R self) (dist_max self) dt_len in
  dist_table0 <- for_map xs (fun x =>
    let pos := (x / ofnat dt_len) * dist_max self in
    f <- get_basis;;
    ret (forward_model pos (R self) (h self) (sigma self) f));;
  assign (set_dist_table (interpolate_dist_table xs dist_table0 dt_len)).

(** The dense table is indexed by the rounded, scaled distance. *)
Definition table_index (dt_len : nat) (dmax dist : Qc) : Z :=
  let indices := np_uint16 (np_round (ofnat dt_len * dist / dmax)) in
  Z.max 0 (Z.min indices (Z.of_nat dt_len - 1)).

(** Fetches one value from the look up table. *)
Definition lookup (table : vec) (dmax dist : Qc) : option Qc :=
  table !! Z.to_nat (table_index (length table) dmax dist).

(** Fetches values from the look up table, entry by entry of a 2-D array
    of distances. *)
Definition generated_potential (dist : mat) : M mat :=
  self <- get;;
  lift IndexError
    (mapM (fun row : vec => mapM (lookup (dist_table self) (dist_max self)) row)
          dist).

(** In-place division of an array by the integer [n]. *)
Definition idiv (A : mat) (n : nat) : mat := map (map (fun a => a / ofnat n)) A.

Definition update_b_pot : M unit :=
  self <- get;;
  let src := zip_with (fun x y => [x; y]) (concat (src_x self)) (concat (src_y self)) in
  let dists := cdist src (ele_pos self) in
  b <- generated_potential dists;;
  assign (set_b_pot b);;
  (* K(x,x') Eq9,Jan2012 *)
  k <- lift ValueError (dot_mm (transpose b) b);;
  assign (set_k_pot k);;
  self <- get;;
  assign (set_k_pot (idiv (k_pot self) (n_src self))).

Definition update_b_src : M unit :=
  self <- get;;
  columns <- for_map (seq 0 (n_src self)) (fun i =>
    (* getting the coordinates of the i-th source *)
    (if (i <? nsx self * nsy self)%nat then ret tt else raise ValueError);;
    let '(i_x, i_y) := unravel_index i (nsy self) in
    x_src <- lift IndexError (get2 (src_x self) i_x i_y);;
    y_src <- lift IndexError (get2 (src_y self) i_x i_y);;
    f <- get_basis;;
    ret (zip_with (fun x y => f x y (x_src, y_src) (R self))
                  (concat (estm_x self)) (concat (estm_y self))));;
  (* the array of shape (n_estm, n_src) whose i-th column is [columns[i]] *)
  let b := map (fun p => map (fun c : vec => nth p c 0) columns)
               (seq 0 (n_estm self)) in
  assign (set_b_src b);;
  (* K_t(x,y) Eq17 *)
  k <- lift ValueError (dot_mm b (b_pot self));;
  assign (set_k_interp_cross k);;
  self <- get;;
  assign (set_k_interp_cross (idiv (k_interp_cross self) (n_src self))).

Definition update_b_interp_pot : M unit :=
  self <- get;;
  let src_loc := zip_with (fun x y => [x; y])
                   (concat (src_x self)) (concat (src_y self)) in
  let est_loc := zip_with (fun x y => [x; y])
                   (concat (estm_x self)) (concat (estm_y self)) in
  let dists := cdist src_loc est_loc in
  b <- generated_potential dists;;
  assign (set_b_interp_pot (transpose b));;
  self <- get;;
  k <- lift ValueError (dot_mm (b_interp_pot self) (b_pot self));;
  assign (set_k_interp_pot k);;
  self <- get;;
  assign (set_k_interp_pot (idiv (k_interp_pot self) (n_src self))).

(** Actual sequence of methods called for KCSD. *)
Definition method : M unit :=
  create_lookup 100;;     (* Look up table; [dist_table_density] defaults to 100 *)
  update_b_pot;;          (* update kernel *)
  update_b_src;;          (* update crskernel *)
  update_b_interp_pot.    (* update pot interp *)

(** [KCSD2D.__init__(ele_pos, pots, **kwargs)] on a fresh object. *)
Definition init (ele_pos0 pots0 : mat) (kwargs : gmap string value) : M unit :=
  CSD_init ele_pos0 pots0;;
  parameters kwargs;;
  estimate_at;;
  place_basis;;
  method.

Definition invalid_quantity : string :=
  "Invalid quantity to be measured, pass either CSD or POT".

(** Computes the values of the quantity of interest. *)
Definition values (estimate : string) : M retval :=
  self <- get;;
  estimation_table <-
    (if bool_decide (estimate = "CSD") then ret (Some (k_interp_cross self))
     else if bool_decide (estimate = "POT") then ret (Some (k_interp_pot self))
     else print invalid_quantity [];; ret None);;
  reg <- lift ValueError
           (add_mm (k_pot self)
                   (mat_scale (lambd self) (identity (length (k_pot self)))));;
  k_inv <- lift LinAlgError (linalg_inv reg);;
  estimation <-
    for_fold (seq 0 (n_time self)) (zeros2 (n_estm self) (n_time self))
      (fun estimation t =>
         pots_t <- lift IndexError (col_at t (pots self));;
         beta <- lift ValueError (dot_mv k_inv pots_t);;
         for_fold (seq 0 (n_ele self)) estimation
           (fun estimation i =>
              table <- lift (UnboundLocalError "estimation_table") estimation_table;;
              c <- lift IndexError (col_at i table);;
              b <- lift IndexError (beta !! i);;
              (* C*(x) Eq 18 *)
              lift ValueError (col_iadd t (map (fun x => x * b) c) estimation)));;
  r <- lift ValueError (reshape3 (ngx self) (ngy self) (n_time self) estimation);;
  ret (RArr3 r).

(** Used in Cross validation. *)
Definition update_R (R0 : Qc) : M unit :=
  assign (set_R R0);;
  self <- get;;
  hi <- lift ValueError (np_max (concat (src_x self)));;
  lo <- lift ValueError (np_min (concat (src_x self)));;
  let Lx := hi - lo + R self in
  hi <- lift ValueError (np_max (concat (src_y self)));;
  lo <- lift ValueError (np_min (concat (src_y self)));;
  let Ly := hi - lo + R self in
  assign (set_dist_max (np_sqrt (Lx * Lx + Ly * Ly)));;
  method.

(** Used in Cross validation. *)
Definition update_lambda (lambd0 : Qc) : M unit :=
  assign (set_lambd lambd0).

Definition singular_matrix : string :=
  "Encoutered Singular Matrix Error: try changing ele_pos".

(** The penalty recorded when the training kernel cannot be inverted. *)
Definition sentinel : Qc := ofZ 10000.

(** One pass of the loop body of [compute_cverror]: the fold
    [(idx_train, idx_test)] takes the running error [err] to its next value. *)
Definition cverror_fold (lambd0 : Qc) (err : Qc) (fold : list nat * list nat)
  : M Qc :=
  let '(idx_train, idx_test) := fold in
  self <- get;;
  B_train <- lift IndexError (ix_ idx_train idx_train (k_pot self));;
  V_train <- lift IndexError (take_rows idx_train (pots self));;
  V_test <- lift IndexError (take_rows idx_test (pots self));;
  let I_matrix := identity (length idx_train) in
  B_new <- lift ValueError (add_mm B_train (mat_scale lambd0 I_matrix));;
  try_except_LinAlgError
    (B_inv <- lift LinAlgError (linalg_inv B_new);;
     beta_new <- lift ValueError (dot_mm B_inv V_train);;
     B_test <- lift IndexError (ix_ idx_test idx_train (k_pot self));;
     V_est <-
       for_fold (seq 0 (length idx_train))
         (zeros2 (length idx_test) (ncols (pots self)))
         (fun V_est ii =>
            for_fold (seq 0 (ncols (pots self))) V_est
              (fun V_est tt =>
                 b <- lift IndexError (get2 beta_new ii tt);;
                 c <- lift IndexError (col_at ii B_test);;
                 lift ValueError (col_iadd tt (map (fun x => b * x) c) V_est)));;
     diff <- lift ValueError (sub_mm V_est V_test);;
     ret (err + linalg_norm diff))
    (print singular_matrix [];;
     ret sentinel (* singluar matrix errors! *)).

(** Useful for Cross validation error calculations. *)
Definition compute_cverror (lambd0 : Qc) (index_generator : list (list nat * list nat))
  : M Qc :=
  for_fold index_generator 0 (cverror_fold lambd0).

(** [l.remove(x)] on a list that holds [x]: drops its first occurrence. *)
Fixpoint list_remove_first (x : nat) (l : list nat) : list nat :=
  match l with
  | [] => []
  | y :: l' => if (x =? y)%nat then l' else y :: list_remove_first x l'
  end.

(** Leave one out: the folds of [cross_validate]. *)
Definition leave_one_out (n : nat) : list (list nat * list nat) :=
  map (fun ii => (list_remove_first ii (seq 0 n), [ii])) (seq 0 n).

(** [np.where(errs == m)]: the row indices and the column indices of the
    entries equal to [m], in row-major order. *)
Definition where_eq (errs : mat) (m : Qc) : list nat * list nat :=
  let hits :=
    concat (imap (fun i (row : vec) =>
                    omap (fun jx : nat * Qc =>
                            if bool_decide (jx.2 = m) then Some (i, jx.1) else None)
                         (imap pair row)) errs) in
  (map fst hits, map snd hits).

Definition lambdas_or_default (lambdas : option vec) : vec :=
  if negb (np_any lambdas)                       (* when None *)
  then np_logspace (-2) (-25) 25                 (* Default multiple lambda *)
  else default [] lambdas.

Definition Rs_or_default (Rs : option vec) (self : kcsd) : vec :=
  if negb (np_any Rs)                            (* when None *)
  then [R self]                                  (* Default over one R value *)
  else default [] Rs.

(** The search of [cross_validate]: the table [errs], filled row by row. *)
Definition cv_errors (Rs lambdas : vec) (index_generator : list (list nat * list nat))
  : M mat :=
  for_map Rs (fun R0 =>                          (* Iterate over R *)
    update_R R0;;
    print "Cross validating R (all lambda) :" [R0];;
    for_map lambdas (fun lambd0 =>               (* Iterate over lambdas *)
      compute_cverror lambd0 index_generator)).

(** Method defines the cross validation. *)
Definition cross_validate (lambdas Rs : option vec) : M retval :=
  let lambdas := lambdas_or_default lambdas in
  self <- get;;
  let Rs := Rs_or_default Rs self in
  let index_generator := leave_one_out (n_ele self) in
  errs <- cv_errors Rs lambdas index_generator;;
  m <- lift ValueError (np_min (concat errs));;
  let err_idx := where_eq errs m in            (* Index of the least error *)
  (* First occurance of the least error's *)
  cv_R <- lift IndexError (head err_idx.1 ≫= fun i => Rs !! i);;
  cv_lambda <- lift IndexError (head err_idx.2 ≫= fun j => lambdas !! j);;
  assign (set_cv_error (Some m));;             (* otherwise is None *)
  update_R cv_R;;                              (* Update solver *)
  update_lambda cv_lambda;;
  print "R, lambda :" [cv_R; cv_lambda];;
  ret (RTuple [cv_R; cv_lambda]).

End KCSD2D.

(** ** Definitions used to state the properties *)

(** [A[:, t] += v] on arrays of matching shape. *)
Definition col_add (t : nat) (v : vec) (A : mat) : mat :=
  zip_with (fun (row : vec) x => alter (fun a => a + x) t row) A v.

(** The array whose column [t] is [cross . (k_inv . pots[:, t])]. *)
Definition estimate_matrix (cross k_inv pots0 : mat) (T : nat) : mat :=
  map (fun row : vec =>
         map (fun t => dot row (mat_vec k_inv (col t pots0))) (seq 0 T)) cross.

(** The array with entries [g i j]. *)
Definition tab (r c : nat) (g : nat -> nat -> Qc) : mat :=
  map (fun i => map (fun j => g i j) (seq 0 c)) (seq 0 r).

(** The array [b_pot] that [update_b_pot] builds: the looked-up potential
    at the distance between every source and every electrode. *)
Definition b_pot_of `{External} (self : kcsd) : mat :=
  map (map (fun d => default 0 (lookup (dist_table self) (dist_max self) d)))
      (cdist (zip_with (fun x y => [x; y]) (concat (src_x self)) (concat (src_y self)))
             (ele_pos self)).

(** The cross kernel that belongs to a quantity tag. *)
Definition cross_kernel (estimate : string) (self : kcsd) : option mat :=
  if bool_decide (estimate = "CSD"%string) then Some (k_interp_cross self)
  else if bool_decide (estimate = "POT"%string) then Some (k_interp_pot self)
  else None.

(** [k_pot + lambd * I] *)
Definition regularised (self : kcsd) : mat :=
  mat_add (k_pot self) (mat_scale (lambd self) (identity (n_ele self))).

(** The kernel matrices are assembled: every array has the shape the
    constructor gives it. *)
Definition assembled (self : kcsd) : bool :=
  has_shapeb (n_ele self) (n_ele self) (k_pot self)
  && has_shapeb (n_ele self) (n_time self) (pots self)
  && has_shapeb (n_estm self) (n_ele self) (k_interp_cross self)
  && has_shapeb (n_estm self) (n_ele self) (k_interp_pot self)
  && (n_estm self =? ngx self * ngy self)%nat.

(** The shape names the registry holds. *)
Definition registered : list string := ["gauss"; "step"; "gauss_lim"]%string.

(** The index the specification gives for a distance: the rounded scaled
    distance, clamped to the table. *)
Definition clamped_index (dt_len : nat) (dmax dist : Qc) : Z :=
  Z.max 0 (Z.min (np_round (ofnat dt_len * dist / dmax)) (Z.of_nat dt_len - 1)).

(** What the constructor establishes and the kernel assembly relies on:
    the basis function is bound, the source meshes are [nsx] by [nsy] with
    [n_src = nsx * nsy > 0], and there are [n_ele] electrode positions and
    [n_ele] rows of potentials. *)
Definition constructed (self : kcsd) : bool :=
  match basis self with Some _ => true | None => false end
  && has_shapeb (nsx self) (nsy self) (src_x self)
  && has_shapeb (nsx self) (nsy self) (src_y self)
  && (n_src self =? nsx self * nsy self)%nat
  && (0 <? n_src self)%nat
  && (length (ele_pos self) =? n_ele self)%nat
  && has_shapeb (n_ele self) (ncols (pots self)) (pots self).

(** The attributes [constructed] reads. *)
Definition placement (self : kcsd) :=
  (basis self, src_x self, src_y self, nsx self, nsy self, n_src self,
   ele_pos self, n_ele self, pots self).

(** The estimation grid as [estimate_at] leaves it. *)
Definition gridded (self : kcsd) : Prop :=
  size (estm_x self) = n_estm self /\ size (estm_y self) = n_estm self /\
  n_estm self = (ngx self * ngy self)%nat.

(** Everything the kernel assembly reads but does not assign. *)
Definition inputs (self : kcsd) :=
  (placement self, n_time self, estm_x self, estm_y self,
   n_estm self, ngx self, ngy self).

(** What [method] assigns: the look up table and the kernel matrices. *)
Definition kernels (self : kcsd) :=
  (dist_table self, b_pot self, k_pot self, b_src self, k_interp_cross self,
   b_interp_pot self, k_interp_pot self).

(** [m] never changes the attribute (or projection) [f] of [self],
    whether it returns or raises. *)
Definition preserves {A X} (f : kcsd -> X) (m : M A) : Prop :=
  forall self r self', m self = (r, self') -> f self' = f self.

(** ** Definitions used to state further properties *)

(** [A[np.ix_(rows, cols)]] on indices inside [A]. *)
Definition submatrix (rows cols : list nat) (A : mat) : mat :=
  map (fun i => map (fun j => nth j (nth i A []) 0) cols) rows.

(** [A[idx]] on indices inside [A]. *)
Definition rows_of (idx : list nat) (A : mat) : mat := map (fun i => nth i A []) idx.

Definition mat_sub (A B : mat) : mat := zip_with (zip_with Qcminus) A B.

(** [B_test . beta_new] as the loops of [compute_cverror] build it: one row
    per test electrode, one column per time sample. *)
Definition predicted (B_test beta_new : mat) (T : nat) : mat :=
  map (fun trow : vec => map (fun tt => dot trow (col tt beta_new)) (seq 0 T)) B_test.

(** The error of one fold: the norm of [B_test . (B_new^-1 . V_train) - V_test];
    [None] when [B_new = B_train + lambd I] has no inverse. *)
Definition fold_error `{External} (lambd0 : Qc) (self : kcsd) (fold : list nat * list nat)
  : option Qc :=
  let '(idx_train, idx_test) := fold in
  let B_new := mat_add (submatrix idx_train idx_train (k_pot self))
                       (mat_scale lambd0 (identity (length idx_train))) in
  match linalg_inv B_new with
  | Some B_inv =>
      let beta_new := mat_mul B_inv (rows_of idx_train (pots self)) in
      let V_est := predicted (submatrix idx_test idx_train (k_pot self)) beta_new
                             (ncols (pots self)) in
      Some (linalg_norm (mat_sub V_est (rows_of idx_test (pots self))))
  | None => None
  end.

(** The running error after one more fold. *)
Definition next_error (err : Qc) (e : option Qc) : Qc :=
  match e with Some x => err + x | None => sentinel end.

(** What a fold prints: one line when its training kernel is singular. *)
Definition fold_output (e : option Qc) (self : kcsd) : kcsd :=
  match e with
  | Some _ => self
  | None => set_stdout (stdout self ++ [(singular_matrix, [])]) self
  end.

Definition is_singular (e : option Qc) : bool :=
  match e with Some _ => false | None => true end.

(** Index lists inside an array of [n] rows. *)
Definition in_range (n : nat) (fold : list nat * list nat) : Prop :=
  Forall (fun i => (i < n)%nat) fold.1 /\ Forall (fun i => (i < n)%nat) fold.2.

(** [x ** 0.5] is never negative. *)
Definition sqrt_law `{External} : Prop := forall x : Qc, 0 <= np_sqrt x.

(** The keywords [parameters] reads. *)
Definition option_names : list string :=
  ["src_type"; "sigma"; "h"; "n_src_init"; "ext_x"; "ext_y"; "lambd"; "R_init";
   "xmin"; "xmax"; "ymin"; "ymax"; "gdx"; "gdy"]%string.

(** Everything but the printed text. *)
Definition silent (self : kcsd) : kcsd := set_stdout [] self.

(** The source positions, flattened in C order: row [i] is source [i]. *)
Definition sources (self : kcsd) : mat :=
  zip_with (fun x y => [x; y]) (concat (src_x self)) (concat (src_y self)).

(** The estimation points, flattened in C order. *)
Definition points (self : kcsd) : mat :=
  zip_with (fun x y => [x; y]) (concat (estm_x self)) (concat (estm_y self)).

(** The array [b_src] that [update_b_src] builds: the basis function
    centred on source [i], at estimation point [p]. *)
Definition b_src_of (f : basis_fn) (self : kcsd) : mat :=
  tab (n_estm self) (n_src self)
      (fun p i => f (nth p (concat (estm_x self)) 0) (nth p (concat (estm_y self)) 0)
                    (nth i (concat (src_x self)) 0, nth i (concat (src_y self)) 0)
                    (R self)).

(** The look up table [create_lookup] builds with the basis function [f]. *)
Definition dist_table_of `{External} (k : nat) (f : basis_fn) (self : kcsd) : vec :=
  let xs := sparse_dist_table (R self) (dist_max self) k in
  interpolate_dist_table xs
    (map (fun x => forward_model (x / ofnat k * dist_max self)
                                 (R self) (h self) (sigma self) f) xs) k.

(** The array [b_interp_pot] that [update_b_interp_pot] builds. *)
Definition b_interp_pot_of `{External} (self : kcsd) : mat :=
  transpose
    (map (map (fun d => default 0 (lookup (dist_table self) (dist_max self) d)))
         (cdist (sources self) (points self))).

(** The four steps of [method] as attribute updates: what each step leaves
    when it returns. *)
Definition with_lookup `{External} (k : nat) (f : basis_fn) (self : kcsd) : kcsd :=
  set_dist_table (dist_table_of k f self) self.

Definition with_b_pot `{External} (self : kcsd) : kcsd :=
  let B := b_pot_of self in
  set_k_pot (idiv (mat_mul (transpose B) B) (n_src self))
    (set_k_pot (mat_mul (transpose B) B) (set_b_pot B self)).

Definition with_b_src (f : basis_fn) (self : kcsd) : kcsd :=
  let b := b_src_of f self in
  set_k_interp_cross (idiv (mat_mul b (b_pot self)) (n_src self))
    (set_k_interp_cross (mat_mul b (b_pot self)) (set_b_src b self)).

Definition with_b_interp_pot `{External} (self : kcsd) : kcsd :=
  let b := b_interp_pot_of self in
  set_k_interp_pot (idiv (mat_mul b (b_pot self)) (n_src self))
    (set_k_interp_pot (mat_mul b (b_pot self)) (set_b_interp_pot b self)).

Definition assemble `{External} (f : basis_fn) (self : kcsd) : kcsd :=
  with_b_interp_pot (with_b_src f (with_b_pot (with_lookup 100 f self))).

(** The state [method] can run in: constructed, with meshes of [n_estm]
    points. *)
Definition ready (self : kcsd) : Prop :=
  constructed self = true /\
  size (estm_x self) = n_estm self /\ size (estm_y self) = n_estm self.

(** [np.max(A) - np.min(A)] *)
Definition span (A : mat) : Qc :=
  default 0 (np_max (concat A)) - default 0 (np_min (concat A)).

(** The diagonal of the area covered by the basis sources, for radius [R0]. *)
Definition dist_max_of `{External} (R0 : Qc) (self : kcsd) : Qc :=
  let Lx := span (src_x self) + R0 in
  let Ly := span (src_y self) + R0 in
  np_sqrt (Lx * Lx + Ly * Ly).

(** What [update_R] leaves when it returns. *)
Definition with_R `{External} (f : basis_fn) (R0 : Qc) (self : kcsd) : kcsd :=
  assemble f (set_dist_max (dist_max_of R0 self) (set_R R0 self)).

(** The options [parameters] stores, [lambd] apart.  [lambd] is the one
    option that is assigned again after the constructor, by
    [update_lambda]; the others are only read. *)
Definition settings (self : kcsd) :=
  (src_type self, sigma self, h self, n_src_init self, ext_x self, ext_y self,
   R_init self, xmin self, xmax self, ymin self, ymax self, gdx self, gdy self).

(** What the kernel assembly needs of the object it runs on. *)
Definition well_formed (self : kcsd) : Prop :=
  constructed self = true /\ gridded self /\
  has_shape (n_ele self) (n_time self) (pots self).

(** ** Reference numerics

    Rational stand-ins for the routines of [External], so that the model
    runs on concrete inputs.  The properties below hold for every
    [External]; this instance only serves to evaluate examples. *)

Module Reference.

(** Gauss-Jordan elimination on the rows of [A | I]. *)
Fixpoint find_pivot (k : nat) (rows : mat) : option (vec * mat) :=
  match rows with
  | [] => None
  | r :: rs =>
      if bool_decide (nth k r 0 = 0)
      then match find_pivot k rs with
           | Some (p, rest) => Some (p, r :: rest)
           | None => None
           end
      else Some (r, rs)
  end.

Definition eliminate (k : nat) (p r : vec) : vec :=
  zip_with (fun a b => a - nth k r 0 * b) r p.

Fixpoint gauss_jordan (ks : list nat) (done todo : mat) : option mat :=
  match ks with
  | [] => Some done
  | k :: ks' =>
      match find_pivot k todo with
      | None => None
      | Some (p, rest) =>
          let p' := vscale (/ nth k p 0) p in
          gauss_jordan ks' (map (eliminate k p') done ++ [p'])
                       (map (eliminate k p') rest)
      end
  end.

(** The inverse of a square array, [None] when it is singular or not
    square. *)
Definition inv (A : mat) : option mat :=
  let n := length A in
  if has_shapeb n n A
  then match gauss_jordan (seq 0 n) [] (zip_with app A (identity n)) with
       | Some rows => Some (map (drop n) rows)
       | None => None
       end
  else None.

(** Square root: exact on squares of rationals, else to six decimals. *)
Definition sqrt (q : Qc) : Qc :=
  let n := Qnum q in
  let d := Zpos (Qden q) in
  if (n <=? 0)%Z then 0
  else if ((Z.sqrt n * Z.sqrt n =? n) && (Z.sqrt d * Z.sqrt d =? d))%Z
       then ofZ (Z.sqrt n) / ofZ (Z.sqrt d)
       else ofZ (Z.sqrt (n * 10 ^ 12 / d)) / ofZ (10 ^ 6).

Definition pi : Qc := Q2Qc (355 # 113).

(** [arcsinh x = x - x^3/6 + ...]; the leading term. *)
Definition arcsinh (x : Qc) : Qc := x.

Definition pow10 (e : Z) : Qc :=
  if (0 <=? e)%Z then ofZ (10 ^ e) else / ofZ (10 ^ (- e)).

(** [num] powers of ten with exponents evenly spaced from [start] to
    [stop]; between integer exponents the power is interpolated. *)
Definition logspace (start stop : Z) (num : nat) : vec :=
  map (fun i =>
         let e := ofZ start + ofnat i * (ofZ stop - ofZ start) / (ofnat num - 1) in
         let f := Qfloor e in
         pow10 f * (1 + ofZ 9 * (e - ofZ f)))
      (seq 0 num).

(** One midpoint sample of the integrand. *)
Definition midpoint (f : Qc -> Qc -> Qc) (a b : Qc) (g k : Qc -> Qc) : Qc * Qc :=
  let x := (a + b) / ofZ 2 in
  let y := (g x + k x) / ofZ 2 in
  (f y x * (b - a) * (k x - g x), 0).

Definition sq_dist (x y : Qc) (mu : Qc * Qc) : Qc :=
  (x - mu.1) * (x - mu.1) + (y - mu.2) * (y - mu.2).

Definition step (x y : Qc) (mu : Qc * Qc) (R0 : Qc) : Qc :=
  if bool_decide (sq_dist x y mu <= R0 * R0) then 1 else 0.

(** A bump [1 / (1 + t + t^2/2)] in place of [exp(-t)]. *)
Definition gauss (x y : Qc) (mu : Qc * Qc) (three_stdev : Qc) : Qc :=
  let stdev := three_stdev / ofZ 3 in
  let t := sq_dist x y mu / (ofZ 2 * stdev * stdev) in
  stdev / (ofZ 2 * pi) / (1 + t + t * t / ofZ 2).

Definition gauss_lim (x y : Qc) (mu : Qc * Qc) (three_stdev : Qc) : Qc :=
  if bool_decide (sq_dist x y mu < three_stdev * three_stdev)
  then gauss x y mu three_stdev else 0.

(** Sources on the corners of the estimation box, extended by [ext]. *)
Definition distribute (X Y : mat) (n : Qc) (ext_x0 ext_y0 R0 : Qc)
  : mat * mat * Qc :=
  let x0 := default 0 (np_min (concat X)) - ext_x0 in
  let x1 := default 0 (np_max (concat X)) + ext_x0 in
  let y0 := default 0 (np_min (concat Y)) - ext_y0 in
  let y1 := default 0 (np_max (concat Y)) + ext_y0 in
  ([[x0; x0]; [x1; x1]], [[y0; y1]; [y0; y1]], R0).

(** Every tenth index, and one past the end of the table. *)
Definition sparse (R0 dmax : Qc) (dt_len : nat) : vec :=
  map (fun i => ofnat (10 * i)) (seq 0 (dt_len / 10 + 1)) ++ [ofnat (dt_len + 1)].

(** Piecewise linear interpolation through the points [(xs, ys)]. *)
Fixpoint interp1 (pts : list (Qc * Qc)) (x : Qc) : Qc :=
  match pts with
  | [] => 0
  | (x0, y0) :: rest =>
      match rest with
      | [] => y0
      | (x1, y1) :: _ =>
          if bool_decide (x <= x1)
          then y0 + (y1 - y0) * (x - x0) / (x1 - x0)
          else interp1 rest x
      end
  end.

Definition interpolate (xs ys : vec) (dt_len : nat) : vec :=
  map (fun i => interp1 (zip xs ys) (ofnat i)) (seq 0 dt_len).

Definition numerics : External :=
  {| linalg_inv := inv;
     np_sqrt := sqrt;
     np_pi := pi;
     np_arcsinh := arcsinh;
     np_logspace := logspace;
     dblquad := midpoint;
     gauss_2D := gauss;
     step_2D := step;
     gauss_lim_2D := gauss_lim;
     distribute_srcs_2D := distribute;
     sparse_dist_table := sparse;
     interpolate_dist_table := interpolate |}.

End Reference.

(** ** Example configurations *)

Module Examples.

Definition q (a : Z) (b : positive) : Qc := Q2Qc (a # b).

(** Two electrodes, two time samples, a grid of 1 x 2 points, with
    kernel matrices written out. *)
Definition small : kcsd :=
  set_k_pot [[ofZ 2; 1]; [1; ofZ 2]]
    (set_k_interp_cross [[1; 0]; [1; 1]]
       (set_k_interp_pot [[ofZ 2; 1]; [0; ofZ 3]]
          (set_pots [[1; ofZ 2]; [ofZ 3; ofZ 4]]
             (set_lambd 1
                (set_n_ele 2 (set_n_time 2
                   (set_n_estm 2 (set_ngx 1 (set_ngy 2 new_object))))))))).

(** [(k_pot + lambd I)^-1] of [small]. *)
Definition small_k_inv : mat := [[q 3 8; q (-1) 8]; [q (-1) 8; q 3 8]].

(** A table of 100 buckets whose bucket [i] holds the value [i], for
    distances up to [dist_max = 1]. *)
Definition ramp : kcsd :=
  set_dist_max 1 (set_dist_table (map ofnat (seq 0 100)) new_object).

(** Three electrodes with one time sample each. *)
Definition ele3 : mat := [[0; 0]; [0; 1]; [1; 0]].
Definition pots3 : mat := [[- (1)]; [1]; [ofZ 2]].

(** Keyword arguments: a coarse grid, step-shaped sources, [lambd = 1]. *)
Definition kwargs3 : gmap string value :=
  <["gdx" := VNum (q 1 2)]> (<["gdy" := VNum (q 1 2)]>
    (<["src_type" := VStr "step"]> (<["lambd" := VNum 1]> ∅))).

(** The object after [CSD.__init__], [parameters] and [estimate_at]. *)
Definition before_placement : kcsd :=
  ((CSD_init ele3 pots3;; parameters kwargs3;; estimate_at) new_object).2.

(** The object [KCSD2D(ele3, pots3, **kwargs3)] with the reference
    numerics. *)
Definition built : kcsd :=
  (@init Reference.numerics ele3 pots3 kwargs3 new_object).2.

(** The same electrodes with equal potentials, and the object
    [KCSD2D(ele3, pots_level, **kwargs3)]. *)
Definition pots_level : mat := [[1]; [1]; [1]].

Definition built_level : kcsd :=
  (@init Reference.numerics ele3 pots_level kwargs3 new_object).2.

(** [(k_pot + lambd I)^-1] of [built], by the reference numerics. *)
Definition built_k_inv : mat :=
  default [] (@linalg_inv Reference.numerics (regularised built)).

(** Three electrodes of which the first and the last coincide: rows 0 and
    2 of [k_pot] are equal.  One time sample, [lambd = 0]. *)
Definition coincident : kcsd :=
  set_k_pot [[1; 0; 1]; [0; 1; 0]; [1; 0; 1]]
    (set_pots [[1]; [ofZ 2]; [ofZ 4]]
       (set_n_ele 3 (set_n_time 1 (set_lambd 0 new_object)))).

(** Sources on the unit square, the electrodes [ele3], and the table
    [ramp]. *)
Definition placed : kcsd :=
  set_src_x [[0; 0]; [1; 1]]
    (set_src_y [[0; 1]; [0; 1]]
       (set_n_src 4 (set_ele_pos ele3 (set_n_ele 3 (set_dist_max (ofZ 3) ramp))))).

(** [small] without time samples. *)
Definition no_samples : kcsd := set_pots [[]; []] (set_n_time 0 small).

(** The object on which the constructor calls [method], and the object
    after the first two steps of [method], with the reference numerics. *)
Definition before_method : kcsd :=
  ((CSD_init ele3 pots3;; parameters kwargs3;; estimate_at;;
    @place_basis Reference.numerics) new_object).2.

Definition with_pot : kcsd :=
  ((@create_lookup Reference.numerics 100;; @update_b_pot Reference.numerics)
     before_method).2.

End Examples.

(** * Properties *)

(** Equalities between closed terms over [Qc] are decided by evaluation. *)
Ltac by_eval := apply (bool_decide_unpack _); vm_compute; exact I.

(** ** Running a method *)

Lemma bind_Ok {A B} (m : M A) (k : A -> M B) self a self' :
  m self = (Ok a, self') -> (x <- m;; k x) self = k a self'.
Proof. intros H. unfold bind. by rewrite H. Qed.

Lemma bind_Raise {A B} (m : M A) (k : A -> M B) self e self' :
  m self = (Raise e, self') -> (x <- m;; k x) self = (Raise e, self').
Proof. intros H. unfold bind. by rewrite H. Qed.

Lemma bind_get {B} (k : kcsd -> M B) self : (x <- get;; k x) self = k self self.
Proof. done. Qed.

Lemma bind_assign {B} (f : kcsd -> kcsd) (k : unit -> M B) self :
  (x <- assign f;; k x) self = k tt (f self).
Proof. done. Qed.

Lemma bind_lift_Some {A B} e (a : A) (k : A -> M B) self :
  (x <- lift e (Some a);; k x) self = k a self.
Proof. done. Qed.

Lemma bind_lift_None {A B} e (k : A -> M B) self :
  (x <- lift e None;; k x) self = (Raise e, self).
Proof. done. Qed.

Lemma for_fold_pure {A B} (P : B -> Prop) (f : B -> A -> B) (xs : list A)
      (body : B -> A -> M B) (self : kcsd) :
  (forall acc x, P acc -> x ∈ xs -> body acc x self = (Ok (f acc x), self) /\ P (f acc x)) ->
  forall acc, P acc -> for_fold xs acc body self = (Ok (foldl f acc xs), self) /\ P (foldl f acc xs).
Proof.
  induction xs as [|x xs IH]; intros Hb acc Hacc; simpl.
  - done.
  - unfold bind. destruct (Hb acc x Hacc) as [-> HP]; [left|].
    apply IH; [|done]. intros acc' x' HP' Hx'. apply Hb; [done | by right].
Qed.


(** ** Attributes a method leaves alone *)

Lemma bind_inv_Ok {A B} (m : M A) (k : A -> M B) self b self'' :
  (x <- m;; k x) self = (Ok b, self'') ->
  exists a self', m self = (Ok a, self') /\ k a self' = (Ok b, self'').
Proof.
  unfold bind. destruct (m self) as [[a|e] self'] eqn:Hm; intros H; [eauto | done].
Qed.

Section Preserves.
Context {X : Type} (f : kcsd -> X).

Lemma preserves_ret {A} (a : A) : preserves f (ret a).
Proof. intros self r self' H. by inversion H. Qed.

Lemma preserves_raise {A} e : preserves f (@raise A e).
Proof. intros self r self' H. by inversion H. Qed.

Lemma preserves_get : preserves f get.
Proof. intros self r self' H. by inversion H. Qed.

Lemma preserves_lift {A} e (o : option A) : preserves f (lift e o).
Proof. destruct o; [apply preserves_ret | apply preserves_raise]. Qed.

Lemma preserves_assign (g : kcsd -> kcsd) :
  (forall self, f (g self) = f self) -> preserves f (assign g).
Proof. intros Hg self r self' H. inversion H. apply Hg. Qed.

Lemma preserves_bind {A B} (m : M A) (k : A -> M B) :
  preserves f m -> (forall a, preserves f (k a)) -> preserves f (x <- m;; k x).
Proof.
  intros Hm Hk self r self'' H. unfold bind in H.
  destruct (m self) as [[a|e] self'] eqn:Hrun.
  - rewrite (Hk a _ _ _ H). eapply Hm; eauto.
  - inversion H; subst. eapply Hm; eauto.
Qed.

Lemma preserves_try {A} (body handler : M A) :
  preserves f body -> preserves f handler ->
  preserves f (try_except_LinAlgError body handler).
Proof.
  intros Hb Hh self r self'' H. unfold try_except_LinAlgError in H.
  destruct (body self) as [[a|e] self'] eqn:Hrun.
  - inversion H; subst. eapply Hb; eauto.
  - destruct e;
      first [ by (inversion H; subst; eapply Hb; eauto)
            | by (rewrite (Hh _ _ _ H); eapply Hb; eauto) ].
Qed.

Lemma preserves_for_fold {A B} (xs : list A) (body : B -> A -> M B) :
  (forall acc x, preserves f (body acc x)) ->
  forall acc, preserves f (for_fold xs acc body).
Proof.
  intros Hb. induction xs as [|x xs IH]; intros acc; simpl.
  - apply preserves_ret.
  - apply preserves_bind; auto.
Qed.

Lemma preserves_for_map {A B} (xs : list A) (g : A -> M B) :
  (forall x, preserves f (g x)) -> preserves f (for_map xs g).
Proof.
  intros Hg. induction xs as [|x xs IH]; simpl.
  - apply preserves_ret.
  - apply preserves_bind; [auto|]. intros y. apply preserves_bind; [auto|].
    intros ys. apply preserves_ret.
Qed.

Lemma preserves_if {A} (c : bool) (m1 m2 : M A) :
  preserves f m1 -> preserves f m2 -> preserves f (if c then m1 else m2).
Proof. by destruct c. Qed.

End Preserves.

(** Proves [preserves f m] by following the structure of [m]; attribute
    assignments are checked by evaluation. *)
Ltac preserves_step :=
  match goal with
  | |- preserves _ (bind _ _) => apply preserves_bind; [|intros ?]
  | |- preserves _ (ret _) => apply preserves_ret
  | |- preserves _ (raise _) => apply preserves_raise
  | |- preserves _ get => apply preserves_get
  | |- preserves _ (lift _ _) => apply preserves_lift
  | |- preserves _ (assign _) => apply preserves_assign; intros ?; reflexivity
  | |- preserves _ (print _ _) => apply preserves_assign; intros ?; reflexivity
  | |- preserves _ (for_fold _ _ _) => apply preserves_for_fold; intros ? ?
  | |- preserves _ (for_map _ _) => apply preserves_for_map; intros ?
  | |- preserves _ (try_except_LinAlgError _ _) => apply preserves_try
  | |- preserves _ (if _ then _ else _) => apply preserves_if
  | |- preserves _ (match ?x with _ => _ end) => destruct x
  | |- preserves _ (let '(_, _) := ?x in _) => destruct x
  end.
Ltac solve_preserves := repeat preserves_step.

(** ** Shapes of arrays *)
Lemma has_shapeb_spec r c A : has_shapeb r c A = true <-> has_shape r c A.
Proof.
  unfold has_shapeb, has_shape. rewrite andb_true_iff, Nat.eqb_eq, forallb_forall.
  rewrite Forall_forall. split; intros [H1 H2]; split; auto; intros x Hx.
  - apply Nat.eqb_eq, H2. by apply list_elem_of_In.
  - apply Nat.eqb_eq, H2. by apply list_elem_of_In.
Qed.

Lemma has_shape_row r c A i row : has_shape r c A -> A !! i = Some row -> length row = c.
Proof. intros [_ H] Hi. eapply Forall_lookup_1 in H; eauto. Qed.

Lemma lookup_nth {A} (l : list A) i d : (i < length l)%nat -> l !! i = Some (nth i l d).
Proof.
  intros H. destruct (lookup_lt_is_Some_2 l i H) as [x Hx].
  rewrite Hx. f_equal. symmetry. by apply nth_lookup_Some.
Qed.

Lemma mapM_map_Some {A B} (f : A -> option B) (g : A -> B) (l : list A) :
  (forall x, x ∈ l -> f x = Some (g x)) -> mapM f l = Some (map g l).
Proof.
  intros H. apply mapM_Some. induction l as [|x l IH]; simpl; constructor.
  - apply H. left.
  - apply IH. intros y Hy. apply H. by right.
Qed.

Lemma col_at_Some j r c A : has_shape r c A -> (j < c)%nat -> col_at j A = Some (col j A).
Proof.
  intros [_ H] Hj. unfold col_at, col. apply mapM_Some. 
  induction H as [|row A Hrow HA IH]; simpl; constructor; auto.
  apply lookup_nth. lia.
Qed.

Lemma zip_with_zip_with_same {A B} (g h : A -> B -> A) (xs : list A) (ys : list B) :
  zip_with g (zip_with h xs ys) ys = zip_with (fun x y => g (h x y) y) xs ys.
Proof. revert ys. induction xs as [|x xs IH]; intros [|y ys]; simpl; f_equal; auto. Qed.

Lemma foldl_zip_with_rows {A B I} (h : I -> A -> B -> A) (ys : list B) (idxs : list I) :
  forall xs, length xs = length ys ->
    foldl (fun acc i => zip_with (h i) acc ys) xs idxs
    = zip_with (fun x y => foldl (fun a i => h i a y) x idxs) xs ys.
Proof.
  induction idxs as [|i idxs IH]; intros xs Hlen; simpl.
  - revert ys Hlen. induction xs as [|x xs IHx]; intros [|y ys] Hlen; simpl in *;
      try done. f_equal. apply IHx. lia.
  - rewrite IH by (rewrite length_zip_with; lia).
    apply zip_with_zip_with_same with (g := fun x y => foldl (fun a i0 => h i0 a y) x idxs).
Qed.

Lemma alter_twice {A} (f g : A -> A) (i : nat) (l : list A) :
  alter f i (alter g i l) = alter (fun a => f (g a)) i l.
Proof. revert i. induction l as [|a l IH]; intros [|i]; simpl; f_equal; auto. apply IH. Qed.

Lemma foldl_alter_same {I} (x : I -> Qc) (t : nat) (idxs : list I) :
  forall row : vec,
    foldl (fun r i => alter (fun a => a + x i) t r) row idxs
    = alter (fun a => foldl (fun s i => s + x i) a idxs) t row.
Proof.
  induction idxs as [|i idxs IH]; intros row; simpl.
  - symmetry. apply list_alter_id. done.
  - rewrite IH. apply alter_twice.
Qed.

Lemma foldl_plus_shift {I} (x : I -> Qc) (idxs : list I) (a : Qc) :
  foldl (fun s i => s + x i) a idxs = a + foldl (fun s i => s + x i) 0 idxs.
Proof.
  revert a. induction idxs as [|i idxs IH]; intros a; simpl.
  - ring.
  - rewrite IH. rewrite (IH (0 + x i)). ring.
Qed.

Lemma foldl_seq_dot (u v : vec) :
  length u = length v ->
  foldl (fun s i => s + nth i u 0 * nth i v 0) 0 (seq 0 (length u)) = dot u v.
Proof.
  revert v. induction u as [|a u IH]; intros [|b v] Hlen; simpl in *; try done.
  rewrite foldl_plus_shift. rewrite <- fmap_S_seq, foldl_fmap. simpl.
  rewrite IH by lia. unfold dot. simpl. ring.
Qed.

Lemma fill_row (d : nat -> Qc) (n : nat) :
  foldl (fun r t => alter (fun a => a + d t) t r) (zeros n) (seq 0 n) = map d (seq 0 n).
Proof.
  assert (H : forall k, (k <= n)%nat ->
            foldl (fun r t => alter (fun a => a + d t) t r) (zeros n) (seq 0 k)
            = map d (seq 0 k) ++ zeros (n - k)).
  { induction k as [|k IH]; intros Hk.
    - simpl. by rewrite Nat.sub_0_r.
    - rewrite seq_S, foldl_app, Nat.add_0_l. cbn [foldl]. rewrite IH by lia.
      rewrite alter_app_r_alt by (rewrite length_map, length_seq; lia).
      rewrite length_map, length_seq, Nat.sub_diag.
      replace (n - k)%nat with (S (n - S k)) by lia.
      rewrite map_app, <- app_assoc. simpl. do 2 f_equal. ring. }
  rewrite H by lia. rewrite Nat.sub_diag. simpl. apply app_nil_r.
Qed.

Lemma has_shape_ncols r c A : has_shape r c A -> A <> [] -> ncols A = c.
Proof. intros [_ H] Hne. destruct A as [|row A]; [done|]. by inversion H. Qed.

Lemma has_shapeb_self r c A : has_shape r c A -> has_shapeb (length A) (ncols A) A = true.
Proof.
  intros H. apply has_shapeb_spec. destruct A as [|row A].
  - split; [done | constructor].
  - rewrite (has_shape_ncols _ _ _ H) by done. destruct H as [_ H]. by split.
Qed.

Lemma add_mm_Some r c A B :
  has_shape r c A -> has_shape r c B -> add_mm A B = Some (mat_add A B).
Proof.
  intros HA HB. unfold add_mm. rewrite (has_shapeb_self _ _ _ HA). simpl.
  replace (has_shapeb (length A) (ncols A) B) with true; [done|].
  symmetry. apply has_shapeb_spec. destruct A as [|row A].
  - destruct HA as [<- _]. destruct HB as [HB _]. destruct B; [|done].
    split; [done | constructor].
  - rewrite (has_shape_ncols _ _ _ HA) by done. destruct HA as [-> _]. done.
Qed.

Lemma identity_shape n : has_shape n n (identity n).
Proof.
  unfold identity. split.
  - by rewrite length_map, length_seq.
  - apply Forall_forall. intros row Hrow. apply list_elem_of_fmap in Hrow as [i [-> _]].
    by rewrite length_map, length_seq.
Qed.

Lemma mat_scale_shape a r c A : has_shape r c A -> has_shape r c (mat_scale a A).
Proof.
  intros [H1 H2]. unfold mat_scale, vscale. split.
  - by rewrite length_map.
  - apply Forall_fmap. eapply Forall_impl; [exact H2|]. intros row Hrow. simpl.
    by rewrite length_map.
Qed.

Lemma dot_mv_Some r c A v :
  has_shape r c A -> length v = c -> dot_mv A v = Some (mat_vec A v).
Proof.
  intros [_ H] Hv. unfold dot_mv.
  replace (forallb _ A) with true; [done|]. symmetry. apply forallb_forall.
  intros row Hrow. apply Nat.eqb_eq. rewrite Forall_forall in H.
  rewrite Hv. apply H. by apply list_elem_of_In.
Qed.

Lemma col_add_shape r c t v A :
  has_shape r c A -> length v = r -> has_shape r c (col_add t v A).
Proof.
  intros [H1 H2] Hv. unfold col_add. split.
  - rewrite length_zip_with. lia.
  - apply Forall_forall. intros row Hrow.
    apply list_elem_of_lookup in Hrow as [i Hi].
    apply lookup_zip_with_Some in Hi as (row0 & x & -> & Hrow0 & _).
    rewrite length_alter. eapply Forall_lookup_1 in H2; eauto.
Qed.

Lemma col_iadd_Some r c t v A :
  has_shape r c A -> length v = r -> (t < c)%nat ->
  col_iadd t v A = Some (col_add t v A).
Proof.
  intros [H1 H2] Hv Ht. unfold col_iadd, broadcast.
  rewrite H1, Hv, Nat.eqb_refl. unfold col_add.
  apply mapM_Some. clear H1 Hv. revert v.
  induction H2 as [|row A Hrow HA IH]; intros [|x v]; simpl; try by constructor.
  constructor; [|apply IH]. simpl.
  replace (t <? length row)%nat with true; [done|]. symmetry. apply Nat.ltb_lt. lia.
Qed.

Lemma col_length j A : length (col j A) = length A.
Proof. unfold col. by rewrite length_map. Qed.

Lemma mat_vec_length A v : length (mat_vec A v) = length A.
Proof. unfold mat_vec. by rewrite length_map. Qed.

Lemma zeros2_shape r c : has_shape r c (zeros2 r c).
Proof.
  unfold zeros2, zeros. split; [by rewrite length_replicate|].
  apply Forall_replicate. by rewrite length_replicate.
Qed.

Lemma estimate_matrix_shape r c cross k_inv pots0 T :
  has_shape r c cross -> has_shape r T (estimate_matrix cross k_inv pots0 T).
Proof.
  intros [H1 _]. unfold estimate_matrix. split; [by rewrite length_map|].
  apply Forall_fmap, Forall_forall. intros row _. simpl. by rewrite length_map, length_seq.
Qed.

Lemma foldl_ext_in {A B} (f g : B -> A -> B) (l : list A) :
  (forall b x, x ∈ l -> f b x = g b x) -> forall b, foldl f b l = foldl g b l.
Proof.
  induction l as [|x l IH]; intros H b; simpl; [done|].
  rewrite H by left. apply IH. intros b' x' Hx'. apply H. by right.
Qed.

(** The pure content of the inner loop of [values], for one time sample. *)
Lemma inner_loop_estimate (cross est : mat) (beta : vec) (t n : nat) :
  Forall (fun row : vec => length row = n) cross ->
  length beta = n ->
  length est = length cross ->
  foldl (fun est i => col_add t (map (fun x => x * nth i beta 0) (col i cross)) est)
        est (seq 0 n)
  = zip_with (fun (row trow : vec) => alter (fun a => a + dot trow beta) t row) est cross.
Proof.
  intros Hrows Hbeta Hlen.
  rewrite (foldl_ext_in _
             (fun est i => zip_with (fun (row trow : vec) =>
                alter (fun a => a + nth i trow 0 * nth i beta 0) t row) est cross)).
  2:{ intros est' i _. unfold col_add, col. by rewrite map_map, zip_with_fmap_r. }
  rewrite (foldl_zip_with_rows
             (fun i (row trow : vec) => alter (fun a => a + nth i trow 0 * nth i beta 0) t row))
    by done.
  apply Forall_zip_with_ext_r; [done|].
  eapply Forall_impl; [exact Hrows|]. intros trow Htrow row. simpl in Htrow.
  rewrite (foldl_alter_same (fun i => nth i trow 0 * nth i beta 0)).
  apply list_alter_ext; [|done]. intros a _.
  rewrite foldl_plus_shift. f_equal. rewrite <- Htrow. apply foldl_seq_dot. lia.
Qed.

(** The pure content of the two loops of [values]. *)
Lemma loops_estimate (cross : mat) (beta : nat -> vec) (P n T : nat) :
  has_shape P n cross ->
  (forall t, length (beta t) = n) ->
  foldl (fun est t =>
           foldl (fun est i => col_add t (map (fun x => x * nth i (beta t) 0) (col i cross)) est)
                 est (seq 0 n))
        (zeros2 P T) (seq 0 T)
  = map (fun row : vec => map (fun t => dot row (beta t)) (seq 0 T)) cross.
Proof.
  intros [HP Hrows] Hbeta.
  assert (Hout : forall ts est, length est = length cross ->
     foldl (fun est t =>
           foldl (fun est i => col_add t (map (fun x => x * nth i (beta t) 0) (col i cross)) est)
                 est (seq 0 n)) est ts
     = foldl (fun est t => zip_with (fun (row trow : vec) =>
                 alter (fun a => a + dot trow (beta t)) t row) est cross) est ts).
  { induction ts as [|t ts IH]; intros est Hlen; simpl; [done|].
    rewrite inner_loop_estimate by auto. apply IH. rewrite length_zip_with. lia. }
  assert (Hz : length (zeros2 P T) = length cross).
  { unfold zeros2. rewrite length_replicate. lia. }
  rewrite Hout by done.
  rewrite (foldl_zip_with_rows
             (fun t (row trow : vec) => alter (fun a => a + dot trow (beta t)) t row)) by done.
  unfold zeros2. rewrite zip_with_replicate_l by lia.
  apply map_ext. intros trow. apply (fill_row (fun t => dot trow (beta t))).
Qed.

Lemma chunk_concat {A} (r c : nat) (l : list (list A)) :
  length l = r -> Forall (fun row => length row = c) l -> chunk c r (concat l) = l.
Proof.
  intros <- H. induction H as [|row l Hrow Hl IH]; simpl; [done|].
  rewrite take_app_length' by done. rewrite drop_app_length' by done. by rewrite IH.
Qed.

Lemma concat_length_shape {A} (r c : nat) (l : list (list A)) :
  length l = r -> Forall (fun row => length row = c) l -> length (concat l) = (r * c)%nat.
Proof.
  intros <- H. induction H as [|row l Hrow Hl IH]; simpl; [done|].
  rewrite length_app, IH, Hrow. lia.
Qed.

Lemma size_shape (r c : nat) (A : mat) : has_shape r c A -> length (concat A) = (r * c)%nat.
Proof. intros [H1 H2]. by apply concat_length_shape. Qed.

Lemma chunk_length {A} (n k : nat) (l : list A) : length (chunk n k l) = k.
Proof. revert l. induction k as [|k IH]; intros l; simpl; [done|]. by rewrite IH. Qed.

Lemma chunk_rows {A} (n k : nat) (l : list A) :
  length l = (k * n)%nat -> Forall (fun row => length row = n) (chunk n k l).
Proof.
  revert l. induction k as [|k IH]; intros l Hl; simpl; constructor.
  - rewrite length_take. lia.
  - apply IH. rewrite length_drop. lia.
Qed.

Lemma chunk_Forall {A} (Q : A -> Prop) (n k : nat) (l : list A) :
  Forall Q l -> Forall (Forall Q) (chunk n k l).
Proof.
  revert l. induction k as [|k IH]; intros l Hl; simpl; constructor.
  - by apply Forall_take.
  - apply IH. by apply Forall_drop.
Qed.

Lemma reshape3_Some (a b c : nat) (E : mat) :
  has_shape (a * b) c E ->
  reshape3 a b c E = Some (chunk b a E) /\ has_shape3 a b c (chunk b a E).
Proof.
  intros [H1 H2]. unfold reshape3, size.
  rewrite (concat_length_shape (a * b) c) by done. rewrite Nat.eqb_refl.
  rewrite chunk_concat by done. split; [done|].
  split; [apply chunk_length|].
  assert (Hr : Forall (fun m : mat => length m = b) (chunk b a E)).
  { apply chunk_rows. lia. }
  pose proof (chunk_Forall _ b a E H2) as Hc.
  apply Forall_forall. intros m Hm. rewrite Forall_forall in Hr, Hc.
  split; [by apply Hr | by apply Hc].
Qed.

Section Values.
Context `{ext : External}.

Lemma values_closed_form (self : kcsd) (estimate : string) (cross k_inv : mat) :
  has_shape (n_ele self) (n_ele self) (k_pot self) ->
  has_shape (n_ele self) (n_time self) (pots self) ->
  has_shape (n_estm self) (n_ele self) cross ->
  n_estm self = (ngx self * ngy self)%nat ->
  cross_kernel estimate self = Some cross ->
  linalg_inv (regularised self) = Some k_inv ->
  has_shape (n_ele self) (n_ele self) k_inv ->
  values estimate self
  = (Ok (RArr3 (chunk (ngy self) (ngx self)
                  (estimate_matrix cross k_inv (pots self) (n_time self)))), self).
Proof.
  intros Hk Hp Hc Hsz Hcross Hinv Hki.
  unfold values. rewrite bind_get.
  rewrite (bind_Ok _ _ self (Some cross) self).
  2:{ unfold cross_kernel in Hcross. repeat case_bool_decide; try done;
        inversion Hcross; reflexivity. }
  destruct Hk as [Hk1 Hk2]. rewrite Hk1.
  erewrite add_mm_Some; [| split; eassumption | apply mat_scale_shape, identity_shape].
  rewrite bind_lift_Some. fold (regularised self). rewrite Hinv, bind_lift_Some.
  set (beta := fun t => mat_vec k_inv (col t (pots self))).
  set (P := has_shape (n_estm self) (n_time self)).
  set (f := fun est t => foldl (fun est i =>
           col_add t (map (fun x => x * nth i (beta t) 0) (col i cross)) est)
           est (seq 0 (n_ele self))).
  match goal with
  | |- context [for_fold ?xs ?acc ?body] =>
      assert (Hb : forall est t, P est -> t ∈ xs ->
                 body est t self = (Ok (f est t), self) /\ P (f est t));
      [| destruct (for_fold_pure P f xs body self Hb acc (zeros2_shape _ _))
           as [Hrun Hfin] ]
  end.
  2:{ erewrite bind_Ok; [|exact Hrun]. unfold f, P in *.
      assert (Hbeta : forall t, length (beta t) = n_ele self).
      { intros t. unfold beta. rewrite mat_vec_length. apply Hki. }
      pose proof (loops_estimate cross beta _ _ (n_time self) Hc Hbeta) as Heq.
      rewrite Heq in Hfin. rewrite Heq.
      fold (estimate_matrix cross k_inv (pots self) (n_time self)) in *.
      rewrite Hsz in Hfin. destruct (reshape3_Some _ _ _ _ Hfin) as [-> _]. done. }
  intros est t Hest Ht. apply elem_of_seq in Ht.
  erewrite col_at_Some; [| exact Hp | lia]. rewrite bind_lift_Some.
  erewrite dot_mv_Some; [| exact Hki | rewrite col_length; apply Hp].
  rewrite bind_lift_Some.
  apply (for_fold_pure P); [|done].
  intros est' i Hest' Hi. apply elem_of_seq in Hi.
  rewrite bind_lift_Some.
  erewrite col_at_Some; [| exact Hc | lia]. rewrite bind_lift_Some.
  rewrite (lookup_nth _ i 0) by (rewrite mat_vec_length; destruct Hki; lia).
  rewrite bind_lift_Some.
  erewrite col_iadd_Some;
    [| exact Hest' | rewrite length_map, col_length; apply Hc | lia].
  split; [done|]. apply col_add_shape; [done|]. rewrite length_map, col_length. apply Hc.
Qed.

End Values.

Section Values_claims.
Context `{ext : External}.

(** C1. For a valid quantity tag and assembled kernel matrices, [values]
    computes for each time sample [t] the vector
    [beta = (k_pot + lambd I)^-1 . pots[:, t]] and the column
    [estimate[:, t] = cross_kernel . beta], where the cross kernel is
    [k_interp_cross] for 'CSD' and [k_interp_pot] for 'POT', and returns the
    result reshaped to [(ngx, ngy, n_time)]; [self] is left as it was. *)
Theorem values_reconstructs (self : kcsd) (estimate : string) (cross k_inv : mat) :
  assembled self = true ->
  cross_kernel estimate self = Some cross ->
  linalg_inv (regularised self) = Some k_inv ->
  has_shapeb (n_ele self) (n_ele self) k_inv = true ->
  exists E : mat,
    values estimate self = (Ok (RArr3 (chunk (ngy self) (ngx self) E)), self) /\
    has_shape (n_estm self) (n_time self) E /\
    (forall t, (t < n_time self)%nat ->
       col t E = mat_vec cross (mat_vec k_inv (col t (pots self)))) /\
    has_shape3 (ngx self) (ngy self) (n_time self) (chunk (ngy self) (ngx self) E).
Proof.
  intros Hasm Hcross Hinv Hki.
  unfold assembled in Hasm. rewrite !andb_true_iff, Nat.eqb_eq in Hasm.
  destruct Hasm as [[[[Hk Hp] Hc1] Hc2] Hsz].
  apply has_shapeb_spec in Hk, Hp, Hc1, Hc2, Hki.
  assert (Hc : has_shape (n_estm self) (n_ele self) cross).
  { unfold cross_kernel in Hcross. repeat case_bool_decide; try done;
      inversion Hcross; by subst. }
  exists (estimate_matrix cross k_inv (pots self) (n_time self)).
  pose proof (estimate_matrix_shape _ _ cross k_inv (pots self) (n_time self) Hc) as HE.
  split; [by apply values_closed_form|]. split; [done|]. split.
  - intros t Ht. unfold estimate_matrix, col, mat_vec. rewrite map_map.
    apply map_ext. intros row.
    rewrite (nth_lookup_Some _ t 0 (dot row (map (fun r => dot r (map (fun r0 => nth t r0 0) (pots self))) k_inv))); [done|].
    rewrite list_lookup_fmap, lookup_seq_lt by done. done.
  - rewrite Hsz in HE. by apply reshape3_Some.
Qed.

(** The two valid tags select the two cross kernels. *)
Lemma cross_kernel_CSD (self : kcsd) : cross_kernel "CSD" self = Some (k_interp_cross self).
Proof. done. Qed.

Lemma cross_kernel_POT (self : kcsd) : cross_kernel "POT" self = Some (k_interp_pot self).
Proof. done. Qed.

End Values_claims.

Lemma values_reconstructs_witness :
  let self := Examples.built in
  let k_inv := Examples.built_k_inv in
  assembled self = true /\
  @linalg_inv Reference.numerics (regularised self) = Some k_inv /\
  exists E : mat,
    @values Reference.numerics "CSD" self
    = (Ok (RArr3 (chunk (ngy self) (ngx self) E)), self) /\
    has_shape (n_estm self) (n_time self) E /\
    (forall t, (t < n_time self)%nat ->
       col t E = mat_vec (k_interp_cross self) (mat_vec k_inv (col t (pots self)))) /\
    has_shape3 (ngx self) (ngy self) (n_time self) (chunk (ngy self) (ngx self) E).
Proof.
  intros self k_inv.
  assert (Hasm : assembled self = true) by (vm_compute; reflexivity).
  assert (Hinv : @linalg_inv Reference.numerics (regularised self) = Some k_inv)
    by by_eval.
  split; [exact Hasm|]. split; [exact Hinv|].
  apply (@values_reconstructs Reference.numerics self "CSD" (k_interp_cross self) k_inv);
    [exact Hasm | reflexivity | exact Hinv | vm_compute; reflexivity].
Defined.

(** ** Linearity of the reconstruction *)

Lemma dot_linear (r u v : vec) (a b : Qc) :
  length u = length v ->
  dot r (vadd (vscale a u) (vscale b v)) = a * dot r u + b * dot r v.
Proof.
  unfold dot, vadd, vscale, sum. revert u v.
  induction r as [|x r IH]; intros [|y u] [|z v] Hlen; simpl in *; try done; try ring.
  rewrite IH by lia. ring.
Qed.

Lemma mat_vec_linear (K : mat) (u v : vec) (a b : Qc) :
  length u = length v ->
  mat_vec K (vadd (vscale a u) (vscale b v))
  = vadd (vscale a (mat_vec K u)) (vscale b (mat_vec K v)).
Proof.
  intros Hlen. unfold mat_vec. induction K as [|r K IH]; simpl; [done|].
  rewrite dot_linear by done. f_equal. apply IH.
Qed.

Lemma col_linear (V1 V2 : mat) (a b : Qc) (r c t : nat) :
  has_shape r c V1 -> has_shape r c V2 -> (t < c)%nat ->
  col t (mat_add (mat_scale a V1) (mat_scale b V2))
  = vadd (vscale a (col t V1)) (vscale b (col t V2)).
Proof.
  intros [H1 HV1] [H2 HV2] Ht. unfold col, mat_add, mat_scale.
  subst r. revert V2 H2 HV2.
  induction HV1 as [|row1 V1 Hrow1 HV1 IH]; intros [|row2 V2] H2 HV2; simpl in *; try done.
  inversion HV2 as [|? ? Hrow2 HV2']; subst.
  f_equal; [|apply IH; [lia | done]].
  unfold vadd, vscale.
  rewrite (nth_lookup_Some _ t 0 (a * nth t row1 0 + b * nth t row2 0)); [done|].
  rewrite lookup_zip_with, !list_lookup_fmap.
  rewrite (lookup_nth row1 t 0) by lia. rewrite (lookup_nth row2 t 0) by lia. done.
Qed.

Lemma chunk_zip_with {A B C} (f : A -> B -> C) (n k : nat) (l1 : list A) (l2 : list B) :
  chunk n k (zip_with f l1 l2) = zip_with (zip_with f) (chunk n k l1) (chunk n k l2).
Proof.
  revert l1 l2. induction k as [|k IH]; intros l1 l2; simpl; [done|].
  rewrite zip_with_take, zip_with_drop, IH. done.
Qed.

Lemma chunk_map {A B} (f : A -> B) (n k : nat) (l : list A) :
  chunk n k (map f l) = map (map f) (chunk n k l).
Proof.
  revert l. induction k as [|k IH]; intros l; simpl; [done|].
  rewrite <- fmap_take, <- fmap_drop, <- IH. done.
Qed.

Lemma zip_with_map_same {A B C D} (f : B -> C -> D) (g : A -> B) (h : A -> C) (l : list A) :
  zip_with f (map g l) (map h l) = map (fun x => f (g x) (h x)) l.
Proof. induction l as [|x l IH]; simpl; [done|]. by rewrite IH. Qed.

Lemma estimate_matrix_linear (cross k_inv V1 V2 : mat) (a b : Qc) (n T : nat) :
  has_shape n T V1 -> has_shape n T V2 ->
  estimate_matrix cross k_inv (mat_add (mat_scale a V1) (mat_scale b V2)) T
  = mat_add (mat_scale a (estimate_matrix cross k_inv V1 T))
            (mat_scale b (estimate_matrix cross k_inv V2 T)).
Proof.
  intros H1 H2. unfold estimate_matrix.
  unfold mat_add at 2. unfold mat_scale at 3 4.
  rewrite !map_map, zip_with_map_same.
  apply map_ext. intros row. unfold vadd at 1. unfold vscale at 1 2.
  rewrite !map_map, zip_with_map_same.
  apply map_ext_in. intros t Ht. apply in_seq in Ht.
  rewrite (col_linear V1 V2 a b n T) by (done || lia).
  rewrite mat_vec_linear by (rewrite !col_length; destruct H1, H2; congruence).
  apply dot_linear. rewrite !mat_vec_length. done.
Qed.

Lemma mat_add_shape r c A B :
  has_shape r c A -> has_shape r c B -> has_shape r c (mat_add A B).
Proof.
  intros [HA1 HA2] [HB1 HB2]. unfold mat_add, vadd. split.
  - rewrite length_zip_with. lia.
  - apply Forall_forall. intros row Hrow.
    apply list_elem_of_lookup in Hrow as [i Hi].
    apply lookup_zip_with_Some in Hi as (ra & rb & -> & Hra & Hrb).
    rewrite length_zip_with.
    eapply Forall_lookup_1 in HA2; eauto. eapply Forall_lookup_1 in HB2; eauto.
    simpl in *. lia.
Qed.

Section Linear.
Context `{ext : External}.

Lemma assembled_pots (V : mat) (self : kcsd) :
  assembled (set_pots V self) = true ->
  has_shape (n_ele self) (n_ele self) (k_pot self) /\
  has_shape (n_ele self) (n_time self) V /\
  has_shape (n_estm self) (n_ele self) (k_interp_cross self) /\
  has_shape (n_estm self) (n_ele self) (k_interp_pot self) /\
  n_estm self = (ngx self * ngy self)%nat.
Proof.
  unfold assembled. simpl. rewrite !andb_true_iff, Nat.eqb_eq, !has_shapeb_spec. tauto.
Qed.

(** C8. For fixed kernel matrices and fixed [lambd], [values] is linear in
    the potentials: from [a V1 + b V2] it returns [a] times the result for
    [V1] plus [b] times the result for [V2]. *)
Theorem values_linear (self : kcsd) (estimate : string) (cross k_inv V1 V2 : mat)
        (a b : Qc) :
  assembled (set_pots V1 self) = true ->
  assembled (set_pots V2 self) = true ->
  cross_kernel estimate self = Some cross ->
  linalg_inv (regularised self) = Some k_inv ->
  has_shapeb (n_ele self) (n_ele self) k_inv = true ->
  exists E1 E2 : arr3,
    values estimate (set_pots V1 self) = (Ok (RArr3 E1), set_pots V1 self) /\
    values estimate (set_pots V2 self) = (Ok (RArr3 E2), set_pots V2 self) /\
    let V := mat_add (mat_scale a V1) (mat_scale b V2) in
    values estimate (set_pots V self)
    = (Ok (RArr3 (arr3_add (arr3_scale a E1) (arr3_scale b E2))), set_pots V self).
Proof.
  intros HA1 HA2 Hcross Hinv Hki.
  apply assembled_pots in HA1 as (Hk & HV1 & Hc1 & Hc2 & Hsz).
  apply assembled_pots in HA2 as (_ & HV2 & _ & _ & _).
  apply has_shapeb_spec in Hki.
  assert (Hc : has_shape (n_estm self) (n_ele self) cross).
  { unfold cross_kernel in Hcross. repeat case_bool_decide; try done;
      inversion Hcross; by subst. }
  exists (chunk (ngy self) (ngx self) (estimate_matrix cross k_inv V1 (n_time self))),
         (chunk (ngy self) (ngx self) (estimate_matrix cross k_inv V2 (n_time self))).
  split; [by apply (values_closed_form (set_pots V1 self))|].
  split; [by apply (values_closed_form (set_pots V2 self))|].
  intros V.
  assert (HV : has_shape (n_ele self) (n_time self) V).
  { apply mat_add_shape; by apply mat_scale_shape. }
  rewrite (values_closed_form (set_pots V self) estimate cross k_inv) by done.
  simpl. do 3 f_equal. unfold V.
  rewrite (estimate_matrix_linear _ _ _ _ _ _ (n_ele self)) by done.
  unfold arr3_add, arr3_scale, mat_add, mat_scale.
  by rewrite chunk_zip_with, !chunk_map.
Qed.
End Linear.

Lemma values_linear_witness :
  let V1 := pots Examples.small in
  let V2 := [[Examples.q 1 2; 0]; [ofZ 5; - (1)]] in
  let a := ofZ 2 in
  let b := Examples.q (-1) 3 in
  assembled (set_pots V1 Examples.small) = true /\
  assembled (set_pots V2 Examples.small) = true /\
  exists E1 E2 : arr3,
    @values Reference.numerics "CSD" (set_pots V1 Examples.small)
    = (Ok (RArr3 E1), set_pots V1 Examples.small) /\
    @values Reference.numerics "CSD" (set_pots V2 Examples.small)
    = (Ok (RArr3 E2), set_pots V2 Examples.small) /\
    let V := mat_add (mat_scale a V1) (mat_scale b V2) in
    @values Reference.numerics "CSD" (set_pots V Examples.small)
    = (Ok (RArr3 (arr3_add (arr3_scale a E1) (arr3_scale b E2))),
       set_pots V Examples.small).
Proof.
  intros V1 V2 a b. split; [reflexivity|]. split; [reflexivity|].
  apply (@values_linear Reference.numerics Examples.small "CSD"
           (k_interp_cross Examples.small) Examples.small_k_inv V1 V2 a b);
    [reflexivity | reflexivity | reflexivity | by_eval | reflexivity].
Defined.

(** ** Sums, and the Gram matrix of an array *)

Lemma ofZ_this (z : Z) : (this (ofZ z) == inject_Z z)%Q.
Proof. unfold ofZ. simpl. apply Qred_correct. Qed.

Lemma sum_map_plus {A} (f g : A -> Qc) (l : list A) :
  sum (map (fun i => f i + g i) l) = sum (map f l) + sum (map g l).
Proof. unfold sum. induction l as [|x l IH]; simpl; [ring|]. rewrite IH. ring. Qed.

Lemma sum_map_scale {A} (c : Qc) (f : A -> Qc) (l : list A) :
  sum (map (fun i => c * f i) l) = c * sum (map f l).
Proof. unfold sum. induction l as [|x l IH]; simpl; [ring|]. rewrite IH. ring. Qed.

Lemma sum_map_zero {A} (l : list A) : sum (map (fun _ => 0) l) = 0.
Proof. unfold sum. induction l as [|x l IH]; simpl; [done|]. rewrite IH. ring. Qed.

Lemma sum_map_ext {A} (f g : A -> Qc) (l : list A) :
  (forall x, x ∈ l -> f x = g x) -> sum (map f l) = sum (map g l).
Proof.
  intros H. f_equal. apply map_ext_in. intros x Hx. apply H. by apply list_elem_of_In.
Qed.

Lemma dot_as_sum (u v : vec) :
  length u = length v ->
  dot u v = sum (map (fun i => nth i u 0 * nth i v 0) (seq 0 (length u))).
Proof.
  unfold dot, sum. revert v.
  induction u as [|a u IH]; intros [|b v] Hlen; simpl in *; try done.
  f_equal. rewrite <- fmap_S_seq, map_map. simpl. apply IH. lia.
Qed.

Lemma dot_comm (u v : vec) : dot u v = dot v u.
Proof.
  unfold dot, sum. revert v. induction u as [|a u IH]; intros [|b v]; simpl; try done.
  rewrite IH. ring.
Qed.

Lemma square_nonneg (a : Qc) : 0 <= a * a.
Proof.
  destruct (Qclt_le_dec a 0) as [Hneg|Hpos].
  - replace (a * a) with ((- a) * (- a)) by ring.
    assert (H : 0 <= - a).
    { apply Qclt_le_weak, Qcopp_le_compat in Hneg. by replace (- 0) with 0 in Hneg by ring. }
    by apply Qcmult_nonneg_nonneg.
  - by apply Qcmult_nonneg_nonneg.
Qed.

Lemma sum_nonneg (l : vec) : Forall (fun a => 0 <= a) l -> 0 <= sum l.
Proof.
  unfold sum. induction 1 as [|a l Ha Hl IH]; simpl; [done|].
  by apply Qcplus_nonneg_nonneg.
Qed.

Lemma ofnat_pos (n : nat) : (0 < n)%nat -> 0 < ofnat n.
Proof.
  intros Hn. unfold ofnat, Qclt. rewrite ofZ_this.
  change (this 0) with (inject_Z 0). rewrite <- Zlt_Qlt. lia.
Qed.


Lemma col_cons (j : nat) (r : vec) (B : mat) : col j (r :: B) = nth j r 0 :: col j B.
Proof. done. Qed.

Lemma dot_cons (a b : Qc) (u v : vec) : dot (a :: u) (b :: v) = a * b + dot u v.
Proof. done. Qed.

Lemma tab_shape (r c : nat) (g : nat -> nat -> Qc) : has_shape r c (tab r c g).
Proof.
  unfold tab. split; [by rewrite length_map, length_seq|].
  apply Forall_fmap, Forall_forall. intros i _. simpl. by rewrite length_map, length_seq.
Qed.

Lemma col_tab (r c j : nat) (g : nat -> nat -> Qc) :
  (j < c)%nat -> col j (tab r c g) = map (fun i => g i j) (seq 0 r).
Proof.
  intros Hj. unfold col, tab. rewrite map_map. apply map_ext. intros i.
  apply nth_lookup_Some. rewrite list_lookup_fmap, lookup_seq_lt by done. done.
Qed.

Lemma transpose_tab (n : nat) (g : nat -> nat -> Qc) :
  transpose (tab n n g) = tab n n (fun i j => g j i).
Proof.
  unfold transpose. destruct n as [|n]; [done|].
  replace (ncols (tab (S n) (S n) g)) with (S n)
    by (unfold tab; simpl; by rewrite length_map, length_seq).
  unfold tab at 2. apply map_ext_in. intros j Hj. apply in_seq in Hj.
  rewrite col_tab by lia. done.
Qed.

(** [B^T . B] entry by entry. *)
Lemma gram_tab (B : mat) :
  mat_mul (transpose B) B
  = tab (ncols B) (ncols B) (fun i j => dot (col i B) (col j B)).
Proof. unfold mat_mul, transpose, tab. by rewrite map_map. Qed.

Lemma idiv_tab (r c n : nat) (g : nat -> nat -> Qc) :
  idiv (tab r c g) n = tab r c (fun i j => g i j / ofnat n).
Proof. unfold idiv, tab. rewrite map_map. apply map_ext. intros i. by rewrite map_map. Qed.

(** The quadratic form of a tabulated matrix as a double sum. *)
Lemma quad_tab (n : nat) (g : nat -> nat -> Qc) (x : vec) :
  length x = n ->
  quad (tab n n g) x
  = sum (map (fun i => nth i x 0 * sum (map (fun j => g i j * nth j x 0) (seq 0 n)))
             (seq 0 n)).
Proof.
  intros Hx. unfold quad.
  rewrite dot_as_sum by (rewrite mat_vec_length; destruct (tab_shape n n g); lia).
  rewrite Hx. apply sum_map_ext. intros i Hi. apply elem_of_seq in Hi. f_equal.
  unfold mat_vec, tab. rewrite map_map.
  erewrite nth_lookup_Some; [|rewrite list_lookup_fmap, lookup_seq_lt by lia; reflexivity].
  simpl. rewrite dot_as_sum by (rewrite length_map, length_seq; lia).
  rewrite length_map, length_seq. apply sum_map_ext. intros j Hj. apply elem_of_seq in Hj.
  f_equal. apply nth_lookup_Some. rewrite list_lookup_fmap, lookup_seq_lt by lia. done.
Qed.

(** [x^T (B^T B) x] is the sum of the squares of the entries of [B x]. *)
Lemma quad_gram (B : mat) (n : nat) (x : vec) :
  Forall (fun row : vec => length row = n) B -> length x = n ->
  quad (tab n n (fun i j => dot (col i B) (col j B))) x
  = sum (map (fun row => dot row x * dot row x) B).
Proof.
  intros HB Hx. rewrite quad_tab by done.
  induction HB as [|r B Hr HB IH].
  - change (sum (map (fun row : vec => dot row x * dot row x) [])) with 0.
    transitivity (sum (map (fun _ : nat => 0) (seq 0 n))); [|apply sum_map_zero].
    apply sum_map_ext. intros i _. cbv beta.
    rewrite (sum_map_ext (fun j => dot (col i []) (col j []) * nth j x 0) (fun _ => 0)).
    + rewrite sum_map_zero. ring.
    + intros j _. change (dot (col i []) (col j [])) with 0. ring.
  - remember (sum (map (fun j => nth j r 0 * nth j x 0) (seq 0 n))) as D eqn:HeqD.
    assert (HD : dot r x = D) by (subst D; rewrite <- Hr; apply dot_as_sum; lia).
    rewrite map_cons. unfold sum at 3. simpl foldr.
    fold (sum (map (fun row => dot row x * dot row x) B)).
    rewrite <- IH, HD.
    transitivity
      (sum (map (fun i => D * (nth i r 0 * nth i x 0)
                          + nth i x 0 * sum (map (fun j => dot (col i B) (col j B)
                                                           * nth j x 0) (seq 0 n)))
                (seq 0 n))).
    + apply sum_map_ext. intros i _. cbv beta.
      rewrite (sum_map_ext _ (fun j => nth i r 0 * (nth j r 0 * nth j x 0)
                                     + dot (col i B) (col j B) * nth j x 0)).
      2:{ intros j _. rewrite !col_cons, dot_cons. ring. }
      rewrite sum_map_plus, sum_map_scale, <- HeqD. ring.
    + rewrite sum_map_plus, sum_map_scale, <- HeqD. ring.
Qed.

(** ** The distance look up table *)

Lemma np_round_ofZ (z : Z) : np_round (ofZ z) = z.
Proof.
  unfold np_round.
  assert (Hf : Qfloor (ofZ z) = z).
  { rewrite (Qfloor_comp _ _ (ofZ_this z)). apply Qfloor_Z. }
  rewrite Hf. replace (ofZ z - ofZ z) with 0 by ring. reflexivity.
Qed.

(** The index used is always inside a non-empty table. *)
Lemma table_index_bounds (dt_len : nat) (dmax d : Qc) :
  (0 < dt_len)%nat -> (0 <= table_index dt_len dmax d < Z.of_nat dt_len)%Z.
Proof. unfold table_index. lia. Qed.

(** No distance produces an out-of-range access. *)
Lemma lookup_is_Some (table : vec) (dmax d : Qc) :
  table <> [] -> is_Some (lookup table dmax d).
Proof.
  intros Hne. unfold lookup. apply lookup_lt_is_Some.
  assert (H : (0 < length table)%nat) by (destruct table; simpl; [done | lia]).
  pose proof (table_index_bounds (length table) dmax d H). lia.
Qed.

(** While the rounded scaled distance fits 16 bits, the index is the
    clamped one. *)
Lemma table_index_clamped (dt_len : nat) (dmax d : Qc) :
  (0 <= np_round (ofnat dt_len * d / dmax) < 65536)%Z ->
  table_index dt_len dmax d = clamped_index dt_len dmax d.
Proof.
  intros H. unfold table_index, clamped_index, np_uint16.
  by rewrite Z.mod_small.
Qed.

(** Distance 0 reads the first bucket. *)
Lemma lookup_at_zero (table : vec) (dmax : Qc) :
  lookup table dmax 0 = table !! 0%nat.
Proof.
  unfold lookup, table_index.
  replace (ofnat (length table) * 0 / dmax) with (ofZ 0).
  2:{ unfold Qcdiv. rewrite Qcmult_0_r, Qcmult_0_l. reflexivity. }
  rewrite np_round_ofZ. unfold np_uint16. rewrite Z.mod_0_l by done.
  replace (Z.max 0 (Z.min 0 (Z.of_nat (length table) - 1))) with 0%Z by lia.
  done.
Qed.

(** Distance [dist_max] reads the last bucket of a table of fewer than
    65536 buckets. *)
Lemma lookup_at_dist_max (table : vec) (dmax : Qc) :
  dmax <> 0 -> (Z.of_nat (length table) < 65536)%Z ->
  lookup table dmax dmax = last table.
Proof.
  intros Hd Hlen. unfold lookup, table_index.
  replace (ofnat (length table) * dmax / dmax) with (ofZ (Z.of_nat (length table)))
    by (unfold ofnat; field; done).
  rewrite np_round_ofZ. unfold np_uint16. rewrite Z.mod_small by lia.
  rewrite last_lookup. f_equal. lia.
Qed.

(** [generated_potential] succeeds on every array of distances once the
    table holds a bucket, and leaves [self] as it was. *)
Lemma generated_potential_Ok (dist : mat) (self : kcsd) :
  dist_table self <> [] ->
  exists pot : mat,
    generated_potential dist self = (Ok pot, self) /\
    pot = map (map (fun d => default 0 (lookup (dist_table self) (dist_max self) d))) dist.
Proof.
  intros Hne. eexists. split; [|reflexivity].
  unfold generated_potential. rewrite bind_get.
  replace (mapM _ dist) with
    (Some (map (map (fun d => default 0 (lookup (dist_table self) (dist_max self) d))) dist));
    [done|].
  symmetry. apply mapM_map_Some. intros row _. apply mapM_map_Some.
  intros d _. by destruct (lookup_is_Some (dist_table self) (dist_max self) d Hne) as [x ->].
Qed.

(** C3, on the code: a distance far beyond [dist_max] does not read the
    last bucket.  With 100 buckets and [dist_max = 1], the distance 656 has
    the scaled, rounded value 65600; [np.uint16] keeps its low 16 bits, 64,
    and bucket 64 is read, whereas the clamped index is 99. *)
Theorem generated_potential_wraps_beyond_uint16 :
  generated_potential [[ofZ 656]] Examples.ramp = (Ok [[ofnat 64]], Examples.ramp)
  /\ 1 <= ofZ 656
  /\ clamped_index 100 1 (ofZ 656) = 99%Z
  /\ dist_table Examples.ramp !! 99%nat = Some (ofnat 99)
  /\ last (dist_table Examples.ramp) = Some (ofnat 99).
Proof.
  split; [|split; [by_eval | split; [by vm_compute | split; by_eval]]].
  destruct (generated_potential_Ok [[ofZ 656]] Examples.ramp) as (pot & -> & ->);
    [done|].
  f_equal; by_eval.
Qed.


(** ** Kernel assembly: [k_pot] *)

Section Kernel.
Context `{ext : External}.

Lemma cdist_shape (XA XB : mat) : has_shape (length XA) (length XB) (cdist XA XB).
Proof.
  unfold cdist. split; [by rewrite length_map|].
  apply Forall_fmap, Forall_forall. intros a _. simpl. by rewrite length_map.
Qed.

Lemma b_pot_of_shape (self : kcsd) :
  has_shape (length (zip_with (fun x y : Qc => [x; y])
                        (concat (src_x self)) (concat (src_y self))))
            (length (ele_pos self)) (b_pot_of self).
Proof.
  unfold b_pot_of. destruct (cdist_shape
    (zip_with (fun x y : Qc => [x; y]) (concat (src_x self)) (concat (src_y self)))
    (ele_pos self)) as [H1 H2].
  split; [by rewrite length_map|].
  apply Forall_fmap. eapply Forall_impl; [exact H2|]. intros row Hrow. simpl.
  by rewrite length_map.
Qed.

Lemma dot_mm_transpose (B : mat) :
  dot_mm (transpose B) B = Some (mat_mul (transpose B) B).
Proof.
  unfold dot_mm. replace (forallb _ (transpose B)) with true; [done|].
  symmetry. apply forallb_forall. intros r Hr. apply Nat.eqb_eq.
  unfold transpose in Hr. apply in_map_iff in Hr as (j & <- & _). apply col_length.
Qed.

(** What [update_b_pot] does once the look up table holds a bucket. *)
Lemma update_b_pot_run (self : kcsd) :
  dist_table self <> [] ->
  let B := b_pot_of self in
  update_b_pot self
  = (Ok tt, set_k_pot (idiv (mat_mul (transpose B) B) (n_src self))
              (set_k_pot (mat_mul (transpose B) B) (set_b_pot B self))).
Proof.
  intros Hne B. unfold update_b_pot. rewrite bind_get.
  destruct (generated_potential_Ok
              (cdist (zip_with (fun x y : Qc => [x; y])
                        (concat (src_x self)) (concat (src_y self))) (ele_pos self))
              self Hne) as (pot & Hrun & Hpot).
  rewrite (bind_Ok _ _ _ _ _ Hrun). fold (b_pot_of self) in Hpot. subst pot. fold B.
  rewrite bind_assign, dot_mm_transpose, bind_lift_Some, bind_assign, bind_get.
  done.
Qed.

(** C2. After kernel assembly [k_pot = (b_pot^T . b_pot) / n_src]; it has
    shape [(n_ele, n_ele)], is symmetric and positive semidefinite. *)
Theorem k_pot_symmetric_psd (self : kcsd) :
  dist_table self <> [] ->
  concat (src_x self) <> [] -> concat (src_y self) <> [] ->
  (0 < n_src self)%nat ->
  length (ele_pos self) = n_ele self ->
  exists self' : kcsd,
    update_b_pot self = (Ok tt, self') /\
    k_pot self' = idiv (mat_mul (transpose (b_pot self')) (b_pot self')) (n_src self') /\
    has_shape (n_ele self') (n_ele self') (k_pot self') /\
    symmetric (k_pot self') /\
    pos_semidef (k_pot self').
Proof.
  intros Htab Hsx Hsy Hn Hele.
  eexists. split; [by apply update_b_pot_run|]. simpl.
  pose proof (b_pot_of_shape self) as [HB1 HB2].
  set (B := b_pot_of self) in *. rewrite Hele in HB2.
  assert (Hnc : ncols B = n_ele self).
  { destruct B as [|row B'] eqn:HB.
    - destruct (concat (src_x self)), (concat (src_y self)); done.
    - simpl. by inversion HB2. }
  rewrite gram_tab, Hnc, idiv_tab.
  split; [done|]. split; [apply tab_shape|]. split.
  - unfold symmetric. rewrite transpose_tab. unfold tab.
    apply map_ext. intros i. apply map_ext. intros j. by rewrite dot_comm.
  - intros x Hx. destruct (tab_shape (n_ele self) (n_ele self)
      (fun i j => dot (col i B) (col j B) / ofnat (n_src self))) as [Hlen _].
    rewrite Hlen in Hx. rewrite quad_tab by done.
    rewrite (sum_map_ext _
      (fun i => / ofnat (n_src self)
                * (nth i x 0 * sum (map (fun j => dot (col i B) (col j B) * nth j x 0)
                                        (seq 0 (n_ele self)))))).
    2:{ intros i _. cbv beta.
        rewrite (sum_map_ext _
          (fun j => / ofnat (n_src self) * (dot (col i B) (col j B) * nth j x 0))).
        - rewrite sum_map_scale. ring.
        - intros j _. cbv beta. unfold Qcdiv. ring. }
    rewrite sum_map_scale, <- quad_tab by done. rewrite (quad_gram B) by done.
    apply Qcmult_nonneg_nonneg.
    + apply Qclt_le_weak, Qcinv_pos, ofnat_pos, Hn.
    + apply sum_nonneg, Forall_fmap, Forall_forall. intros row _. apply square_nonneg.
Qed.

End Kernel.

Lemma k_pot_symmetric_psd_witness :
  let self := Examples.placed in
  dist_table self <> [] /\ (0 < n_src self)%nat /\
  length (ele_pos self) = n_ele self /\
  exists self' : kcsd,
    @update_b_pot Reference.numerics self = (Ok tt, self') /\
    k_pot self' = idiv (mat_mul (transpose (b_pot self')) (b_pot self')) (n_src self') /\
    has_shape (n_ele self') (n_ele self') (k_pot self') /\
    symmetric (k_pot self') /\
    pos_semidef (k_pot self').
Proof.
  intros self. split; [done|]. split; [simpl; lia|]. split; [reflexivity|].
  apply (@k_pot_symmetric_psd Reference.numerics self);
    [done | done | done | simpl; lia | reflexivity].
Defined.

(** ** Construction: basis placement and the look up table *)

Section Placement.
Context `{ext : External}.

Lemma basis_2D_lookup (name : string) :
  basis_2D !! name =
    if decide (name = "gauss"%string) then Some gauss_2D
    else if decide (name = "step"%string) then Some step_2D
    else if decide (name = "gauss_lim"%string) then Some gauss_lim_2D
    else None.
Proof.
  unfold basis_2D. rewrite !lookup_insert, lookup_empty.
  repeat case_decide; congruence.
Qed.

Lemma basis_2D_registered (name : string) :
  name ∈ registered <-> is_Some (basis_2D !! name).
Proof.
  rewrite basis_2D_lookup. unfold registered.
  rewrite !elem_of_cons, elem_of_nil.
  repeat case_decide; split; intros Hx; try (by eexists); try tauto;
    by destruct Hx.
Qed.

(** An unregistered shape name stops [place_basis] at its first test. *)
Lemma place_basis_unregistered (self : kcsd) (name : string) :
  src_type self = VStr name ->
  name ∉ registered ->
  place_basis self = (Raise (Exception invalid_source_type), self).
Proof.
  intros Hsrc Hnot. unfold place_basis. rewrite bind_get, Hsrc.
  destruct (basis_2D !! name) as [f|] eqn:Hf; [|done].
  exfalso. apply Hnot, basis_2D_registered. by eexists.
Qed.

(** C7. A shape name outside 'gauss', 'step', 'gauss_lim' makes
    [place_basis] raise before anything is computed or assigned; a
    registered name makes it succeed and binds [self.basis] to the function
    the registry holds for that name. *)
Theorem place_basis_checks_shape (self : kcsd) (name : string) :
  src_type self = VStr name ->
  distribute_law ->
  (name ∉ registered ->
   place_basis self = (Raise (Exception invalid_source_type), self)) /\
  (name ∈ registered ->
   exists (f : basis_fn) (self' : kcsd),
     basis_2D !! name = Some f /\
     place_basis self = (Ok tt, self') /\
     basis self' = Some f).
Proof.
  intros Hsrc Hlaw. split.
  - intros Hnot. by apply (place_basis_unregistered self name).
  - intros Hreg. apply basis_2D_registered in Hreg as [f Hf].
    exists f. unfold place_basis. rewrite bind_get, Hsrc, Hf.
    rewrite bind_assign.
    specialize (Hlaw (estm_x self) (estm_y self) (n_src_init self)
                     (ext_x self) (ext_y self) (R_init self)).
    destruct (distribute_srcs_2D _ _ _ _ _ _) as [[sx sy] r].
    destruct Hlaw as (Hsx & Hsy & Hne).
    assert (Hne' : concat sy <> []).
    { intros E. apply Hne. apply length_zero_iff_nil.
      rewrite (size_shape _ _ _ Hsx), <- (size_shape _ _ _ Hsy), E. done. }
    destruct (concat sx) as [|x lx] eqn:Hcx; [done|].
    destruct (concat sy) as [|y ly] eqn:Hcy; [done|].
    eexists. split; [done|]. split; [reflexivity|]. reflexivity.
Qed.

End Placement.

Lemma reference_distribute_law : @distribute_law Reference.numerics.
Proof.
  intros X Y n ex ey r0. simpl.
  repeat split; try done; repeat constructor.
Qed.

Lemma place_basis_checks_shape_witness :
  let self := Examples.before_placement in
  src_type self = VStr "step" /\
  @place_basis Reference.numerics (set_src_type (VStr "gaus") self)
  = (Raise (Exception invalid_source_type), set_src_type (VStr "gaus") self) /\
  exists (f : basis_fn) (self' : kcsd),
    @basis_2D Reference.numerics !! "step"%string = Some f /\
    @place_basis Reference.numerics self = (Ok tt, self') /\
    basis self' = Some f.
Proof.
  intros self. split; [reflexivity|]. split.
  - apply (@place_basis_checks_shape Reference.numerics
             (set_src_type (VStr "gaus") self) "gaus");
      [reflexivity | exact reference_distribute_law | by_eval].
  - apply (@place_basis_checks_shape Reference.numerics self "step");
      [reflexivity | exact reference_distribute_law | by_eval].
Defined.

Section Lookup_table_size.
Context `{ext : External}.

Lemma update_b_pot_dist_table : preserves dist_table update_b_pot.
Proof. unfold update_b_pot, generated_potential. solve_preserves. Qed.

Lemma update_b_src_dist_table : preserves dist_table update_b_src.
Proof. unfold update_b_src, get_basis. solve_preserves. Qed.

Lemma update_b_interp_pot_dist_table : preserves dist_table update_b_interp_pot.
Proof. unfold update_b_interp_pot, generated_potential. solve_preserves. Qed.

(** [create_lookup] builds a table of [dist_table_density] buckets. *)
Lemma create_lookup_length (k : nat) (self self' : kcsd) :
  interpolate_law ->
  create_lookup k self = (Ok tt, self') ->
  length (dist_table self') = k.
Proof.
  intros Hlaw Hrun. unfold create_lookup in Hrun. rewrite bind_get in Hrun.
  apply bind_inv_Ok in Hrun as (tbl & s1 & _ & Hset).
  inversion Hset; subst. simpl. apply Hlaw.
Qed.

(** [method] always asks for 100 buckets. *)
Lemma method_table_length (self self' : kcsd) :
  interpolate_law ->
  method self = (Ok tt, self') ->
  length (dist_table self') = 100%nat.
Proof.
  intros Hlaw Hrun. unfold method in Hrun.
  apply bind_inv_Ok in Hrun as ([] & s1 & Hlook & Hrun).
  apply bind_inv_Ok in Hrun as ([] & s2 & Hpot & Hrun).
  apply bind_inv_Ok in Hrun as ([] & s3 & Hsrc & Hrun).
  rewrite (update_b_interp_pot_dist_table _ _ _ Hrun).
  rewrite (update_b_src_dist_table _ _ _ Hsrc).
  rewrite (update_b_pot_dist_table _ _ _ Hpot).
  by apply (create_lookup_length 100 self).
Qed.

(** [parameters] reads no option named 'dist_table_density'. *)
Lemma parameters_ignores_density (kwargs : gmap string value) (v : value) :
  parameters (<["dist_table_density" := v]> kwargs) = parameters kwargs.
Proof.
  unfold parameters, kwargs_num. by rewrite !lookup_insert_ne by done.
Qed.

(** C9, as the code has it.  [create_lookup] takes [dist_table_density]
    and builds a table of that many buckets; the constructor passes no value
    (the default 100 applies) and reads no such keyword, so the table built at
    construction has 100 buckets and the constructed object is the same with
    or without a 'dist_table_density' keyword. *)
Theorem constructor_table_has_100_buckets
        (ele_pos0 pots0 : mat) (kwargs : gmap string value) (v : value)
        (self : kcsd) :
  interpolate_law ->
  init ele_pos0 pots0 kwargs new_object = (Ok tt, self) ->
  length (dist_table self) = 100%nat /\
  init ele_pos0 pots0 (<["dist_table_density" := v]> kwargs) new_object
  = (Ok tt, self) /\
  (forall (k : nat) (s s' : kcsd),
      create_lookup k s = (Ok tt, s') -> length (dist_table s') = k).
Proof.
  intros Hlaw Hrun. split; [|split].
  - unfold init in Hrun.
    apply bind_inv_Ok in Hrun as ([] & s1 & _ & Hrun).
    apply bind_inv_Ok in Hrun as ([] & s2 & _ & Hrun).
    apply bind_inv_Ok in Hrun as ([] & s3 & _ & Hrun).
    apply bind_inv_Ok in Hrun as ([] & s4 & _ & Hrun).
    by apply (method_table_length s4).
  - unfold init. by rewrite parameters_ignores_density.
  - intros k s s'. by apply create_lookup_length.
Qed.

End Lookup_table_size.

Lemma reference_interpolate_law : @interpolate_law Reference.numerics.
Proof.
  intros xs probed dt_len. simpl. unfold Reference.interpolate.
  by rewrite length_map, length_seq.
Qed.

(** C9 fails as stated: with [dist_table_density = 50] passed to the
    constructor the table still has 100 buckets. *)
Lemma constructor_ignores_dist_table_density :
  ~ (forall (k : nat) (self : kcsd),
        @init Reference.numerics Examples.ele3 Examples.pots3
          (<["dist_table_density" := VNum (ofnat k)]> Examples.kwargs3) new_object
        = (Ok tt, self) ->
        length (dist_table self) = k).
Proof.
  intros H. specialize (H 50%nat Examples.built).
  assert (Hlen : length (dist_table Examples.built) = 100%nat) by (vm_compute; reflexivity).
  rewrite Hlen in H. discriminate H.
  unfold init. rewrite parameters_ignores_density.
  assert (Hrun : (@init Reference.numerics Examples.ele3 Examples.pots3 Examples.kwargs3
                    new_object).1 = Ok tt) by by_eval.
  fold (@init Reference.numerics Examples.ele3 Examples.pots3 Examples.kwargs3).
  rewrite <- Hrun. unfold Examples.built. apply surjective_pairing.
Qed.

Lemma constructor_table_has_100_buckets_witness :
  let v := VNum (ofZ 50) in
  @init Reference.numerics Examples.ele3 Examples.pots3 Examples.kwargs3 new_object
  = (Ok tt, Examples.built) /\
  length (dist_table Examples.built) = 100%nat /\
  @init Reference.numerics Examples.ele3 Examples.pots3
    (<["dist_table_density" := v]> Examples.kwargs3) new_object
  = (Ok tt, Examples.built) /\
  (forall (k : nat) (s s' : kcsd),
      @create_lookup Reference.numerics k s = (Ok tt, s') -> length (dist_table s') = k).
Proof.
  intros v.
  assert (Hrun : @init Reference.numerics Examples.ele3 Examples.pots3 Examples.kwargs3
                   new_object = (Ok tt, Examples.built)).
  { assert (H : (@init Reference.numerics Examples.ele3 Examples.pots3 Examples.kwargs3
                   new_object).1 = Ok tt) by by_eval.
    rewrite <- H. unfold Examples.built. apply surjective_pairing. }
  split; [exact Hrun|].
  exact (@constructor_table_has_100_buckets Reference.numerics Examples.ele3
           Examples.pots3 Examples.kwargs3 v Examples.built
           reference_interpolate_law Hrun).
Defined.

(** ** The constructor with an unregistered shape name *)

Section Init_invalid.
Context `{ext : External}.

Lemma before_method_kernels (ele_pos0 pots0 : mat) (kwargs : gmap string value) :
  preserves kernels
    (CSD_init ele_pos0 pots0;; parameters kwargs;; estimate_at;; place_basis).
Proof.
  unfold CSD_init, parameters, kwargs_num, estimate_at, place_basis.
  solve_preserves.
Qed.

Lemma parameters_src_type (kwargs : gmap string value) (self self' : kcsd) :
  parameters kwargs self = (Ok tt, self') ->
  src_type self' = default (VStr "gauss") (kwargs !! "src_type"%string).
Proof.
  unfold parameters. rewrite bind_assign. intros H.
  match type of H with ?m _ = _ =>
    assert (Hp : preserves src_type m) by (unfold kwargs_num; solve_preserves)
  end.
  by rewrite (Hp _ _ _ H).
Qed.

Lemma estimate_at_src_type : preserves src_type estimate_at.
Proof. unfold estimate_at. solve_preserves. Qed.

(** With an unregistered shape name the constructor raises, and neither
    the look up table nor any kernel matrix has been built. *)
Lemma init_unregistered (ele_pos0 pots0 : mat) (kwargs : gmap string value)
      (name : string) (r : outcome unit) (self : kcsd) :
  kwargs !! "src_type"%string = Some (VStr name) ->
  name ∉ registered ->
  init ele_pos0 pots0 kwargs new_object = (r, self) ->
  (exists e, r = Raise e) /\ kernels self = kernels new_object.
Proof.
  intros Hk Hname Hrun. unfold init in Hrun.
  assert (Hpre : forall r' s',
             (CSD_init ele_pos0 pots0;; parameters kwargs;; estimate_at;;
              place_basis) new_object = (r', s') ->
             (exists e, r' = Raise e) /\ kernels s' = kernels new_object).
  { intros r' s' H. split; [|eapply before_method_kernels; exact H].
    destruct r' as [[]|e]; [|by eexists]. exfalso.
    apply bind_inv_Ok in H as ([] & s1 & _ & H).
    apply bind_inv_Ok in H as ([] & s2 & H2 & H).
    apply bind_inv_Ok in H as ([] & s3 & H3 & H4).
    apply parameters_src_type in H2. rewrite Hk in H2. simpl in H2.
    apply estimate_at_src_type in H3. rewrite H2 in H3.
    rewrite (place_basis_unregistered s3 name H3 Hname) in H4. done. }
  revert Hrun. unfold bind at 1.
  destruct (CSD_init ele_pos0 pots0 new_object) as [[[]|e1] s1] eqn:E1.
  2:{ intros [= <- <-]. apply (Hpre (Raise e1) s1). unfold bind at 1. by rewrite E1. }
  unfold bind at 1.
  destruct (parameters kwargs s1) as [[[]|e2] s2] eqn:E2.
  2:{ intros [= <- <-]. apply (Hpre (Raise e2) s2).
      unfold bind at 1. rewrite E1. unfold bind at 1. by rewrite E2. }
  unfold bind at 1.
  destruct (estimate_at s2) as [[[]|e3] s3] eqn:E3.
  2:{ intros [= <- <-]. apply (Hpre (Raise e3) s3).
      unfold bind at 1. rewrite E1. unfold bind at 1. rewrite E2.
      unfold bind at 1. by rewrite E3. }
  unfold bind at 1.
  destruct (place_basis s3) as [[[]|e4] s4] eqn:E4.
  - exfalso. destruct (Hpre (Ok tt) s4) as [[e He] _]; [|done].
    unfold bind at 1. rewrite E1. unfold bind at 1. rewrite E2.
    unfold bind at 1. by rewrite E3.
  - intros [= <- <-]. apply (Hpre (Raise e4) s4).
    unfold bind at 1. rewrite E1. unfold bind at 1. rewrite E2.
    unfold bind at 1. by rewrite E3.
Qed.

End Init_invalid.

(** ** Cross validation: the default grids *)


Lemma reference_logspace_law : @logspace_law Reference.numerics.
Proof. unfold logspace_law. by_eval. Qed.

(** ** Cross validation: the error of one candidate *)

Section Fold_error.
Context `{ext : External}.

(** A fold whose training kernel cannot be inverted sets the running error
    to the sentinel, whatever it was, and prints one line. *)
Lemma cverror_fold_singular (lambd0 err : Qc) (idx_train idx_test : list nat)
      (self : kcsd) (B_train V_train V_test B_new : mat) :
  ix_ idx_train idx_train (k_pot self) = Some B_train ->
  take_rows idx_train (pots self) = Some V_train ->
  take_rows idx_test (pots self) = Some V_test ->
  add_mm B_train (mat_scale lambd0 (identity (length idx_train))) = Some B_new ->
  linalg_inv B_new = None ->
  cverror_fold lambd0 err (idx_train, idx_test) self
  = (Ok sentinel, set_stdout (stdout self ++ [(singular_matrix, [])]) self).
Proof.
  intros HB HVt HVs HBn Hinv. unfold cverror_fold.
  rewrite bind_get, HB, bind_lift_Some, HVt, bind_lift_Some, HVs, bind_lift_Some.
  rewrite HBn, bind_lift_Some. unfold try_except_LinAlgError.
  by rewrite Hinv, bind_lift_None.
Qed.

End Fold_error.

(** C5, on the code: the sentinel replaces the error accumulated so far.
    Electrodes 0 and 2 coincide and [lambd = 0]; the folds that leave out
    electrode 0 and electrode 2 each have error 3, the fold that leaves out
    electrode 1 has a singular training kernel.  [compute_cverror] returns
    10003: the error 3 of the first fold is lost. *)
Theorem compute_cverror_overwrites_earlier_folds :
  let self := Examples.coincident in
  let run := @compute_cverror Reference.numerics 0 (leave_one_out 3) self in
  leave_one_out 3 = [([1; 2], [0]); ([0; 2], [1]); ([0; 1], [2])]%nat /\
  (@cverror_fold Reference.numerics 0 0 ([1; 2], [0])%nat self).1 = Ok (ofZ 3) /\
  (@cverror_fold Reference.numerics 0 0 ([0; 2], [1])%nat self).1 = Ok sentinel /\
  (@cverror_fold Reference.numerics 0 0 ([0; 1], [2])%nat self).1 = Ok (ofZ 3) /\
  run.1 = Ok (ofZ 10003) /\
  stdout run.2 = [(singular_matrix, [])] /\
  ofZ 10003 <> ofZ 3 + sentinel + ofZ 3.
Proof.
  repeat split; try reflexivity; by_eval.
Qed.


(** ** Cross validation: every step succeeds *)


Lemma foldl_min_spec (v : vec) (x : Qc) :
  let m := foldl (fun m y => if bool_decide (y < m) then y else m) x v in
  m ∈ x :: v /\ forall e, e ∈ x :: v -> m <= e.
Proof.
  revert x. induction v as [|y v IH]; intros x; simpl.
  - split; [left|]. intros e He. apply list_elem_of_singleton in He. subst. apply Qcle_refl.
  - case_bool_decide as Hlt.
    + destruct (IH y) as [Hin Hle]. split.
      * right. exact Hin.
      * intros e He. apply elem_of_cons in He as [->|He]; [|by apply Hle].
        eapply Qcle_trans; [apply Hle; left|]. by apply Qclt_le_weak.
    + destruct (IH x) as [Hin Hle]. split.
      * apply elem_of_cons in Hin as [->|Hin]; [left | right; by right].
      * intros e He. apply elem_of_cons in He as [->|He]; [apply Hle; left|].
        apply elem_of_cons in He as [->|He]; [|apply Hle; by right].
        eapply Qcle_trans; [apply Hle; left|]. by apply Qcnot_lt_le.
Qed.

Lemma np_min_spec (v : vec) (m : Qc) :
  np_min v = Some m -> m ∈ v /\ forall e, e ∈ v -> m <= e.
Proof.
  destruct v as [|x v]; simpl; [done|]. intros H. inversion H; subst.
  apply foldl_min_spec.
Qed.

Lemma where_eq_head (errs : mat) (m : Qc) (i j : nat) :
  head (where_eq errs m).1 = Some i ->
  head (where_eq errs m).2 = Some j ->
  get2 errs i j = Some m.
Proof.
  unfold where_eq. simpl.
  set (hits := concat _). intros Hi Hj.
  assert (Hin : (i, j) ∈ hits).
  { destruct hits as [|[i' j'] hits']; [done|]. simpl in *.
    inversion Hi; inversion Hj; subst. left. }
  unfold hits in Hin. clear Hi Hj hits.
  apply list_elem_of_In, in_concat in Hin as (l & Hin & Hl).
  apply list_elem_of_In, elem_of_lookup_imap in Hin as (i0 & row & -> & Hrow).
  apply list_elem_of_In, list_elem_of_omap in Hl as ([j0 x] & Hjx & Hg).
  apply elem_of_lookup_imap in Hjx as (j1 & x1 & Heq & Hx).
  inversion Heq; subst. simpl in Hg.
  case_bool_decide; [|done]. inversion Hg; subst.
  unfold get2. by rewrite Hrow.
Qed.



(** ** Index sets of the folds *)

Lemma list_remove_first_lt (x n : nat) (l : list nat) :
  Forall (fun i => (i < n)%nat) l -> Forall (fun i => (i < n)%nat) (list_remove_first x l).
Proof.
  induction 1 as [|y l Hy Hl IH]; simpl; [constructor|].
  destruct (x =? y)%nat; [done | by constructor].
Qed.

Lemma seq_lt (n : nat) : Forall (fun i => (i < n)%nat) (seq 0 n).
Proof. apply Forall_forall. intros i Hi. apply elem_of_seq in Hi. lia. Qed.

Lemma leave_one_out_lt (n : nat) :
  Forall (fun f : list nat * list nat =>
            Forall (fun i => (i < n)%nat) f.1 /\ exists ii, f.2 = [ii] /\ (ii < n)%nat)
         (leave_one_out n).
Proof.
  unfold leave_one_out. apply Forall_fmap, Forall_forall. intros ii Hii. simpl.
  apply elem_of_seq in Hii. split.
  - apply list_remove_first_lt, seq_lt.
  - exists ii. split; [done | lia].
Qed.

(** ** Sub-arrays *)

Lemma has_shape_nth (r c i : nat) (A : mat) :
  has_shape r c A -> (i < r)%nat -> length (nth i A []) = c.
Proof.
  intros [HA1 HA2] Hi.
  apply (Forall_lookup_1 (fun row : vec => length row = c) A i (nth i A []) HA2).
  apply lookup_nth. lia.
Qed.

Lemma take_rows_Some (idx : list nat) (A : mat) (r c : nat) :
  has_shape r c A -> Forall (fun i => (i < r)%nat) idx ->
  exists V, take_rows idx A = Some V /\ has_shape (length idx) c V.
Proof.
  intros HA Hidx. unfold take_rows.
  exists (map (fun i => nth i A []) idx). split.
  - apply mapM_map_Some. intros i Hi. rewrite Forall_forall in Hidx.
    apply lookup_nth. destruct HA as [-> _]. by apply Hidx.
  - split; [by rewrite length_map|]. apply Forall_fmap, Forall_forall. intros i Hi.
    rewrite Forall_forall in Hidx. specialize (Hidx i Hi). simpl.
    by apply (has_shape_nth r).
Qed.

Lemma ix_Some (rows cols : list nat) (A : mat) (r c : nat) :
  has_shape r c A ->
  Forall (fun i => (i < r)%nat) rows -> Forall (fun j => (j < c)%nat) cols ->
  exists V, ix_ rows cols A = Some V /\ has_shape (length rows) (length cols) V.
Proof.
  intros HA Hrows Hcols. unfold ix_.
  exists (map (fun i => map (fun j => nth j (nth i A []) 0) cols) rows). split.
  - apply mapM_map_Some. intros i Hi. rewrite Forall_forall in Hrows.
    specialize (Hrows i Hi).
    rewrite (lookup_nth A i []) by (destruct HA; lia).
    apply mapM_map_Some. intros j Hj. rewrite Forall_forall in Hcols.
    specialize (Hcols j Hj). apply lookup_nth.
    rewrite (has_shape_nth r c) by done. lia.
  - split; [by rewrite length_map|]. apply Forall_fmap, Forall_forall. intros i _.
    simpl. by rewrite length_map.
Qed.

Lemma sub_mm_Some r c A B :
  has_shape r c A -> has_shape r c B -> is_Some (sub_mm A B).
Proof.
  intros HA HB. unfold sub_mm. rewrite (has_shapeb_self _ _ _ HA). simpl.
  replace (has_shapeb (length A) (ncols A) B) with true; [by eexists|].
  symmetry. apply has_shapeb_spec. destruct A as [|row A].
  - destruct HA as [<- _]. destruct HB as [HB _]. destruct B; [|done].
    split; [done | constructor].
  - rewrite (has_shape_ncols _ _ _ HA) by done. destruct HA as [-> _]. done.
Qed.

Lemma dot_mm_Some r c A B :
  has_shape r c A -> length B = c -> dot_mm A B = Some (mat_mul A B).
Proof.
  intros [_ H] HB. unfold dot_mm.
  replace (forallb _ A) with true; [done|]. symmetry. apply forallb_forall.
  intros row Hrow. apply Nat.eqb_eq. rewrite Forall_forall in H.
  rewrite HB. apply H. by apply list_elem_of_In.
Qed.

Lemma mat_mul_shape (A B : mat) : has_shape (length A) (ncols B) (mat_mul A B).
Proof.
  unfold mat_mul. split; [by rewrite length_map|].
  apply Forall_fmap, Forall_forall. intros r _. simpl. by rewrite length_map, length_seq.
Qed.

Section Fold_total.
Context `{ext : External}.

Lemma cverror_fold_Ok (lambd0 err : Qc) (train : list nat) (ii n : nat) (self : kcsd) :
  linalg_inv_law ->
  has_shape n n (k_pot self) ->
  has_shape n (ncols (pots self)) (pots self) ->
  Forall (fun i => (i < n)%nat) train -> (ii < n)%nat ->
  exists (e : Qc) (self' : kcsd),
    cverror_fold lambd0 err (train, [ii]) self = (Ok e, self').
Proof.
  intros Hlaw Hk Hp Htrain Hii.
  assert (Htest : Forall (fun i => (i < n)%nat) [ii]) by (by constructor).
  destruct (ix_Some train train _ _ _ Hk Htrain Htrain) as (B_train & HB & HBs).
  destruct (take_rows_Some train _ _ _ Hp Htrain) as (V_train & HVt & HVts).
  destruct (take_rows_Some [ii] _ _ _ Hp Htest) as (V_test & HVs & HVss).
  destruct (ix_Some [ii] train _ _ _ Hk Htest Htrain) as (B_test & HBt & HBts).
  unfold cverror_fold.
  rewrite bind_get, HB, bind_lift_Some, HVt, bind_lift_Some, HVs, bind_lift_Some.
  erewrite add_mm_Some; [| exact HBs | apply mat_scale_shape, identity_shape].
  rewrite bind_lift_Some. unfold try_except_LinAlgError.
  set (B_new := mat_add B_train _).
  assert (HBn : has_shape (length train) (length train) B_new).
  { apply mat_add_shape; [done|]. apply mat_scale_shape, identity_shape. }
  destruct (linalg_inv B_new) as [B_inv|] eqn:Hinv.
  2:{ rewrite bind_lift_None. eexists _, _. reflexivity. }
  rewrite bind_lift_Some.
  apply Hlaw in Hinv. destruct HBn as [HBn1 HBn2]. rewrite HBn1 in Hinv.
  erewrite dot_mm_Some; [| exact Hinv | apply HVts].
  rewrite bind_lift_Some, HBt, bind_lift_Some.
  set (T := ncols (pots self)) in *.
  set (beta := mat_mul B_inv V_train).
  pose proof (mat_mul_shape B_inv V_train) as Hbeta. fold beta in Hbeta.
  destruct Hinv as [Hinv1 Hinv2]. rewrite Hinv1 in Hbeta.
  set (P := has_shape (length [ii]) T).
  match goal with
  | |- context [for_fold ?xs ?acc ?body] =>
      assert (Hloop : exists V, for_fold xs acc body self = (Ok V, self) /\ P V)
  end.
  { unfold P. clear P.
    assert (Hb : forall V t0, has_shape 1 T V -> t0 ∈ seq 0 (length train) ->
              exists V', for_fold (seq 0 T) V
                (fun V_est0 tt =>
                   b <- lift IndexError (get2 beta t0 tt);;
                   c <- lift IndexError (col_at t0 B_test);;
                   lift ValueError (col_iadd tt (map (fun x => b * x) c) V_est0)) self
                = (Ok V', self) /\ has_shape 1 T V').
    { intros V t0 HV Ht0. apply elem_of_seq in Ht0.
      assert (HncV : ncols V_train = T).
      { destruct HVts as [HV1 HV2]. destruct V_train as [|row V']; [simpl in *; lia|].
        simpl. by inversion HV2. }
      rewrite HncV in Hbeta.
      eexists. apply (for_fold_pure (has_shape 1 T)
        (fun V0 tt => col_add tt (map (fun x => nth tt (nth t0 beta []) 0 * x)
                                      (col t0 B_test)) V0)); [|done].
      intros V0 tt HV0 Htt. apply elem_of_seq in Htt.
      unfold get2. rewrite (lookup_nth beta t0 []) by (destruct Hbeta; lia).
      rewrite (lookup_nth _ tt 0) by (rewrite (has_shape_nth _ T) by (done || lia); lia).
      rewrite bind_lift_Some.
      erewrite col_at_Some; [| exact HBts | lia]. rewrite bind_lift_Some.
      assert (Hlen : length (map (fun x => nth tt (nth t0 beta []) 0 * x) (col t0 B_test))
                     = 1%nat).
      { rewrite length_map, col_length. apply HBts. }
      erewrite col_iadd_Some; [| exact HV0 | exact Hlen | lia].
      split; [done|]. by apply col_add_shape. }
    assert (Hall : forall ts V, has_shape 1 T V -> ts ⊆ seq 0 (length train) ->
              exists V', for_fold ts V
                (fun V_est t0 => for_fold (seq 0 T) V_est
                   (fun V_est0 tt =>
                      b <- lift IndexError (get2 beta t0 tt);;
                      c <- lift IndexError (col_at t0 B_test);;
                      lift ValueError (col_iadd tt (map (fun x => b * x) c) V_est0))) self
                = (Ok V', self) /\ has_shape 1 T V').
    { induction ts as [|t0 ts IH]; intros V HV Hsub.
      - exists V. done.
      - destruct (Hb V t0 HV) as (V1 & Hrun1 & HV1); [apply Hsub; left|].
        destruct (IH V1 HV1) as (V2 & Hrun2 & HV2).
        { intros x Hx. apply Hsub. by right. }
        exists V2. split; [|done]. cbn [for_fold].
        by rewrite (bind_Ok _ _ _ _ _ Hrun1). }
    apply Hall; [apply zeros2_shape | done]. }
  destruct Hloop as (V_est & Hrun & HV).
  rewrite (bind_Ok _ _ _ _ _ Hrun).
  destruct (sub_mm_Some _ _ V_est V_test HV HVss) as [D ->].
  eexists _, _. reflexivity.
Qed.
End Fold_total.

Section CV_total.
Context `{ext : External}.

Lemma cverror_fold_keeps (lambd0 err : Qc) (fold : list nat * list nat) :
  preserves (fun s => (k_pot s, pots s)) (cverror_fold lambd0 err fold).
Proof. unfold cverror_fold. destruct fold. solve_preserves. Qed.

Lemma compute_cverror_Ok (lambd0 : Qc) (n : nat) (self : kcsd) :
  linalg_inv_law ->
  has_shape n n (k_pot self) ->
  has_shape n (ncols (pots self)) (pots self) ->
  exists (e : Qc) (self' : kcsd),
    compute_cverror lambd0 (leave_one_out n) self = (Ok e, self').
Proof.
  intros Hlaw. unfold compute_cverror. generalize (leave_one_out_lt n).
  generalize (leave_one_out n) as folds. generalize 0 as err. 
  intros err folds. revert err self.
  induction folds as [|[train test] folds IH]; intros err self Hfolds Hk Hp.
  - eexists _, _. reflexivity.
  - inversion Hfolds as [|? ? [Htrain (ii & Htest & Hii)] Hrest]; subst. simpl in *. subst test.
    destruct (cverror_fold_Ok lambd0 err train ii n self Hlaw Hk Hp Htrain Hii)
      as (e1 & s1 & Hrun1).
    pose proof (cverror_fold_keeps _ _ _ _ _ _ Hrun1) as Hkeep. simpl in Hkeep.
    inversion Hkeep as [[Hk1 Hp1]].
    destruct (IH e1 s1 Hrest) as (e2 & s2 & Hrun2); [by rewrite Hk1 | by rewrite Hp1 |].
    exists e2, s2. by rewrite (bind_Ok _ _ _ _ _ Hrun1).
Qed.

End CV_total.

Lemma constructed_placement (s1 s2 : kcsd) :
  placement s2 = placement s1 -> constructed s2 = constructed s1.
Proof. unfold placement, constructed. intros H. by inversion H. Qed.

Lemma for_map_pure {A B} (g : A -> B) (xs : list A) (body : A -> M B) (self : kcsd) :
  (forall x, x ∈ xs -> body x self = (Ok (g x), self)) ->
  for_map xs body self = (Ok (map g xs), self).
Proof.
  induction xs as [|x xs IH]; intros H; simpl; [done|].
  rewrite (bind_Ok _ _ _ _ _ (H x ltac:(left))).
  rewrite (bind_Ok _ _ self (map g xs) self); [done|].
  apply IH. intros y Hy. apply H. by right.
Qed.

Section Method_total.
Context `{ext : External}.

Lemma method_placement : preserves placement method.
Proof.
  unfold method, create_lookup, update_b_pot, update_b_src, update_b_interp_pot,
    generated_potential, get_basis.
  solve_preserves.
Qed.

Lemma get_basis_run (self : kcsd) (f : basis_fn) :
  basis self = Some f -> get_basis self = (Ok f, self).
Proof. intros Hf. unfold get_basis. by rewrite bind_get, Hf. Qed.

Lemma create_lookup_run (k : nat) (self : kcsd) (f : basis_fn) :
  basis self = Some f ->
  exists table, create_lookup k self = (Ok tt, set_dist_table table self) /\
                table = interpolate_dist_table
                          (sparse_dist_table (R self) (dist_max self) k)
                          (map (fun x => forward_model (x / ofnat k * dist_max self)
                                           (R self) (h self) (sigma self) f)
                               (sparse_dist_table (R self) (dist_max self) k)) k.
Proof.
  intros Hf. eexists. split; [|reflexivity].
  unfold create_lookup. rewrite bind_get.
  erewrite bind_Ok; [reflexivity|].
  apply for_map_pure. intros x _. cbv zeta.
  by rewrite (bind_Ok _ _ _ _ _ (get_basis_run self f Hf)).
Qed.

Lemma update_b_src_Ok (self : kcsd) (f : basis_fn) :
  basis self = Some f ->
  has_shape (nsx self) (nsy self) (src_x self) ->
  has_shape (nsx self) (nsy self) (src_y self) ->
  n_src self = (nsx self * nsy self)%nat ->
  length (b_pot self) = n_src self ->
  exists self' : kcsd, update_b_src self = (Ok tt, self').
Proof.
  intros Hf Hsx Hsy Hn HB. unfold update_b_src. rewrite bind_get.
  set (g := fun i : nat =>
         zip_with (fun x y => f x y
                     (nth (i mod nsy self) (nth (i / nsy self) (src_x self) []) 0,
                      nth (i mod nsy self) (nth (i / nsy self) (src_y self) []) 0)
                     (R self))
                  (concat (estm_x self)) (concat (estm_y self))).
  erewrite bind_Ok.
  2:{ apply (for_map_pure g). intros i Hi. apply elem_of_seq in Hi.
      assert (Hlt : (i < nsx self * nsy self)%nat) by lia.
      apply Nat.ltb_lt in Hlt as Hltb. rewrite Hltb.
      assert (Hy : (0 < nsy self)%nat) by (destruct (nsy self); lia).
      assert (Hdiv : (i / nsy self < nsx self)%nat)
        by (apply Nat.Div0.div_lt_upper_bound; lia).
      assert (Hmod : (i mod nsy self < nsy self)%nat) by (apply Nat.mod_upper_bound; lia).
      unfold unravel_index, get2.
      rewrite (bind_Ok _ _ self tt self) by done.
      rewrite (lookup_nth (src_x self) _ []) by (destruct Hsx; lia).
      rewrite (lookup_nth (nth _ (src_x self) []) _ 0)
        by (rewrite (has_shape_nth _ (nsy self)) by done; lia).
      rewrite bind_lift_Some.
      rewrite (lookup_nth (src_y self) _ []) by (destruct Hsy; lia).
      rewrite (lookup_nth (nth _ (src_y self) []) _ 0)
        by (rewrite (has_shape_nth _ (nsy self)) by done; lia).
      rewrite bind_lift_Some.
      by rewrite (bind_Ok _ _ _ _ _ (get_basis_run self f Hf)). }
  rewrite bind_assign.
  erewrite dot_mm_Some; [eexists; reflexivity | | exact HB].
  split; [by rewrite length_map, length_seq|].
  apply Forall_fmap, Forall_forall. intros p _. simpl.
  by rewrite !length_map, length_seq.
Qed.

Lemma update_b_interp_pot_Ok (self : kcsd) :
  dist_table self <> [] ->
  length (b_pot self)
  = length (zip_with (fun x y : Qc => [x; y]) (concat (src_x self)) (concat (src_y self))) ->
  exists self' : kcsd, update_b_interp_pot self = (Ok tt, self').
Proof.
  intros Hne HB. unfold update_b_interp_pot. rewrite bind_get.
  match goal with
  | |- context [generated_potential ?d] =>
      destruct (generated_potential_Ok d self Hne) as (pot & Hrun & Hpot)
  end.
  rewrite (bind_Ok _ _ _ _ _ Hrun), bind_assign, bind_get. simpl.
  erewrite dot_mm_Some; [eexists; reflexivity | | exact HB].
  split; [reflexivity|].
  apply Forall_forall. intros r Hr. unfold transpose in Hr.
  apply list_elem_of_fmap in Hr as (j & -> & _). rewrite col_length, Hpot.
  unfold cdist. by rewrite !length_map.
Qed.

Lemma method_Ok (self : kcsd) :
  interpolate_law ->
  constructed self = true ->
  exists self' : kcsd,
    method self = (Ok tt, self') /\
    has_shape (n_ele self) (n_ele self) (k_pot self').
Proof.
  intros Hlaw Hc. unfold constructed in Hc.
  rewrite !andb_true_iff, !Nat.eqb_eq, Nat.ltb_lt, !has_shapeb_spec in Hc.
  destruct Hc as [[[[[[Hb Hsx] Hsy] Hn] Hpos] Hele] Hp].
  destruct (basis self) as [f|] eqn:Hf; [|done].
  unfold method.
  (* create_lookup *)
  destruct (create_lookup_run 100 self f Hf) as (table & Hrun & Htab).
  rewrite (bind_Ok _ _ _ _ _ Hrun).
  assert (Hlen : length table = 100%nat) by (rewrite Htab; apply Hlaw).
  set (s1 := set_dist_table table self).
  (* update_b_pot *)
  assert (Hne : dist_table s1 <> []) by (simpl; by destruct table).
  rewrite (bind_Ok _ _ _ _ _ (update_b_pot_run s1 Hne)).
  set (B := b_pot_of s1).
  set (s2 := set_k_pot _ (set_k_pot _ (set_b_pot B s1))).
  assert (HB : has_shape (n_src self) (n_ele self) B).
  { pose proof (b_pot_of_shape s1) as HB. simpl in HB.
    rewrite length_zip_with, (size_shape _ _ _ Hsx), (size_shape _ _ _ Hsy) in HB.
    rewrite Nat.min_id, <- Hn, Hele in HB. exact HB. }
  assert (HBlen : length B = n_src self) by apply HB.
  (* update_b_src *)
  destruct (update_b_src_Ok s2 f) as (s3 & Hrun3); try done.
  rewrite (bind_Ok _ _ _ _ _ Hrun3).
  (* update_b_interp_pot *)
  pose proof (update_b_src_dist_table _ _ _ Hrun3) as Ht3.
  assert (Hp3 : preserves (fun s => (b_pot s, src_x s, src_y s, k_pot s)) update_b_src).
  { unfold update_b_src, get_basis. solve_preserves. }
  apply Hp3 in Hrun3 as Hkeep3. injection Hkeep3 as Hb3 Hx3 Hy3 Hk3.
  destruct (update_b_interp_pot_Ok s3) as (s4 & Hrun4).
  { by rewrite Ht3. }
  { rewrite Hb3, Hx3, Hy3, length_zip_with, (size_shape _ _ _ Hsx), (size_shape _ _ _ Hsy).
    rewrite Nat.min_id. lia. }
  exists s4. split; [exact Hrun4|].
  assert (Hp4 : preserves k_pot update_b_interp_pot).
  { unfold update_b_interp_pot, generated_potential. solve_preserves. }
  rewrite (Hp4 _ _ _ Hrun4), Hk3.
  assert (Hnc : ncols B = n_ele self).
  { destruct HB as [HB1 HB2]. destruct B as [|row B'] eqn:HBe; [simpl in *; lia|].
    simpl. by inversion HB2. }
  change (k_pot s2) with (idiv (mat_mul (transpose B) B) (n_src s1)).
  rewrite gram_tab, Hnc, idiv_tab. apply tab_shape.
Qed.
End Method_total.

Lemma for_map_Ok {A B} (I : kcsd -> Prop) (Q : B -> Prop) (xs : list A)
      (body : A -> M B) :
  (forall x s, I s -> exists y s', body x s = (Ok y, s') /\ I s' /\ Q y) ->
  forall s, I s ->
    exists ys s', for_map xs body s = (Ok ys, s') /\ I s' /\
                  length ys = length xs /\ Forall Q ys.
Proof.
  intros Hb. induction xs as [|x xs IH]; intros s Hs; simpl.
  - by exists [], s.
  - destruct (Hb x s Hs) as (y & s1 & Hrun1 & Hs1 & Hy).
    destruct (IH s1 Hs1) as (ys & s2 & Hrun2 & Hs2 & Hlen & Hys).
    exists (y :: ys), s2. rewrite (bind_Ok _ _ _ _ _ Hrun1), (bind_Ok _ _ _ _ _ Hrun2).
    simpl. rewrite Hlen. repeat split; try done. by constructor.
Qed.

Lemma np_max_Some (v : vec) : v <> [] -> is_Some (np_max v).
Proof. destruct v; [done | by eexists]. Qed.

Lemma np_min_Some (v : vec) : v <> [] -> is_Some (np_min v).
Proof. destruct v; [done | by eexists]. Qed.

Section Search_total.
Context `{ext : External}.

Lemma update_R_Ok (R0 : Qc) (self : kcsd) :
  interpolate_law ->
  constructed self = true ->
  exists self' : kcsd,
    update_R R0 self = (Ok tt, self') /\
    placement self' = placement self /\
    has_shape (n_ele self) (n_ele self) (k_pot self').
Proof.
  intros Hlaw Hc. pose proof Hc as Hc'. unfold constructed in Hc'.
  rewrite !andb_true_iff, !Nat.eqb_eq, Nat.ltb_lt, !has_shapeb_spec in Hc'.
  destruct Hc' as [[[[[[Hb Hsx] Hsy] Hn] Hpos] Hele] Hp].
  assert (Hx : concat (src_x self) <> []).
  { intros E. pose proof (size_shape _ _ _ Hsx) as Hs. rewrite E in Hs. simpl in Hs. lia. }
  assert (Hy : concat (src_y self) <> []).
  { intros E. pose proof (size_shape _ _ _ Hsy) as Hs. rewrite E in Hs. simpl in Hs. lia. }
  unfold update_R. rewrite bind_assign, bind_get. simpl.
  destruct (np_max_Some _ Hx) as [a ->]. destruct (np_min_Some _ Hx) as [b ->].
  destruct (np_max_Some _ Hy) as [c ->]. destruct (np_min_Some _ Hy) as [d ->].
  rewrite !bind_lift_Some, bind_assign.
  match goal with
  | |- context [method ?s] =>
      destruct (method_Ok s Hlaw) as (s' & Hrun & Hk); [exact Hc|];
      exists s'; split; [exact Hrun|]; split; [|exact Hk];
      apply (method_placement _ _ _ Hrun)
  end.
Qed.

Lemma compute_cverror_placement (lambd0 : Qc) (folds : list (list nat * list nat)) :
  preserves (fun s => (placement s, k_pot s)) (compute_cverror lambd0 folds).
Proof. unfold compute_cverror, cverror_fold. solve_preserves. Qed.

Lemma cv_errors_Ok (Rs lambdas : vec) (self : kcsd) :
  interpolate_law -> linalg_inv_law ->
  constructed self = true ->
  exists (errs : mat) (self' : kcsd),
    cv_errors Rs lambdas (leave_one_out (n_ele self)) self = (Ok errs, self') /\
    placement self' = placement self /\
    has_shape (length Rs) (length lambdas) errs.
Proof.
  intros Hli Hlv Hc. unfold cv_errors.
  set (n := n_ele self).
  destruct (for_map_Ok (fun s => placement s = placement self)
              (fun row : vec => length row = length lambdas) Rs
              (fun R0 => update_R R0;; print "Cross validating R (all lambda) :" [R0];;
                         for_map lambdas (fun lambd0 =>
                           compute_cverror lambd0 (leave_one_out n)))) with (s := self)
    as (errs & s' & Hrun & Hs' & Hlen & Hrows); [| done |].
  - intros R0 s Hs.
    assert (Hcs : constructed s = true) by (by rewrite (constructed_placement self s)).
    destruct (update_R_Ok R0 s Hli Hcs) as (s1 & Hrun1 & Hp1 & Hk1).
    rewrite (bind_Ok _ _ _ _ _ Hrun1). unfold print. rewrite bind_assign.
    set (s2 := set_stdout _ s1).
    assert (Hn : n_ele s = n) by (unfold placement in Hs; by inversion Hs).
    destruct (for_map_Ok
      (fun t => placement t = placement self /\ k_pot t = k_pot s1) (fun _ => True) lambdas
      (fun lambd0 => compute_cverror lambd0 (leave_one_out n))) with (s := s2)
      as (row & s3 & Hrun3 & [Hs3 _] & Hlen3 & _).
    + intros lambd0 t [Ht Hkt].
      assert (Hct : constructed t = true) by (by rewrite (constructed_placement self t)).
      unfold constructed in Hct.
      rewrite !andb_true_iff, !has_shapeb_spec in Hct. destruct Hct as [_ Hpt].
      assert (Hnt : n_ele t = n) by (unfold placement in Ht; by inversion Ht).
      destruct (compute_cverror_Ok lambd0 n t Hlv) as (e & t' & Hrun').
      { rewrite Hkt. by rewrite <- Hn. }
      { by rewrite <- Hnt. }
      exists e, t'. split; [done|].
      apply compute_cverror_placement in Hrun' as Hkeep.
      pose proof (f_equal fst Hkeep) as Hp'. pose proof (f_equal snd Hkeep) as Hk'.
      simpl in Hp', Hk'. split; [|done]. split; congruence.
    + split; [|done]. change (placement s2) with (placement s1). congruence.
    + exists row, s3. done.
  - exists errs, s'. done.
Qed.

End Search_total.

Lemma np_any_nonempty (v : vec) : np_any (Some v) = true -> v <> [].
Proof. by destruct v. Qed.

Lemma where_eq_nonempty (errs : mat) (m : Qc) :
  m ∈ concat errs ->
  exists i j, head (where_eq errs m).1 = Some i /\ head (where_eq errs m).2 = Some j.
Proof.
  intros Hm. apply list_elem_of_In, in_concat in Hm as (row & Hrow & Hm).
  apply list_elem_of_In, list_elem_of_lookup in Hrow as [i0 Hi0].
  apply list_elem_of_In, list_elem_of_lookup in Hm as [j0 Hj0].
  unfold where_eq. simpl. set (hits := concat _).
  assert (Hin : (i0, j0) ∈ hits).
  { unfold hits. apply list_elem_of_In, in_concat.
    eexists. split.
    - apply list_elem_of_In, elem_of_lookup_imap. exists i0, row. split; [reflexivity|done].
    - apply list_elem_of_In, list_elem_of_omap. exists (j0, m). split.
      + apply elem_of_lookup_imap. by exists j0, m.
      + simpl. by rewrite bool_decide_eq_true_2. }
  destruct hits as [|[i j] hits']; [by apply elem_of_nil in Hin|].
  by exists i, j.
Qed.

Section Cross_validate_total.
Context `{ext : External}.

Lemma lambdas_or_default_nonempty (lambdas : option vec) :
  logspace_law -> lambdas_or_default lambdas <> [].
Proof.
  intros [Hlen _]. unfold lambdas_or_default.
  destruct (np_any lambdas) eqn:Hany; simpl.
  - destruct lambdas as [v|]; [by apply np_any_nonempty | done].
  - intros E. by rewrite E in Hlen.
Qed.

Lemma Rs_or_default_nonempty (Rs : option vec) (self : kcsd) :
  Rs_or_default Rs self <> [].
Proof.
  unfold Rs_or_default. destruct (np_any Rs) eqn:Hany; simpl; [|done].
  destruct Rs as [v|]; [by apply np_any_nonempty | done].
Qed.

Lemma cross_validate_Ok (lambdas Rs : option vec) (self : kcsd) :
  interpolate_law -> linalg_inv_law -> logspace_law ->
  constructed self = true ->
  exists (r : retval) (self' : kcsd), cross_validate lambdas Rs self = (Ok r, self').
Proof.
  intros Hli Hlv Hlog Hc. unfold cross_validate. rewrite bind_get.
  destruct (cv_errors_Ok (Rs_or_default Rs self) (lambdas_or_default lambdas) self
              Hli Hlv Hc) as (errs & s1 & Hrun & Hp1 & Herrs).
  rewrite (bind_Ok _ _ _ _ _ Hrun).
  assert (Hne : concat errs <> []).
  { pose proof (Rs_or_default_nonempty Rs self) as HR.
    pose proof (lambdas_or_default_nonempty lambdas Hlog) as HL.
    destruct Herrs as [H1 H2]. destruct errs as [|row errs'].
    - destruct (Rs_or_default Rs self); done.
    - inversion H2; subst. destruct row; [|done].
      by destruct (lambdas_or_default lambdas). }
  destruct (np_min_Some _ Hne) as [m Hm]. rewrite Hm, bind_lift_Some.
  destruct (np_min_spec _ _ Hm) as [Hin _].
  destruct (where_eq_nonempty errs m Hin) as (i & j & Hi & Hj).
  pose proof (where_eq_head errs m i j Hi Hj) as Hget.
  rewrite Hi, Hj. simpl.
  unfold get2 in Hget. destruct (errs !! i) as [row|] eqn:Hrow; [|done].
  assert (Hilt : (i < length (Rs_or_default Rs self))%nat).
  { destruct Herrs as [<- _]. by apply lookup_lt_Some in Hrow. }
  assert (Hjlt : (j < length (lambdas_or_default lambdas))%nat).
  { destruct Herrs as [_ H2]. rewrite <- (Forall_lookup_1 _ _ _ _ H2 Hrow).
    by apply lookup_lt_Some in Hget. }
  destruct (lookup_lt_is_Some_2 _ _ Hilt) as [cv_R ->].
  destruct (lookup_lt_is_Some_2 _ _ Hjlt) as [cv_lambda ->].
  rewrite !bind_lift_Some, bind_assign.
  destruct (update_R_Ok cv_R (set_cv_error (Some m) s1) Hli) as (s2 & Hrun2 & _).
  { rewrite <- Hc. apply constructed_placement. by rewrite <- Hp1. }
  rewrite (bind_Ok _ _ _ _ _ Hrun2).
  eexists _, _. reflexivity.
Qed.

End Cross_validate_total.

Lemma find_pivot_rows (k : nat) (rows : mat) (p : vec) (rest : mat) (P : vec -> Prop) :
  Reference.find_pivot k rows = Some (p, rest) ->
  Forall P rows -> P p /\ Forall P rest /\ length rows = S (length rest).
Proof.
  revert p rest. induction rows as [|r rows IH]; intros p rest Hf HP; simpl in Hf; [done|].
  inversion HP as [|? ? Hr Hrows]; subst.
  case_bool_decide.
  - destruct (Reference.find_pivot k rows) as [[p' rest']|] eqn:Hf'; [|done].
    inversion Hf; subst. destruct (IH _ _ eq_refl Hrows) as (Hp & Hrest & Hlen).
    split; [done|]. split; [by constructor|]. simpl. by rewrite Hlen.
  - inversion Hf; subst. done.
Qed.

Lemma gauss_jordan_rows (L : nat) (ks : list nat) (done0 todo rows : mat) :
  Reference.gauss_jordan ks done0 todo = Some rows ->
  Forall (fun r : vec => length r = L) done0 ->
  Forall (fun r : vec => length r = L) todo ->
  (length ks <= length todo)%nat ->
  Forall (fun r : vec => length r = L) rows /\
  length rows = (length done0 + length ks)%nat.
Proof.
  revert done0 todo. induction ks as [|k ks IH]; intros done0 todo Hg Hd Ht Hlen;
    simpl in Hg.
  - inversion Hg; subst. split; [done|]. simpl. lia.
  - destruct (Reference.find_pivot k todo) as [[p rest]|] eqn:Hf; [|done].
    destruct (find_pivot_rows _ _ _ _ _ Hf Ht) as (Hp & Hrest & Hl).
    assert (Hp' : length (vscale (/ nth k p 0) p) = L).
    { unfold vscale. by rewrite length_map. }
    assert (Hel : forall rs, Forall (fun r : vec => length r = L) rs ->
              Forall (fun r : vec => length r = L)
                     (map (Reference.eliminate k (vscale (/ nth k p 0) p)) rs)).
    { intros rs Hrs. apply Forall_fmap. eapply Forall_impl; [exact Hrs|].
      intros r Hr. simpl. unfold Reference.eliminate. rewrite length_zip_with.
      simpl in Hr. lia. }
    apply IH in Hg as [Hrows Hlrows].
    + split; [done|]. rewrite Hlrows, length_app, length_map. simpl. lia.
    + apply Forall_app. split; [by apply Hel | by repeat constructor].
    + by apply Hel.
    + rewrite length_map. simpl in Hlen. lia.
Qed.

Lemma reference_linalg_inv_law : @linalg_inv_law Reference.numerics.
Proof.
  intros A B. simpl. unfold Reference.inv.
  destruct (has_shapeb (length A) (length A) A) eqn:HA; [|done].
  apply has_shapeb_spec in HA as [_ HA].
  destruct (Reference.gauss_jordan _ _ _) as [rows|] eqn:Hg; [|done].
  intros H. inversion H; subst; clear H.
  apply (gauss_jordan_rows (length A + length A)) in Hg as [Hrows Hlen].
  - split; [by rewrite length_map, Hlen, length_seq|].
    apply Forall_fmap. eapply Forall_impl; [exact Hrows|]. intros r Hr. simpl in *.
    rewrite length_drop. lia.
  - constructor.
  - apply Forall_forall. intros r Hr.
    apply list_elem_of_lookup in Hr as [i Hi].
    apply lookup_zip_with_Some in Hi as (a & b & -> & Ha & Hb).
    rewrite length_app.
    rewrite (Forall_lookup_1 _ _ _ _ HA Ha).
    destruct (identity_shape (length A)) as [_ HI].
    by rewrite (Forall_lookup_1 _ _ _ _ HI Hb).
  - rewrite length_seq, length_zip_with.
    destruct (identity_shape (length A)) as [-> _]. lia.
Qed.

(** ** The constructor establishes what the methods rely on *)

Section Init.
Context `{ext : External}.

Lemma parameters_keeps (kwargs : gmap string value) :
  preserves (fun s => (ele_pos s, n_ele s, pots s, n_time s)) (parameters kwargs).
Proof. unfold parameters, kwargs_num. solve_preserves. Qed.

Lemma estimate_at_keeps :
  preserves (fun s => (ele_pos s, n_ele s, pots s, n_time s)) estimate_at.
Proof. unfold estimate_at. solve_preserves. Qed.

Lemma place_basis_Ok_inv (self self' : kcsd) :
  distribute_law ->
  place_basis self = (Ok tt, self') ->
  is_Some (basis self') /\
  has_shape (nsx self') (nsy self') (src_x self') /\
  has_shape (nsx self') (nsy self') (src_y self') /\
  n_src self' = (nsx self' * nsy self')%nat /\
  (0 < n_src self')%nat /\
  (ele_pos self', n_ele self', pots self', n_time self')
  = (ele_pos self, n_ele self, pots self, n_time self).
Proof.
  intros Hlaw Hrun. unfold place_basis in Hrun. rewrite bind_get in Hrun.
  destruct (match src_type self with VStr name => basis_2D !! name | VNum _ => None end)
    as [f|]; [|done].
  rewrite bind_assign in Hrun.
  specialize (Hlaw (estm_x self) (estm_y self) (n_src_init self)
                   (ext_x self) (ext_y self) (R_init self)).
  destruct (distribute_srcs_2D _ _ _ _ _ _) as [[sx sy] r].
  destruct Hlaw as (Hsx & Hsy & Hne).
  rewrite !bind_assign in Hrun.
  destruct (np_max (concat sx)); [|done]. rewrite bind_lift_Some in Hrun.
  destruct (np_min (concat sx)); [|done]. rewrite bind_lift_Some in Hrun.
  destruct (np_max (concat sy)); [|done]. rewrite bind_lift_Some in Hrun.
  destruct (np_min (concat sy)); [|done]. rewrite bind_lift_Some in Hrun.
  rewrite !bind_assign in Hrun. inversion Hrun; subst; clear Hrun. simpl.
  split; [by eexists|]. split; [done|]. split; [done|].
  unfold size. rewrite (size_shape _ _ _ Hsx). split; [done|]. split; [|done].
  rewrite <- (size_shape _ _ _ Hsx). destruct (concat sx); [done | simpl; lia].
Qed.

End Init.

Lemma idiv_shape (r c n : nat) (A : mat) : has_shape r c A -> has_shape r c (idiv A n).
Proof.
  intros [H1 H2]. unfold idiv. split; [by rewrite length_map|].
  apply Forall_fmap. eapply Forall_impl; [exact H2|]. intros row Hrow. simpl.
  by rewrite length_map.
Qed.

Lemma mgrid_sizes (x0 x1 nx y0 y1 ny : Qc) :
  let '(ex, ey) := mgrid x0 x1 nx y0 y1 ny in
  size ex = (length (mgrid_axis x0 x1 nx) * length (mgrid_axis y0 y1 ny))%nat /\
  size ey = (length (mgrid_axis x0 x1 nx) * length (mgrid_axis y0 y1 ny))%nat.
Proof.
  unfold mgrid, size. split.
  - apply concat_length_shape; [by rewrite length_map|].
    apply Forall_fmap, Forall_forall. intros x _. simpl. by rewrite length_map.
  - apply concat_length_shape; [by rewrite length_map|].
    apply Forall_fmap, Forall_forall. intros x _. done.
Qed.

Section Assembled.
Context `{ext : External}.

Lemma estimate_at_gridded (self self' : kcsd) r :
  estimate_at self = (r, self') -> gridded self'.
Proof.
  unfold estimate_at. rewrite bind_get.
  pose proof (mgrid_sizes (xmin self) (xmax self) ((xmax self - xmin self) / gdx self)
                (ymin self) (ymax self) ((ymax self - ymin self) / gdy self)) as Hs.
  destruct (mgrid _ _ _ _ _ _) as [ex ey]. destruct Hs as [Hx Hy].
  rewrite !bind_assign. intros H. inversion H; subst. unfold gridded. simpl.
  rewrite Hy, Hx. done.
Qed.

Lemma update_b_src_shape (self self' : kcsd) :
  update_b_src self = (Ok tt, self') ->
  has_shape (n_estm self) (ncols (b_pot self)) (k_interp_cross self').
Proof.
  unfold update_b_src. rewrite bind_get. intros H.
  apply bind_inv_Ok in H as (columns & s1 & _ & H).
  rewrite bind_assign in H.
  apply bind_inv_Ok in H as (k & s2 & Hk & H).
  rewrite bind_assign, bind_get in H. inversion H; subst; clear H. simpl.
  unfold dot_mm in Hk. destruct (forallb _ _); [|done]. inversion Hk; subst. simpl.
  apply idiv_shape.
  match goal with |- has_shape _ _ (mat_mul ?A ?B) =>
    pose proof (mat_mul_shape A B) as Hs end.
  by rewrite length_map, length_seq in Hs.
Qed.

Lemma update_b_interp_pot_shape (self self' : kcsd) :
  dist_table self <> [] ->
  update_b_interp_pot self = (Ok tt, self') ->
  concat (src_x self) <> [] -> concat (src_y self) <> [] ->
  has_shape (Nat.min (size (estm_x self)) (size (estm_y self))) (ncols (b_pot self))
            (k_interp_pot self').
Proof.
  intros Hne. unfold update_b_interp_pot. rewrite bind_get.
  match goal with
  | |- context [generated_potential ?d] =>
      destruct (generated_potential_Ok d self Hne) as (pot & Hrun & Hpot)
  end.
  rewrite (bind_Ok _ _ _ _ _ Hrun), bind_assign, bind_get. simpl.
  intros H Hx Hy.
  apply bind_inv_Ok in H as (k & s2 & Hk & H).
  rewrite bind_assign, bind_get in H. inversion H; subst; clear H. simpl.
  unfold dot_mm in Hk. destruct (forallb _ _); [|done]. inversion Hk; subst. simpl.
  apply idiv_shape.
  match goal with |- has_shape _ _ (mat_mul ?A ?B) =>
    pose proof (mat_mul_shape A B) as Hs end.
  unfold transpose in Hs at 1. rewrite length_map, length_seq in Hs.
  match type of Hs with has_shape (ncols ?G) _ _ =>
    assert (Hnc : ncols G = Nat.min (size (estm_x self)) (size (estm_y self))) end.
  { unfold cdist. destruct (concat (src_x self)) as [|a la]; [done|].
    destruct (concat (src_y self)) as [|b lb]; [done|]. simpl.
    by rewrite !length_map, length_zip_with. }
  by rewrite Hnc in Hs.
Qed.

End Assembled.

Section Init_assembled.
Context `{ext : External}.

Lemma create_lookup_inputs k :
  preserves (fun s => (inputs s, b_pot s, k_pot s, k_interp_cross s)) (create_lookup k).
Proof. unfold create_lookup, get_basis. solve_preserves. Qed.

Lemma update_b_pot_inputs : preserves inputs update_b_pot.
Proof. unfold update_b_pot, generated_potential. solve_preserves. Qed.

Lemma update_b_src_inputs :
  preserves (fun s => (inputs s, b_pot s, k_pot s, dist_table s)) update_b_src.
Proof. unfold update_b_src, get_basis. solve_preserves. Qed.

Lemma update_b_interp_pot_inputs :
  preserves (fun s => (inputs s, b_pot s, k_pot s, k_interp_cross s)) update_b_interp_pot.
Proof. unfold update_b_interp_pot, generated_potential. solve_preserves. Qed.

Lemma place_basis_grid :
  preserves (fun s => (n_time s, estm_x s, estm_y s, n_estm s, ngx s, ngy s)) place_basis.
Proof. unfold place_basis. solve_preserves. Qed.

Lemma gridded_inputs (s1 s2 : kcsd) :
  (estm_x s2, estm_y s2, n_estm s2, ngx s2, ngy s2)
  = (estm_x s1, estm_y s1, n_estm s1, ngx s1, ngy s1) ->
  gridded s1 -> gridded s2.
Proof. intros H. unfold gridded. injection H as -> -> -> -> ->. done. Qed.

Lemma inputs_fields (s1 s2 : kcsd) :
  inputs s2 = inputs s1 ->
  placement s2 = placement s1 /\
  src_x s2 = src_x s1 /\ src_y s2 = src_y s1 /\ ele_pos s2 = ele_pos s1 /\
  n_src s2 = n_src s1 /\ n_ele s2 = n_ele s1 /\ pots s2 = pots s1 /\
  n_time s2 = n_time s1 /\ estm_x s2 = estm_x s1 /\ estm_y s2 = estm_y s1 /\
  n_estm s2 = n_estm s1 /\ ngx s2 = ngx s1 /\ ngy s2 = ngy s1.
Proof.
  unfold inputs, placement. intros H. inversion H. repeat split; congruence.
Qed.

(** The kernel assembly, run on a constructed and gridded object, leaves
    every kernel with the shape [assembled] asks for. *)
Lemma method_assembled (self self' : kcsd) :
  interpolate_law ->
  constructed self = true -> gridded self ->
  has_shape (n_ele self) (n_time self) (pots self) ->
  method self = (Ok tt, self') ->
  assembled self' = true.
Proof.
  intros Hlaw Hc Hg Hpots Hrun. pose proof Hc as Hc'. unfold constructed in Hc'.
  rewrite !andb_true_iff, !Nat.eqb_eq, Nat.ltb_lt, !has_shapeb_spec in Hc'.
  destruct Hc' as [[[[[[Hb Hsx] Hsy] Hn] Hpos] Hele] Hp].
  destruct Hg as (Hgx & Hgy & Hgn).
  unfold method in Hrun.
  apply bind_inv_Ok in Hrun as ([] & t1 & H1 & Hrun).
  apply bind_inv_Ok in Hrun as ([] & t2 & H2 & Hrun).
  apply bind_inv_Ok in Hrun as ([] & t3 & H3 & H4).
  pose proof (create_lookup_length _ _ _ Hlaw H1) as Hlen.
  assert (Hne : dist_table t1 <> []) by (destruct (dist_table t1); done).
  apply create_lookup_inputs in H1 as K1.
  apply (f_equal (fun x => x.1.1.1)) in K1. simpl in K1.
  apply inputs_fields in K1
    as (_ & Ex1 & Ey1 & Ee1 & En1 & Ene1 & Ep1 & Et1 & Egx1 & Egy1 & Eg1 & Enx1 & Eny1).
  (* update_b_pot *)
  rewrite (update_b_pot_run t1 Hne) in H2. inversion H2 as [E2]; clear H2.
  set (B := b_pot_of t1) in *.
  assert (HB : has_shape (n_src self) (n_ele self) B).
  { pose proof (b_pot_of_shape t1) as HB. rewrite Ex1, Ey1, Ee1 in HB.
    rewrite length_zip_with, (size_shape _ _ _ Hsx), (size_shape _ _ _ Hsy) in HB.
    rewrite Nat.min_id, <- Hn, Hele in HB. exact HB. }
  assert (Hnc : ncols B = n_ele self).
  { destruct HB as [HB1 HB2]. destruct B as [|row B'] eqn:HBe; [simpl in *; lia|].
    simpl. by inversion HB2. }
  assert (Hk2 : has_shape (n_ele self) (n_ele self) (k_pot t2)).
  { rewrite <- E2. simpl. rewrite gram_tab, Hnc, idiv_tab. apply tab_shape. }
  assert (Hb2 : b_pot t2 = B) by (by rewrite <- E2).
  assert (Hg2 : n_estm t2 = n_estm self) by (by rewrite <- E2).
  (* update_b_src *)
  pose proof (update_b_src_shape _ _ H3) as Hc3. rewrite Hb2, Hnc, Hg2 in Hc3.
  apply update_b_src_inputs in H3 as K3.
  pose proof (f_equal (fun x => x.1.1.1) K3) as I3.
  pose proof (f_equal (fun x => x.1.1.2) K3) as Eb3.
  pose proof (f_equal (fun x => x.1.2) K3) as Ek3.
  pose proof (f_equal snd K3) as Ed3. simpl in I3, Eb3, Ek3, Ed3.
  apply inputs_fields in I3
    as (_ & Ex3 & Ey3 & _ & _ & Ene3 & Ep3 & Et3 & Egx3 & Egy3 & Eg3 & Enx3 & Eny3).
  (* update_b_interp_pot *)
  assert (Hx2 : src_x t2 = src_x self) by (by rewrite <- E2).
  assert (Hy2 : src_y t2 = src_y self) by (by rewrite <- E2).
  assert (Hxne : concat (src_x self) <> []).
  { intros E. pose proof (size_shape _ _ _ Hsx) as Hs. rewrite E in Hs. simpl in Hs. lia. }
  assert (Hyne : concat (src_y self) <> []).
  { intros E. pose proof (size_shape _ _ _ Hsy) as Hs. rewrite E in Hs. simpl in Hs. lia. }
  pose proof (update_b_interp_pot_shape t3 self') as Hc4.
  rewrite Ed3, Ex3, Ey3, Hx2, Hy2, Egx3, Egy3, Eb3, Hb2, Hnc in Hc4.
  assert (Hd2 : dist_table t2 = dist_table t1) by (by rewrite <- E2).
  assert (Hgx2 : estm_x t2 = estm_x self) by (by rewrite <- E2).
  assert (Hgy2 : estm_y t2 = estm_y self) by (by rewrite <- E2).
  rewrite Hd2, Hgx2, Hgy2, Hgx, Hgy, Nat.min_id in Hc4.
  specialize (Hc4 Hne H4 Hxne Hyne).
  apply update_b_interp_pot_inputs in H4 as K4.
  pose proof (f_equal (fun x => x.1.1.1) K4) as I4.
  pose proof (f_equal (fun x => x.1.2) K4) as Ek4.
  pose proof (f_equal snd K4) as Ec4. simpl in I4, Ek4, Ec4.
  apply inputs_fields in I4
    as (_ & _ & _ & _ & _ & Ene4 & Ep4 & Et4 & _ & _ & Eg4 & Enx4 & Eny4).
  assert (F2 : n_ele t2 = n_ele self /\ pots t2 = pots self /\ n_time t2 = n_time self
               /\ ngx t2 = ngx self /\ ngy t2 = ngy self).
  { rewrite <- E2. simpl. done. }
  destruct F2 as (Fe & Fp & Ft & Fx & Fy).
  unfold assembled.
  rewrite !andb_true_iff, Nat.eqb_eq, !has_shapeb_spec.
  rewrite Ene4, Ene3, Fe, Et4, Et3, Ft, Ep4, Ep3, Fp, Eg4, Eg3, Hg2, Enx4, Enx3, Fx,
    Eny4, Eny3, Fy, Ek4, Ek3, Ec4.
  done.
Qed.

(** The constructor: the object on which [method] runs is constructed
    and gridded. *)
Lemma init_inv (ele_pos0 pots0 : mat) (kwargs : gmap string value) (self : kcsd) :
  distribute_law ->
  has_shape (length ele_pos0) (ncols pots0) pots0 ->
  init ele_pos0 pots0 kwargs new_object = (Ok tt, self) ->
  exists s4 : kcsd,
    constructed s4 = true /\ gridded s4 /\
    has_shape (n_ele s4) (n_time s4) (pots s4) /\
    method s4 = (Ok tt, self).
Proof.
  intros Hlaw Hpots Hrun. unfold init in Hrun.
  apply bind_inv_Ok in Hrun as ([] & s1 & H1 & Hrun).
  apply bind_inv_Ok in Hrun as ([] & s2 & H2 & Hrun).
  apply bind_inv_Ok in Hrun as ([] & s3 & H3 & Hrun).
  apply bind_inv_Ok in Hrun as ([] & s4 & H4 & Hrun).
  exists s4. inversion H1; subst; clear H1.
  apply parameters_keeps in H2. apply estimate_at_gridded in H3 as Hg3.
  apply estimate_at_keeps in H3. simpl in H2, H3.
  destruct (place_basis_Ok_inv _ _ Hlaw H4) as (Hb & Hsx & Hsy & Hn & Hpos & Hkeep).
  assert (He : (ele_pos s4, n_ele s4, pots s4, n_time s4)
               = (ele_pos0, length ele_pos0, pots0, ncols pots0)) by congruence.
  injection He as He1 He2 He3 He4.
  split; [|split; [|split; [|done]]].
  - unfold constructed. rewrite He1, He2, He3.
    rewrite !andb_true_iff, !Nat.eqb_eq, Nat.ltb_lt, !has_shapeb_spec.
    destruct Hb as [f ->]. done.
  - apply place_basis_grid in H4. apply (gridded_inputs s3); [|done].
    injection H4 as _ -> -> -> -> ->. done.
  - by rewrite He2, He3, He4.
Qed.

(** The constructor yields a constructed estimator with assembled kernel
    matrices. *)
Lemma init_assembled (ele_pos0 pots0 : mat) (kwargs : gmap string value) (self : kcsd) :
  distribute_law -> interpolate_law ->
  has_shape (length ele_pos0) (ncols pots0) pots0 ->
  init ele_pos0 pots0 kwargs new_object = (Ok tt, self) ->
  assembled self = true /\ constructed self = true.
Proof.
  intros Hd Hi Hpots Hrun.
  destruct (init_inv _ _ _ _ Hd Hpots Hrun) as (s4 & Hc & Hg & Hp & Hm).
  split; [by apply (method_assembled s4)|].
  rewrite <- Hc. apply constructed_placement. apply (method_placement _ _ _ Hm).
Qed.

End Init_assembled.

(** ** Cross validation: the result *)

(** The hits of one row, columns counted from [c]: in increasing order of the column. *)
Lemma row_hits_sorted (m : Qc) (i : nat) (row : vec) (c : nat) :
  let hits := omap (fun jx : nat * Qc =>
                      if bool_decide (jx.2 = m) then Some (i, jx.1) else None)
                   (imap (fun j x => ((c + j)%nat, x)) row) in
  (forall q, q ∈ hits -> q.1 = i /\ (c <= q.2)%nat) /\
  (forall p, head hits = Some p -> forall q, q ∈ hits -> (p.2 <= q.2)%nat).
Proof.
  revert c. induction row as [|x row IH]; intros c; simpl.
  - split; [intros q Hq; by apply elem_of_nil in Hq | done].
  - assert (Hext : imap ((fun j x0 => ((c + j)%nat, x0)) ∘ S) row
                   = imap (fun j x0 => ((S c + j)%nat, x0)) row).
    { apply imap_ext. intros j y _. simpl. f_equal. lia. }
    rewrite Hext. destruct (IH (S c)) as [Hall Hhead]. simpl in Hall, Hhead.
    case_bool_decide; simpl.
    + split.
      * intros q Hq. apply elem_of_cons in Hq as [->|Hq]; simpl; [split; [done|lia]|].
        destruct (Hall q Hq). split; [done|lia].
      * intros p Hp q Hq. inversion Hp; subst; simpl.
        apply elem_of_cons in Hq as [->|Hq]; simpl; [lia|].
        destruct (Hall q Hq). lia.
    + split.
      * intros q Hq. destruct (Hall q Hq). split; [done|lia].
      * exact Hhead.
Qed.

(** The hits of the rows counted from [k]: in row-major order. *)
Lemma hits_sorted (m : Qc) (errs : mat) (k : nat) :
  let hits := concat (imap (fun i (row : vec) =>
                    omap (fun jx : nat * Qc =>
                            if bool_decide (jx.2 = m) then Some ((k + i)%nat, jx.1) else None)
                         (imap pair row)) errs) in
  (forall q, q ∈ hits -> (k <= q.1)%nat) /\
  (forall p, head hits = Some p ->
     forall q, q ∈ hits -> (p.1 < q.1 \/ (p.1 = q.1 /\ p.2 <= q.2))%nat).
Proof.
  revert k. induction errs as [|row errs IH]; intros k; simpl.
  - split; [intros q Hq; by apply elem_of_nil in Hq | done].
  - assert (Hext : imap ((fun i (row0 : vec) =>
                     omap (fun jx : nat * Qc =>
                             if bool_decide (jx.2 = m) then Some ((k + i)%nat, jx.1) else None)
                          (imap pair row0)) ∘ S) errs
                   = imap (fun i (row0 : vec) =>
                     omap (fun jx : nat * Qc =>
                             if bool_decide (jx.2 = m) then Some ((S k + i)%nat, jx.1) else None)
                          (imap pair row0)) errs).
    { apply imap_ext. intros i y _. simpl.
      replace (k + S i)%nat with (S (k + i)) by lia. reflexivity. }
    rewrite Hext. destruct (IH (S k)) as [Hall Hhead]. simpl in Hall, Hhead.
    pose proof (row_hits_sorted m (k + 0) row 0) as [Hrow Hrhead]. simpl in Hrow, Hrhead.
    split.
    + intros q Hq. apply elem_of_app in Hq as [Hq|Hq].
      * destruct (Hrow q Hq). lia.
      * specialize (Hall q Hq). lia.
    + intros p Hp q Hq.
      destruct (omap _ (imap pair row)) as [|p0 rest] eqn:Hr.
      * simpl in Hp, Hq. by apply Hhead.
      * simpl in Hp. inversion Hp; subst p0.
        apply elem_of_app in Hq as [Hq|Hq].
        -- right. destruct (Hrow p) as [Hp1 _]; [left|].
           destruct (Hrow q Hq) as [Hq1 _]. split; [congruence|].
           by apply Hrhead.
        -- left. destruct (Hrow p) as [Hp1 _]; [left|].
           specialize (Hall q Hq). lia.
Qed.

(** [np.where] lists the hits in row-major order: the first row index and
    the first column index are those of the first entry equal to [m]. *)
Lemma where_eq_first (errs : mat) (m : Qc) (i j : nat) :
  head (where_eq errs m).1 = Some i ->
  head (where_eq errs m).2 = Some j ->
  forall i' j', get2 errs i' j' = Some m -> (i < i' \/ (i = i' /\ j <= j'))%nat.
Proof.
  unfold where_eq. simpl.
  pose proof (hits_sorted m errs 0) as [_ Hfirst]. simpl in Hfirst.
  set (hits := concat _) in *. intros Hi Hj i' j' Hget.
  assert (Hhead : head hits = Some (i, j)).
  { destruct hits as [|[a b] hits']; [done|]. simpl in *. congruence. }
  apply (Hfirst (i, j) Hhead (i', j')).
  unfold get2 in Hget. destruct (errs !! i') as [row|] eqn:Hrow; [|done].
  unfold hits. apply list_elem_of_In, in_concat.
  eexists. split.
  - apply list_elem_of_In, elem_of_lookup_imap. exists i', row. split; [reflexivity|done].
  - apply list_elem_of_In, list_elem_of_omap. exists (j', m). split.
    + apply elem_of_lookup_imap. by exists j', m.
    + simpl. by rewrite bool_decide_eq_true_2.
Qed.

Section Result.
Context `{ext : External}.

Lemma method_keeps : preserves (fun s => (R s, lambd s, cv_error s)) method.
Proof.
  unfold method, create_lookup, update_b_pot, update_b_src, update_b_interp_pot,
    generated_potential, get_basis.
  solve_preserves.
Qed.

Lemma update_R_sets (R0 : Qc) (self self' : kcsd) r :
  update_R R0 self = (r, self') ->
  R self' = R0 /\ lambd self' = lambd self /\ cv_error self' = cv_error self.
Proof.
  unfold update_R. rewrite bind_assign. intros H.
  assert (Hp : preserves (fun s => (R s, lambd s, cv_error s))
    (self0 <- get;;
     hi <- lift ValueError (np_max (concat (src_x self0)));;
     lo <- lift ValueError (np_min (concat (src_x self0)));;
     hi0 <- lift ValueError (np_max (concat (src_y self0)));;
     lo0 <- lift ValueError (np_min (concat (src_y self0)));;
     assign (set_dist_max
               (np_sqrt ((hi - lo + R self0) * (hi - lo + R self0)
                         + (hi0 - lo0 + R self0) * (hi0 - lo0 + R self0))));;
     method)).
  { solve_preserves. apply method_keeps. }
  apply Hp in H. simpl in H. by inversion H.
Qed.

(** What [cross_validate] returns and leaves behind, when it returns: the
    search fills [errs], the first entry equal to the minimum picks the
    pair, and the object is rebuilt by [update_R(cv_R)] before [lambd] is
    assigned and the pair printed. *)
Lemma cross_validate_result (lambdas Rs : option vec) (self self' : kcsd)
        (r : retval) :
  cross_validate lambdas Rs self = (Ok r, self') ->
  exists (cv_R cv_lambda m : Qc) (errs : mat) (searched rebuilt : kcsd) (i j : nat),
    r = RTuple [cv_R; cv_lambda] /\
    R self' = cv_R /\ lambd self' = cv_lambda /\ cv_error self' = Some m /\
    cv_errors (Rs_or_default Rs self) (lambdas_or_default lambdas)
              (leave_one_out (n_ele self)) self = (Ok errs, searched) /\
    Rs_or_default Rs self !! i = Some cv_R /\
    lambdas_or_default lambdas !! j = Some cv_lambda /\
    get2 errs i j = Some m /\
    (forall e, e ∈ concat errs -> m <= e) /\
    (forall i' j', get2 errs i' j' = Some m -> (i < i' \/ (i = i' /\ j <= j'))%nat) /\
    update_R cv_R (set_cv_error (Some m) searched) = (Ok tt, rebuilt) /\
    self' = set_stdout (stdout rebuilt ++ [("R, lambda :"%string, [cv_R; cv_lambda])])
                       (set_lambd cv_lambda rebuilt).
Proof.
  unfold cross_validate. rewrite bind_get. intros H.
  apply bind_inv_Ok in H as (errs & s1 & Hsearch & H).
  apply bind_inv_Ok in H as (m & s2 & Hm & H).
  apply bind_inv_Ok in H as (cv_R & s3 & HR & H).
  apply bind_inv_Ok in H as (cv_lambda & s4 & Hl & H).
  rewrite bind_assign in H.
  apply bind_inv_Ok in H as ([] & s5 & HuR & H).
  unfold update_lambda in H. rewrite bind_assign in H.
  unfold print in H. rewrite bind_assign in H. inversion H; subst; clear H.
  destruct (np_min (concat errs)) as [m'|] eqn:Hmin; inversion Hm; subst; clear Hm.
  destruct (head (where_eq errs m).1) as [i|] eqn:Hi; [|done]. simpl in HR.
  destruct (head (where_eq errs m).2) as [j|] eqn:Hj; [|done]. simpl in Hl.
  destruct (Rs_or_default Rs self !! i) as [x|] eqn:HRi; inversion HR; subst; clear HR.
  destruct (lambdas_or_default lambdas !! j) as [y|] eqn:Hlj; inversion Hl; subst; clear Hl.
  pose proof (update_R_sets _ _ _ _ HuR) as (HR' & Hl' & Hcv').
  exists cv_R, cv_lambda, m, errs, s4, s5, i, j. simpl.
  repeat split; try done.
  - by apply where_eq_head.
  - by apply np_min_spec.
  - by apply where_eq_first.
Qed.

(** C4, as the code has it.  On a constructed estimator [cross_validate]
    returns the pair [(cv_R, cv_lambda)]: the candidates at the first entry,
    in row-major order, of the error table [errs] that equals its minimum
    [m].  It leaves [self.R = cv_R] and [self.lambd = cv_lambda], with the
    look up table and the kernels that [update_R(cv_R)] builds after the
    search; the minimal error is not returned but stored in
    [self.cv_error]. *)
Theorem cross_validate_returns_pair (lambdas Rs : option vec) (self : kcsd) :
  interpolate_law -> linalg_inv_law -> logspace_law ->
  constructed self = true ->
  exists (cv_R cv_lambda m : Qc) (errs : mat) (searched rebuilt self' : kcsd)
         (i j : nat),
    cross_validate lambdas Rs self = (Ok (RTuple [cv_R; cv_lambda]), self') /\
    R self' = cv_R /\ lambd self' = cv_lambda /\ cv_error self' = Some m /\
    cv_errors (Rs_or_default Rs self) (lambdas_or_default lambdas)
              (leave_one_out (n_ele self)) self = (Ok errs, searched) /\
    Rs_or_default Rs self !! i = Some cv_R /\
    lambdas_or_default lambdas !! j = Some cv_lambda /\
    get2 errs i j = Some m /\
    (forall e, e ∈ concat errs -> m <= e) /\
    (forall i' j', get2 errs i' j' = Some m -> (i < i' \/ (i = i' /\ j <= j'))%nat) /\
    update_R cv_R (set_cv_error (Some m) searched) = (Ok tt, rebuilt) /\
    self' = set_stdout (stdout rebuilt ++ [("R, lambda :"%string, [cv_R; cv_lambda])])
                       (set_lambd cv_lambda rebuilt) /\
    dist_max self' = dist_max rebuilt /\ kernels self' = kernels rebuilt.
Proof.
  intros Hli Hlv Hlog Hc.
  destruct (cross_validate_Ok lambdas Rs self Hli Hlv Hlog Hc) as (r & self' & Hrun).
  destruct (cross_validate_result lambdas Rs self self' r Hrun)
    as (cv_R & cv_lambda & m & errs & searched & rebuilt & i & j & -> & HR & Hl & Hcv
        & Hsearch & Hi & Hj & Hget & Hmin & Hfirst & Hup & Hself).
  exists cv_R, cv_lambda, m, errs, searched, rebuilt, self', i, j.
  repeat (split; [assumption|]).
  rewrite Hself. split; reflexivity.
Qed.

End Result.

(** The constructor and the search succeed on the sample data. *)
Lemma built_run :
  @init Reference.numerics Examples.ele3 Examples.pots3 Examples.kwargs3 new_object
  = (Ok tt, Examples.built).
Proof.
  assert (H : (@init Reference.numerics Examples.ele3 Examples.pots3 Examples.kwargs3
                 new_object).1 = Ok tt) by by_eval.
  rewrite <- H. unfold Examples.built. apply surjective_pairing.
Qed.

(** C4 fails as stated: what [cross_validate] returns is a pair, not a
    triple with the error. *)
Lemma cross_validate_returns_no_triple :
  ~ (exists (best_R best_lambda best_error : Qc) (self' : kcsd),
        @cross_validate Reference.numerics (Some [1; Examples.q 1 2]) None Examples.built
        = (Ok (RTuple [best_R; best_lambda; best_error]), self')).
Proof.
  intros (best_R & best_lambda & best_error & self' & H).
  assert (Hrun : (@cross_validate Reference.numerics (Some [1; Examples.q 1 2]) None
                    Examples.built).1
                 = Ok (RTuple [Examples.q 23 100; 1])) by by_eval.
  rewrite H in Hrun. simpl in Hrun. inversion Hrun.
Qed.

Lemma cross_validate_returns_pair_witness :
  let lambdas := Some [1; Examples.q 1 2] in
  let self := Examples.built in
  constructed self = true /\
  exists (cv_R cv_lambda m : Qc) (errs : mat) (searched rebuilt self' : kcsd)
         (i j : nat),
    @cross_validate Reference.numerics lambdas None self
    = (Ok (RTuple [cv_R; cv_lambda]), self') /\
    R self' = cv_R /\ lambd self' = cv_lambda /\ cv_error self' = Some m /\
    @cv_errors Reference.numerics (Rs_or_default None self)
      (@lambdas_or_default Reference.numerics lambdas)
      (leave_one_out (n_ele self)) self = (Ok errs, searched) /\
    Rs_or_default None self !! i = Some cv_R /\
    @lambdas_or_default Reference.numerics lambdas !! j = Some cv_lambda /\
    get2 errs i j = Some m /\
    (forall e, e ∈ concat errs -> m <= e) /\
    (forall i' j', get2 errs i' j' = Some m -> (i < i' \/ (i = i' /\ j <= j'))%nat) /\
    @update_R Reference.numerics cv_R (set_cv_error (Some m) searched)
    = (Ok tt, rebuilt) /\
    self' = set_stdout (stdout rebuilt ++ [("R, lambda :"%string, [cv_R; cv_lambda])])
                       (set_lambd cv_lambda rebuilt) /\
    dist_max self' = dist_max rebuilt /\ kernels self' = kernels rebuilt.
Proof.
  intros lambdas self.
  assert (Hc : constructed self = true) by (vm_compute; reflexivity).
  split; [exact Hc|].
  exact (@cross_validate_returns_pair Reference.numerics lambdas None self
           reference_interpolate_law reference_linalg_inv_law reference_logspace_law Hc).
Defined.
(** ** Cross validation: which arguments count as missing *)


Section Default_grids.
Context `{ext : External}.


End Default_grids.



(** ** An unrecognised quantity tag *)

Section Invalid_tag.
Context `{ext : External}.

(** What [values] does with a tag that is neither 'CSD' nor 'POT', when
    there is at least one time sample and one electrode: it prints a
    message, inverts the kernel, and stops at the first use of the unbound
    local [estimation_table]. *)
Lemma values_invalid_tag_unbound (self : kcsd) (estimate : string) (k_inv : mat) :
  cross_kernel estimate self = None ->
  assembled self = true ->
  linalg_inv (regularised self) = Some k_inv ->
  has_shapeb (n_ele self) (n_ele self) k_inv = true ->
  (0 < n_time self)%nat -> (0 < n_ele self)%nat ->
  values estimate self
  = (Raise (UnboundLocalError "estimation_table"),
     set_stdout (stdout self ++ [(invalid_quantity, [])]) self).
Proof.
  intros Hcross Hasm Hinv Hki Ht Hn.
  unfold assembled in Hasm. rewrite !andb_true_iff, Nat.eqb_eq in Hasm.
  destruct Hasm as [[[[Hk Hp] Hc1] Hc2] Hsz].
  apply has_shapeb_spec in Hk, Hp, Hki.
  unfold values. rewrite bind_get.
  rewrite (bind_Ok _ _ self None
             (set_stdout (stdout self ++ [(invalid_quantity, [])]) self)).
  2:{ unfold cross_kernel in Hcross. by repeat case_bool_decide. }
  destruct Hk as [Hk1 Hk2]. rewrite Hk1.
  erewrite add_mm_Some; [| split; eassumption | apply mat_scale_shape, identity_shape].
  rewrite bind_lift_Some. fold (regularised self). rewrite Hinv, bind_lift_Some.
  destruct (n_time self) as [|T] eqn:HT; [lia|].
  destruct (n_ele self) as [|N] eqn:HN; [lia|].
  apply bind_Raise. simpl seq. cbn [for_fold]. apply bind_Raise.
  erewrite col_at_Some; [| exact Hp | lia]. rewrite bind_lift_Some.
  erewrite dot_mv_Some; [| exact Hki | rewrite col_length; apply Hp].
  rewrite bind_lift_Some. by apply bind_Raise.
Qed.

(** With a singular kernel the tag is not even reached: the inversion
    fails first. *)
Lemma values_invalid_tag_singular (self : kcsd) (estimate : string) :
  cross_kernel estimate self = None ->
  assembled self = true ->
  linalg_inv (regularised self) = None ->
  values estimate self
  = (Raise LinAlgError, set_stdout (stdout self ++ [(invalid_quantity, [])]) self).
Proof.
  intros Hcross Hasm Hinv.
  unfold assembled in Hasm. rewrite !andb_true_iff, Nat.eqb_eq in Hasm.
  destruct Hasm as [[[[Hk Hp] Hc1] Hc2] Hsz].
  apply has_shapeb_spec in Hk.
  unfold values. rewrite bind_get.
  rewrite (bind_Ok _ _ self None
             (set_stdout (stdout self ++ [(invalid_quantity, [])]) self)).
  2:{ unfold cross_kernel in Hcross. by repeat case_bool_decide. }
  destruct Hk as [Hk1 Hk2]. rewrite Hk1.
  erewrite add_mm_Some; [| split; eassumption | apply mat_scale_shape, identity_shape].
  rewrite bind_lift_Some. fold (regularised self). by rewrite Hinv, bind_lift_None.
Qed.

End Invalid_tag.

(** C6, on the code: an unrecognised tag is not rejected.  On an estimator
    without time samples [values('XYZ')] prints its message and returns an
    array of shape [(1, 2, 0)]. *)
Theorem values_invalid_tag_returns_array :
  let self := Examples.no_samples in
  let run := @values Reference.numerics "XYZ" self in
  cross_kernel "XYZ" self = None /\
  assembled self = true /\
  run.1 = Ok (RArr3 [[[]; []]]) /\
  stdout run.2 = [(invalid_quantity, [])].
Proof. repeat split; try reflexivity; by_eval. Qed.

(** ** Cross validation: the folds and their errors *)


Lemma list_remove_first_seq (ii a n : nat) :
  (a <= ii < a + n)%nat ->
  list_remove_first ii (seq a n) = seq a (ii - a) ++ seq (S ii) (a + n - S ii).
Proof.
  revert a. induction n as [|n IH]; intros a H; [lia|]. simpl.
  destruct (ii =? a)%nat eqn:E.
  - apply Nat.eqb_eq in E. subst. rewrite Nat.sub_diag. simpl. f_equal. lia.
  - apply Nat.eqb_neq in E. rewrite IH by lia.
    replace (ii - a)%nat with (S (ii - S a)) by lia. simpl. do 3 f_equal. lia.
Qed.

(** X1. The index generator of [cross_validate] holds one fold per
    electrode: fold [ii] tests on electrode [ii] alone and trains on all
    the others, in increasing order; the two lists together are a
    permutation of [range(n_ele)]. *)
Theorem leave_one_out_partitions (n ii : nat) :
  (ii < n)%nat ->
  length (leave_one_out n) = n /\
  exists train : list nat,
    leave_one_out n !! ii = Some (train, [ii]) /\
    train = seq 0 ii ++ seq (S ii) (n - S ii) /\
    length train = (n - 1)%nat /\
    (ii ∉ train) /\
    Permutation (train ++ [ii]) (seq 0 n).
Proof.
  intros Hii. unfold leave_one_out. split; [by rewrite length_map, length_seq|].
  eexists. split.
  { rewrite list_lookup_fmap, lookup_seq_lt by done. simpl. reflexivity. }
  rewrite list_remove_first_seq by lia. rewrite Nat.sub_0_r, Nat.add_0_l.
  split; [done|]. split; [rewrite length_app, !length_seq; lia|]. split.
  - rewrite elem_of_app, !elem_of_seq. lia.
  - replace (seq 0 n) with (seq 0 ii ++ [ii] ++ seq (S ii) (n - S ii)).
    + rewrite <- app_assoc. apply Permutation_app_head. apply Permutation_app_comm.
    + replace n with (ii + S (n - S ii))%nat at 2 by lia.
      rewrite seq_app. simpl. done.
Qed.

Lemma leave_one_out_partitions_witness :
  length (leave_one_out 3) = 3%nat /\
  exists train : list nat,
    leave_one_out 3 !! 1%nat = Some (train, [1%nat]) /\
    train = seq 0 1 ++ seq 2 (3 - 2) /\
    length train = (3 - 1)%nat /\
    (1%nat ∉ train) /\
    Permutation (train ++ [1%nat]) (seq 0 3).
Proof. apply (leave_one_out_partitions 3 1). lia. Defined.

Lemma add_to_row (d : nat -> Qc) (n : nat) (row : vec) :
  length row = n ->
  foldl (fun r t => alter (fun a => a + d t) t r) row (seq 0 n)
  = zip_with Qcplus row (map d (seq 0 n)).
Proof.
  intros Hlen.
  assert (H : forall k, (k <= n)%nat ->
            foldl (fun r t => alter (fun a => a + d t) t r) row (seq 0 k)
            = zip_with Qcplus (take k row) (map d (seq 0 k)) ++ drop k row).
  { induction k as [|k IH]; intros Hk.
    - simpl. by rewrite drop_0.
    - rewrite seq_S, foldl_app, Nat.add_0_l. cbn [foldl]. rewrite IH by lia.
      assert (Hl : length (zip_with Qcplus (take k row) (map d (seq 0 k))) = k).
      { rewrite length_zip_with, length_take, length_map, length_seq. lia. }
      rewrite alter_app_r_alt by lia. rewrite Hl, Nat.sub_diag.
      destruct (drop k row) as [|x rest] eqn:Hd.
      { apply (f_equal length) in Hd. rewrite length_drop in Hd. simpl in Hd. lia. }
      simpl.
      assert (Hx : row !! k = Some x).
      { rewrite <- (Nat.add_0_r k), <- lookup_drop, Hd. done. }
      rewrite (take_S_r _ _ _ Hx), map_app. simpl.
      rewrite zip_with_app by (rewrite length_take, length_map, length_seq; lia).
      simpl. rewrite <- app_assoc. simpl. do 2 f_equal.
      replace (S k) with (k + 1)%nat by lia. rewrite <- drop_drop, Hd. simpl.
      by rewrite drop_0. }
  rewrite H by lia. rewrite drop_ge, firstn_all2 by lia. apply app_nil_r.
Qed.


Lemma map_nth_seq (row : vec) : map (fun i => nth i row 0) (seq 0 (length row)) = row.
Proof.
  induction row as [|a row IH]; simpl; [done|]. f_equal.
  rewrite <- fmap_S_seq, <- list_fmap_compose. exact IH.
Qed.

Lemma rows_table (d : nat -> nat -> Qc) (n T : nat) (row : vec) :
  length row = T ->
  foldl (fun r ii => foldl (fun r tt => alter (fun a => a + d ii tt) tt r) r (seq 0 T))
        row (seq 0 n)
  = map (fun tt => nth tt row 0 + foldl (fun s ii => s + d ii tt) 0 (seq 0 n)) (seq 0 T).
Proof.
  intros Hlen. induction n as [|n IH].
  - simpl. rewrite <- Hlen. rewrite <- (map_nth_seq row) at 1.
    apply map_ext. intros i. ring.
  - rewrite seq_S, foldl_app, IH. cbn [foldl]. rewrite Nat.add_0_l.
    rewrite add_to_row by (by rewrite length_map, length_seq).
    rewrite zip_with_map_same. apply map_ext. intros tt.
    rewrite foldl_app. cbn [foldl]. ring.
Qed.

Lemma nth_nil_0 (tt : nat) : nth tt (@nil Qc) 0 = 0.
Proof. by destruct tt. Qed.

Lemma nth_col (tt i : nat) (beta : mat) :
  nth i (col tt beta) 0 = nth tt (nth i beta []) 0.
Proof.
  unfold col. rewrite <- (nth_nil_0 tt) at 1.
  apply (map_nth (fun r : vec => nth tt r 0)).
Qed.

Lemma nth_zeros (tt T : nat) : nth tt (zeros T) 0 = 0.
Proof. revert tt. induction T as [|T IH]; intros [|tt]; simpl; auto. Qed.

(** The pure content of the two loops of [compute_cverror]. *)
Lemma loops_predicted (B_test beta : mat) (r n T : nat) :
  has_shape r n B_test -> length beta = n ->
  foldl (fun V ii =>
           foldl (fun V tt =>
                    col_add tt (map (fun x => nth tt (nth ii beta []) 0 * x) (col ii B_test)) V)
                 V (seq 0 T))
        (zeros2 r T) (seq 0 n)
  = predicted B_test beta T.
Proof.
  intros [Hr Hrows] Hbeta.
  set (h := fun (ii tt : nat) (row trow : vec) =>
              alter (fun a => a + nth tt (nth ii beta []) 0 * nth ii trow 0) tt row).
  assert (Hin : forall ii V, length V = length B_test ->
     foldl (fun V tt =>
              col_add tt (map (fun x => nth tt (nth ii beta []) 0 * x) (col ii B_test)) V)
           V (seq 0 T)
     = zip_with (fun row trow => foldl (fun a tt => h ii tt a trow) row (seq 0 T)) V B_test).
  { intros ii V HV.
    rewrite (foldl_ext_in _ (fun V tt => zip_with (h ii tt) V B_test)).
    2:{ intros V' tt _. unfold col_add, col, h. by rewrite map_map, zip_with_fmap_r. }
    by apply (foldl_zip_with_rows (h ii)). }
  assert (Hout : forall iis V, length V = length B_test ->
     foldl (fun V ii =>
           foldl (fun V tt =>
                    col_add tt (map (fun x => nth tt (nth ii beta []) 0 * x) (col ii B_test)) V)
                 V (seq 0 T)) V iis
     = foldl (fun V ii => zip_with (fun row trow =>
                 foldl (fun a tt => h ii tt a trow) row (seq 0 T)) V B_test) V iis).
  { induction iis as [|ii iis IH]; intros V HV; simpl; [done|].
    rewrite Hin by done. apply IH. rewrite length_zip_with. lia. }
  assert (Hz : length (zeros2 r T) = length B_test).
  { unfold zeros2. rewrite length_replicate. lia. }
  rewrite Hout by done.
  rewrite (foldl_zip_with_rows
             (fun ii (row trow : vec) => foldl (fun a tt => h ii tt a trow) row (seq 0 T)))
    by done.
  unfold zeros2. rewrite zip_with_replicate_l by lia. unfold predicted.
  apply map_ext_in. intros trow Htrow.
  rewrite Forall_forall in Hrows. apply list_elem_of_In in Htrow.
  specialize (Hrows trow Htrow). simpl in Hrows.
  unfold h. rewrite (rows_table (fun ii tt => nth tt (nth ii beta []) 0 * nth ii trow 0))
    by (unfold zeros; by rewrite length_replicate).
  apply map_ext_in. intros tt Htt. apply in_seq in Htt.
  rewrite nth_zeros.
  rewrite <- (foldl_seq_dot trow (col tt beta)) by (rewrite col_length; lia).
  rewrite Hrows. 
  rewrite (foldl_ext_in _ (fun s i => s + nth i trow 0 * nth i (col tt beta) 0)); [ring|].
  intros s i _. rewrite nth_col. ring.
Qed.

Lemma ix_submatrix (rows cols : list nat) (A : mat) (r c : nat) :
  has_shape r c A ->
  Forall (fun i => (i < r)%nat) rows -> Forall (fun j => (j < c)%nat) cols ->
  ix_ rows cols A = Some (submatrix rows cols A).
Proof.
  intros HA Hrows Hcols. unfold ix_, submatrix.
  apply mapM_map_Some. intros i Hi. rewrite Forall_forall in Hrows.
  specialize (Hrows i Hi).
  rewrite (lookup_nth A i []) by (destruct HA; lia).
  apply mapM_map_Some. intros j Hj. rewrite Forall_forall in Hcols.
  specialize (Hcols j Hj). apply lookup_nth.
  rewrite (has_shape_nth r c) by done. lia.
Qed.

Lemma submatrix_shape (rows cols : list nat) (A : mat) :
  has_shape (length rows) (length cols) (submatrix rows cols A).
Proof.
  unfold submatrix. split; [by rewrite length_map|].
  apply Forall_fmap, Forall_forall. intros i _. simpl. by rewrite length_map.
Qed.

Lemma take_rows_rows_of (idx : list nat) (A : mat) (r c : nat) :
  has_shape r c A -> Forall (fun i => (i < r)%nat) idx ->
  take_rows idx A = Some (rows_of idx A).
Proof.
  intros HA Hidx. unfold take_rows, rows_of.
  apply mapM_map_Some. intros i Hi. rewrite Forall_forall in Hidx.
  apply lookup_nth. destruct HA as [-> _]. by apply Hidx.
Qed.

Lemma rows_of_shape (idx : list nat) (A : mat) (r c : nat) :
  has_shape r c A -> Forall (fun i => (i < r)%nat) idx ->
  has_shape (length idx) c (rows_of idx A).
Proof.
  intros HA Hidx. unfold rows_of. split; [by rewrite length_map|].
  apply Forall_fmap, Forall_forall. intros i Hi.
  rewrite Forall_forall in Hidx. specialize (Hidx i Hi). simpl.
  by apply (has_shape_nth r).
Qed.

Lemma predicted_shape (B_test beta : mat) (T : nat) :
  has_shape (length B_test) T (predicted B_test beta T).
Proof.
  unfold predicted. split; [by rewrite length_map|].
  apply Forall_fmap, Forall_forall. intros i _. simpl. by rewrite length_map, length_seq.
Qed.

Lemma sub_mm_mat_sub r c A B :
  has_shape r c A -> has_shape r c B -> sub_mm A B = Some (mat_sub A B).
Proof.
  intros HA HB. destruct (sub_mm_Some r c A B HA HB) as [D HD].
  rewrite HD. unfold sub_mm in HD. destruct (_ && _); [|done]. by inversion HD.
Qed.

Section Fold_run.
Context `{ext : External}.

(** One pass of the loop of [compute_cverror], on index lists inside the
    arrays. *)
Lemma cverror_fold_run (lambd0 err : Qc) (fold : list nat * list nat) (n : nat)
      (self : kcsd) :
  linalg_inv_law ->
  has_shape n n (k_pot self) ->
  has_shape n (ncols (pots self)) (pots self) ->
  in_range n fold ->
  cverror_fold lambd0 err fold self
  = (Ok (next_error err (fold_error lambd0 self fold)),
     fold_output (fold_error lambd0 self fold) self).
Proof.
  intros Hlaw Hk Hp [Htrain Htest]. destruct fold as [train test]. simpl in Htrain, Htest.
  unfold cverror_fold, fold_error.
  rewrite bind_get.
  rewrite (ix_submatrix train train _ _ _ Hk Htrain Htrain), bind_lift_Some.
  rewrite (take_rows_rows_of train _ _ _ Hp Htrain), bind_lift_Some.
  rewrite (take_rows_rows_of test _ _ _ Hp Htest), bind_lift_Some.
  pose proof (submatrix_shape train train (k_pot self)) as HBs.
  pose proof (submatrix_shape test train (k_pot self)) as HBts.
  pose proof (rows_of_shape train _ _ _ Hp Htrain) as HVts.
  pose proof (rows_of_shape test _ _ _ Hp Htest) as HVss.
  erewrite add_mm_Some; [| exact HBs | apply mat_scale_shape, identity_shape].
  rewrite bind_lift_Some. unfold try_except_LinAlgError.
  set (B_new := mat_add (submatrix train train (k_pot self)) _).
  assert (HBn : has_shape (length train) (length train) B_new).
  { apply mat_add_shape; [done|]. apply mat_scale_shape, identity_shape. }
  destruct (linalg_inv B_new) as [B_inv|] eqn:Hinv.
  2:{ rewrite bind_lift_None. reflexivity. }
  rewrite bind_lift_Some.
  apply Hlaw in Hinv. destruct HBn as [HBn1 HBn2]. rewrite HBn1 in Hinv.
  erewrite dot_mm_Some; [| exact Hinv | apply HVts].
  rewrite bind_lift_Some.
  rewrite (ix_submatrix test train _ _ _ Hk Htest Htrain), bind_lift_Some.
  set (T := ncols (pots self)) in *.
  set (beta := mat_mul B_inv (rows_of train (pots self))).
  set (B_test := submatrix test train (k_pot self)) in *.
  pose proof (mat_mul_shape B_inv (rows_of train (pots self))) as Hbeta. fold beta in Hbeta.
  destruct Hinv as [Hinv1 Hinv2]. rewrite Hinv1 in Hbeta.
  assert (HncV : train <> [] -> ncols (rows_of train (pots self)) = T).
  { intros Hne. destruct HVts as [HV1 HV2].
    destruct (rows_of train (pots self)) as [|row V'].
    - destruct train; simpl in *; done.
    - simpl. by inversion HV2. }
  erewrite (bind_Ok _ _ self (predicted B_test beta T) self).
  2:{ rewrite <- (loops_predicted B_test beta (length test) (length train) T);
        [| done | apply Hbeta].
      apply (for_fold_pure (has_shape (length test) T)); [|apply zeros2_shape].
      intros V ii HV Hii. apply elem_of_seq in Hii.
      assert (Hne : train <> []) by (destruct train; simpl in *; [lia | done]).
      rewrite (HncV Hne) in Hbeta.
      apply (for_fold_pure (has_shape (length test) T)
          (fun V0 tt => col_add tt (map (fun x => nth tt (nth ii beta []) 0 * x)
                                        (col ii B_test)) V0)); [|done].
      intros V0 tt HV0 Htt. apply elem_of_seq in Htt.
      unfold get2. rewrite (lookup_nth beta ii []) by (destruct Hbeta; lia).
      rewrite (lookup_nth _ tt 0) by (rewrite (has_shape_nth _ T) by (done || lia); lia).
      rewrite bind_lift_Some.
      erewrite col_at_Some; [| exact HBts | lia]. rewrite bind_lift_Some.
      assert (Hlen : length (map (fun x => nth tt (nth ii beta []) 0 * x) (col ii B_test))
                     = length test).
      { rewrite length_map, col_length. apply HBts. }
      erewrite col_iadd_Some; [| exact HV0 | exact Hlen | lia].
      split; [done|]. by apply col_add_shape. }
  pose proof (predicted_shape B_test beta T) as HV.
  replace (length B_test) with (length test) in HV by (symmetry; apply HBts).
  rewrite (sub_mm_mat_sub _ _ _ _ HV HVss), bind_lift_Some.
  reflexivity.
Qed.

End Fold_run.

Lemma set_stdout_same (self : kcsd) : set_stdout (stdout self) self = self.
Proof. by destruct self. Qed.

Lemma foldl_plus_sum (l : vec) (a : Qc) : foldl Qcplus a l = a + sum l.
Proof.
  revert a. induction l as [|x l IH]; intros a; simpl.
  - unfold sum. simpl. ring.
  - rewrite IH. unfold sum. simpl. ring.
Qed.

Section Error_closed_form.
Context `{ext : External}.

Lemma fold_error_frame (lambd0 : Qc) (s1 s2 : kcsd) (fold : list nat * list nat) :
  k_pot s1 = k_pot s2 -> pots s1 = pots s2 ->
  fold_error lambd0 s1 fold = fold_error lambd0 s2 fold.
Proof. intros Hk Hp. unfold fold_error. destruct fold. by rewrite Hk, Hp. Qed.

Lemma fold_output_keeps (e : option Qc) (s : kcsd) :
  k_pot (fold_output e s) = k_pot s /\ pots (fold_output e s) = pots s.
Proof. by destruct e. Qed.

(** The loop of [compute_cverror], from any running error. *)
Lemma compute_cverror_run (lambd0 : Qc) (folds : list (list nat * list nat)) (n : nat)
      (self : kcsd) :
  linalg_inv_law ->
  has_shape n n (k_pot self) ->
  has_shape n (ncols (pots self)) (pots self) ->
  Forall (in_range n) folds ->
  forall (err : Qc) (s : kcsd),
    k_pot s = k_pot self -> pots s = pots self ->
    for_fold folds err (cverror_fold lambd0) s
    = (Ok (foldl (fun e f => next_error e (fold_error lambd0 self f)) err folds),
       foldl (fun s f => fold_output (fold_error lambd0 self f) s) s folds).
Proof.
  intros Hlaw Hk Hp Hfolds. induction Hfolds as [|f folds Hf Hrest IH]; intros err s Hks Hps.
  - reflexivity.
  - cbn [for_fold foldl].
    rewrite (bind_Ok _ _ s (next_error err (fold_error lambd0 self f))
               (fold_output (fold_error lambd0 self f) s)).
    + apply IH.
      * rewrite <- Hks. apply fold_output_keeps.
      * rewrite <- Hps. apply fold_output_keeps.
    + rewrite <- (fold_error_frame lambd0 s self f Hks Hps).
      apply (cverror_fold_run lambd0 err f n s Hlaw); [by rewrite Hks | by rewrite Hps | done].
Qed.

Lemma fold_output_stdout (es : list (option Qc)) (s : kcsd) :
  foldl (fun s e => fold_output e s) s es
  = set_stdout (stdout s ++ replicate (length (List.filter is_singular es))
                                      (singular_matrix, [])) s.
Proof.
  revert s. induction es as [|e es IH]; intros s.
  - simpl. by rewrite app_nil_r, set_stdout_same.
  - cbn [foldl]. rewrite IH. destruct e as [x|]; simpl; [done|].
    by rewrite <- app_assoc.
Qed.

End Error_closed_form.

Section Error_theorems.
Context `{ext : External}.

(** X2. A fold whose regularised training kernel has the inverse [B_inv]
    adds the Frobenius norm of [B_test . (B_inv . V_train) - V_test] to the
    running error and leaves [self] as it was. *)
Theorem cverror_fold_adds_prediction_error (lambd0 err : Qc)
        (idx_train idx_test : list nat) (n : nat) (self : kcsd) (B_inv : mat) :
  linalg_inv_law ->
  has_shape n n (k_pot self) ->
  has_shape n (ncols (pots self)) (pots self) ->
  in_range n (idx_train, idx_test) ->
  linalg_inv (mat_add (submatrix idx_train idx_train (k_pot self))
                      (mat_scale lambd0 (identity (length idx_train)))) = Some B_inv ->
  let beta_new := mat_mul B_inv (rows_of idx_train (pots self)) in
  let V_est := predicted (submatrix idx_test idx_train (k_pot self)) beta_new
                         (ncols (pots self)) in
  cverror_fold lambd0 err (idx_train, idx_test) self
  = (Ok (err + linalg_norm (mat_sub V_est (rows_of idx_test (pots self)))), self).
Proof.
  intros Hlaw Hk Hp Hr Hinv beta_new V_est.
  rewrite (cverror_fold_run lambd0 err _ n self Hlaw Hk Hp Hr).
  unfold fold_error. rewrite Hinv. reflexivity.
Qed.

(** X3. [compute_cverror] on index lists inside the arrays always returns:
    a fold adds its error, a singular fold resets the running error to
    10000 and prints one line.  Nothing of [self] but the printed text
    changes. *)
Theorem compute_cverror_closed_form (lambd0 : Qc) (folds : list (list nat * list nat))
        (n : nat) (self : kcsd) :
  linalg_inv_law ->
  has_shape n n (k_pot self) ->
  has_shape n (ncols (pots self)) (pots self) ->
  Forall (in_range n) folds ->
  let errors := map (fold_error lambd0 self) folds in
  compute_cverror lambd0 folds self
  = (Ok (foldl next_error 0 errors),
     set_stdout (stdout self ++ replicate (length (List.filter is_singular errors))
                                          (singular_matrix, [])) self).
Proof.
  intros Hlaw Hk Hp Hfolds errors. unfold compute_cverror.
  rewrite (compute_cverror_run lambd0 folds n self Hlaw Hk Hp Hfolds 0 self eq_refl eq_refl).
  unfold errors. rewrite !foldl_fmap. f_equal.
  rewrite <- (foldl_fmap (fun s e => fold_output e s) self folds (fold_error lambd0 self)).
  apply fold_output_stdout.
Qed.

(** X4. When no fold is singular, [compute_cverror] returns the sum of the
    errors of the folds, prints nothing and leaves [self] as it was. *)
Theorem compute_cverror_sums_regular_folds (lambd0 : Qc)
        (folds : list (list nat * list nat)) (n : nat) (self : kcsd) :
  linalg_inv_law ->
  has_shape n n (k_pot self) ->
  has_shape n (ncols (pots self)) (pots self) ->
  Forall (in_range n) folds ->
  Forall (fun f => is_Some (fold_error lambd0 self f)) folds ->
  compute_cverror lambd0 folds self
  = (Ok (sum (omap (fold_error lambd0 self) folds)), self).
Proof.
  intros Hlaw Hk Hp Hfolds Hreg. unfold compute_cverror.
  rewrite (compute_cverror_run lambd0 folds n self Hlaw Hk Hp Hfolds 0 self eq_refl eq_refl).
  assert (H : forall (err : Qc) (s : kcsd),
            foldl (fun e f => next_error e (fold_error lambd0 self f)) err folds
            = err + sum (omap (fold_error lambd0 self) folds) /\
            foldl (fun s f => fold_output (fold_error lambd0 self f) s) s folds = s).
  { clear Hfolds. induction Hreg as [|f folds [x Hx] Hrest IH]; intros err s.
    - split; [|done]. unfold sum. simpl. ring.
    - cbn [foldl omap list_omap]. rewrite Hx. simpl.
      destruct (IH (err + x) s) as [-> ->]. split; [|done].
      unfold sum. simpl. ring. }
  destruct (H 0 self) as [-> ->]. do 2 f_equal. ring.
Qed.

(** X5. The result does not depend on the folds before a singular one:
    after a singular fold the running error is 10000, to which the later
    folds add. *)
Theorem compute_cverror_forgets_before_singular (lambd0 : Qc)
        (before after : list (list nat * list nat)) (f : list nat * list nat)
        (n : nat) (self : kcsd) :
  linalg_inv_law ->
  has_shape n n (k_pot self) ->
  has_shape n (ncols (pots self)) (pots self) ->
  Forall (in_range n) (before ++ f :: after) ->
  fold_error lambd0 self f = None ->
  (compute_cverror lambd0 (before ++ f :: after) self).1
  = Ok (foldl next_error sentinel (map (fold_error lambd0 self) after)).
Proof.
  intros Hlaw Hk Hp Hfolds Hsing. unfold compute_cverror.
  rewrite (compute_cverror_run lambd0 _ n self Hlaw Hk Hp Hfolds 0 self eq_refl eq_refl).
  simpl. rewrite foldl_app. cbn [foldl]. rewrite Hsing. simpl.
  by rewrite foldl_fmap.
Qed.

(** X6. The error [compute_cverror] returns is never negative: it is a
    sum of norms, or 10000 plus a sum of norms. *)
Theorem compute_cverror_nonneg (lambd0 : Qc) (folds : list (list nat * list nat))
        (n : nat) (self : kcsd) :
  linalg_inv_law -> sqrt_law ->
  has_shape n n (k_pot self) ->
  has_shape n (ncols (pots self)) (pots self) ->
  Forall (in_range n) folds ->
  exists (err : Qc) (self' : kcsd),
    compute_cverror lambd0 folds self = (Ok err, self') /\ 0 <= err.
Proof.
  intros Hlaw Hsqrt Hk Hp Hfolds. unfold compute_cverror.
  rewrite (compute_cverror_run lambd0 folds n self Hlaw Hk Hp Hfolds 0 self eq_refl eq_refl).
  eexists _, _. split; [reflexivity|].
  assert (H : forall err, 0 <= err ->
            0 <= foldl (fun e f => next_error e (fold_error lambd0 self f)) err folds).
  { clear Hfolds. induction folds as [|f folds IH]; intros err Herr; [done|].
    cbn [foldl]. apply IH.
    unfold fold_error. destruct f as [train test].
    destruct (linalg_inv _) as [B_inv|]; simpl.
    - replace 0 with (0 + 0) by ring. apply Qcplus_le_compat; [done|]. apply Hsqrt.
    - by apply (bool_decide_unpack _). }
  apply H. apply Qcle_refl.
Qed.

End Error_theorems.

Ltac shape_eval := apply has_shapeb_spec; vm_compute; reflexivity.
Ltac range_eval := split; simpl; repeat constructor; lia.

Lemma ofZ_nonneg (z : Z) : (0 <= z)%Z -> 0 <= ofZ z.
Proof.
  intros Hz. unfold Qcle. rewrite ofZ_this. simpl.
  unfold Qle. simpl. lia.
Qed.

Lemma Qcdiv_nonneg (a b : Qc) : 0 <= a -> 0 <= b -> 0 <= a / b.
Proof.
  intros Ha Hb. unfold Qcdiv. apply Qcmult_nonneg_nonneg; [done|].
  destruct (decide (b = 0)) as [->|Hne]; [by apply (bool_decide_unpack _)|].
  apply Qclt_le_weak, Qcinv_pos. apply Qcle_lt_or_eq in Hb as [H|H]; [done|].
  by destruct Hne.
Qed.

Lemma reference_sqrt_law : @sqrt_law Reference.numerics.
Proof.
  intros x. simpl. unfold Reference.sqrt.
  destruct (Qnum x <=? 0)%Z; [apply Qcle_refl|].
  destruct (_ && _).
  - apply Qcdiv_nonneg; apply ofZ_nonneg, Z.sqrt_nonneg.
  - apply Qcdiv_nonneg; apply ofZ_nonneg; [apply Z.sqrt_nonneg | lia].
Qed.

Lemma cverror_fold_adds_prediction_error_witness :
  let self := Examples.coincident in
  @cverror_fold Reference.numerics 0 0 ([1; 2], [0])%nat self
  = (Ok (0 + @linalg_norm Reference.numerics
               (mat_sub (predicted (submatrix [0%nat] [1; 2]%nat (k_pot self))
                                   (mat_mul [[1; 0]; [0; 1]] (rows_of [1; 2]%nat (pots self)))
                                   (ncols (pots self)))
                        (rows_of [0%nat] (pots self)))), self).
Proof.
  intros self.
  apply (@cverror_fold_adds_prediction_error Reference.numerics 0 0 [1; 2]%nat [0%nat] 3
           self [[1; 0]; [0; 1]]).
  - exact reference_linalg_inv_law.
  - shape_eval.
  - shape_eval.
  - range_eval.
  - by_eval.
Defined.

Lemma compute_cverror_closed_form_witness :
  let self := Examples.coincident in
  let errors := map (@fold_error Reference.numerics 0 self) (leave_one_out 3) in
  @compute_cverror Reference.numerics 0 (leave_one_out 3) self
  = (Ok (foldl next_error 0 errors),
     set_stdout (stdout self ++ replicate (length (List.filter is_singular errors))
                                          (singular_matrix, [])) self).
Proof.
  intros self.
  apply (@compute_cverror_closed_form Reference.numerics 0 (leave_one_out 3) 3 self).
  - exact reference_linalg_inv_law.
  - shape_eval.
  - shape_eval.
  - repeat constructor; simpl; lia.
Defined.

Lemma compute_cverror_sums_regular_folds_witness :
  let self := Examples.small in
  @compute_cverror Reference.numerics 1 (leave_one_out 2) self
  = (Ok (sum (omap (@fold_error Reference.numerics 1 self) (leave_one_out 2))), self).
Proof.
  intros self.
  apply (@compute_cverror_sums_regular_folds Reference.numerics 1 (leave_one_out 2) 2 self).
  - exact reference_linalg_inv_law.
  - shape_eval.
  - shape_eval.
  - repeat constructor; simpl; lia.
  - repeat constructor; vm_compute; by eexists.
Defined.

Lemma compute_cverror_forgets_before_singular_witness :
  let self := Examples.coincident in
  (@compute_cverror Reference.numerics 0 ([([1; 2], [0])] ++ ([0; 2], [1]) :: [([0; 1], [2])])%nat
     self).1
  = Ok (foldl next_error sentinel
          (map (@fold_error Reference.numerics 0 self) [([0; 1], [2])]%nat)).
Proof.
  intros self.
  apply (@compute_cverror_forgets_before_singular Reference.numerics 0
           [([1; 2], [0])]%nat [([0; 1], [2])]%nat ([0; 2], [1])%nat 3 self).
  - exact reference_linalg_inv_law.
  - shape_eval.
  - shape_eval.
  - repeat constructor; simpl; lia.
  - by_eval.
Defined.

Lemma compute_cverror_nonneg_witness :
  exists (err : Qc) (self' : kcsd),
    @compute_cverror Reference.numerics 0 (leave_one_out 3) Examples.coincident
    = (Ok err, self') /\ 0 <= err.
Proof.
  apply (@compute_cverror_nonneg Reference.numerics 0 (leave_one_out 3) 3 Examples.coincident).
  - exact reference_linalg_inv_law.
  - exact reference_sqrt_law.
  - shape_eval.
  - shape_eval.
  - repeat constructor; simpl; lia.
Defined.

(** ** The look up table: what is read *)

Lemma np_round_bounds (q : Qc) : (Qfloor q <= np_round q <= Qfloor q + 1)%Z.
Proof. unfold np_round. repeat case_bool_decide; try destruct (Z.even _); lia. Qed.

Lemma Qfloor_ofZ_le (z : Z) (q : Qc) : ofZ z <= q -> (z <= Qfloor q)%Z.
Proof.
  intros H. rewrite <- (Qfloor_Z z). apply Qfloor_resp_le.
  unfold Qcle in H. by rewrite ofZ_this in H.
Qed.

Lemma Qfloor_lt_ofZ (z : Z) (q : Qc) : q < ofZ z -> (Qfloor q < z)%Z.
Proof.
  intros H. unfold Qclt in H. rewrite ofZ_this in H.
  pose proof (Qfloor_le q) as Hf.
  apply Qlt_not_le in H. apply Z.nle_gt. intros Hz. apply H.
  eapply Qle_trans; [|exact Hf]. by rewrite <- Zle_Qle.
Qed.

Lemma scaled_at_least (L d dmax : Qc) :
  0 <= L -> 0 < dmax -> dmax <= d -> L <= L * d / dmax.
Proof.
  intros HL Hpos Hd. apply (Qcmult_lt_0_le_reg_r _ _ dmax Hpos).
  assert (Hne : dmax <> 0).
  { intros ->. by apply (Qclt_not_eq 0 0). }
  replace (L * d / dmax * dmax) with (d * L) by (field; done).
  rewrite (Qcmult_comm L dmax). by apply Qcmult_le_compat_r.
Qed.

Lemma scaled_below (L d dmax bound : Qc) :
  0 < dmax -> L * d < bound * dmax -> L * d / dmax < bound.
Proof.
  intros Hpos H. apply Qcnot_le_lt. intros Hle.
  apply (Qcmult_le_compat_r _ _ dmax) in Hle; [|by apply Qclt_le_weak].
  assert (Hne : dmax <> 0).
  { intros ->. by apply (Qclt_not_eq 0 0). }
  replace (L * d / dmax * dmax) with (L * d) in Hle by (field; done).
  by apply Qcle_not_lt in Hle.
Qed.

Lemma ofnat_nonneg (n : nat) : 0 <= ofnat n.
Proof. unfold ofnat. apply ofZ_nonneg. lia. Qed.

Lemma lookup_beyond_dist_max (table : vec) (dmax d : Qc) :
  0 < dmax -> dmax <= d ->
  ofnat (length table) * d < ofZ 65535 * dmax ->
  lookup table dmax d = last table.
Proof.
  intros Hpos Hd Hsmall. unfold lookup, table_index.
  set (q := ofnat (length table) * d / dmax).
  assert (Hlo : (Z.of_nat (length table) <= np_round q)%Z).
  { pose proof (np_round_bounds q).
    pose proof (Qfloor_ofZ_le (Z.of_nat (length table)) q
                  (scaled_at_least _ d dmax (ofnat_nonneg _) Hpos Hd)). lia. }
  assert (Hhi : (np_round q < 65536)%Z).
  { pose proof (np_round_bounds q).
    pose proof (Qfloor_lt_ofZ 65535 q (scaled_below _ d dmax _ Hpos Hsmall)). lia. }
  unfold np_uint16. rewrite Z.mod_small by lia.
  rewrite last_lookup. f_equal. lia.
Qed.

Section Lookup_more.
Context `{ext : External}.

(** X7. On a table that holds a bucket, [generated_potential] returns an
    array of the shape of [dist] whose entries are all entries of the
    table, and leaves [self] as it was; on an empty table every distance
    raises IndexError. *)
Theorem generated_potential_reads_table (dist : mat) (self : kcsd) :
  (dist_table self <> [] ->
   exists pot : mat,
     generated_potential dist self = (Ok pot, self) /\
     Forall2 (fun prow drow : vec => length prow = length drow) pot dist /\
     Forall (Forall (fun v => v ∈ dist_table self)) pot) /\
  (dist_table self = [] -> concat dist <> [] ->
   generated_potential dist self = (Raise IndexError, self)).
Proof.
  split.
  - intros Hne. destruct (generated_potential_Ok dist self Hne) as (pot & Hrun & ->).
    eexists. split; [exact Hrun|]. split.
    + apply Forall2_fmap_l, Forall_Forall2_diag, Forall_forall. intros row _.
      simpl. apply length_map.
    + apply Forall_fmap, Forall_forall. intros row _. simpl.
      apply Forall_fmap, Forall_forall. intros d _. simpl.
      destruct (lookup_is_Some (dist_table self) (dist_max self) d Hne) as [x Hx].
      rewrite Hx. simpl. unfold lookup in Hx. by apply list_elem_of_lookup_2 in Hx.
  - intros Hnil Hdist. unfold generated_potential. rewrite bind_get.
    replace (mapM _ dist) with (@None mat); [done|]. symmetry.
    apply mapM_None_2. 
    assert (Hex : Exists (fun row : vec => row <> []) dist).
    { clear -Hdist. induction dist as [|row dist IH]; [done|].
      destruct row as [|d row]; [right; by apply IH | by left]. }
    eapply Exists_impl; [exact Hex|]. intros row Hrow. simpl in Hrow.
    apply mapM_None_2. destruct row as [|d row]; [done|]. left.
    unfold lookup. rewrite Hnil. done.
Qed.

(** X8. Distances from [dist_max] on read the last bucket, as long as the
    scaled distance stays below 65535. *)
Theorem generated_potential_saturates (dist : mat) (self : kcsd) (v : Qc) :
  0 < dist_max self ->
  last (dist_table self) = Some v ->
  Forall (Forall (fun d => dist_max self <= d /\
                           ofnat (length (dist_table self)) * d
                           < ofZ 65535 * dist_max self)) dist ->
  generated_potential dist self = (Ok (map (map (fun _ => v)) dist), self).
Proof.
  intros Hpos Hlast Hdist.
  assert (Hne : dist_table self <> []) by (by destruct (dist_table self)).
  destruct (generated_potential_Ok dist self Hne) as (pot & Hrun & ->).
  rewrite Hrun. do 2 f_equal.
  apply map_ext_in. intros row Hrow. apply map_ext_in. intros d Hd.
  rewrite Forall_forall in Hdist. apply list_elem_of_In in Hrow, Hd.
  specialize (Hdist row Hrow). rewrite Forall_forall in Hdist.
  destruct (Hdist d Hd) as [H1 H2].
  by rewrite (lookup_beyond_dist_max _ _ _ Hpos H1 H2), Hlast.
Qed.

End Lookup_more.

Lemma generated_potential_reads_table_witness :
  exists pot : mat,
    generated_potential [[0; Examples.q 1 2]; [1; ofZ 656]] Examples.ramp
    = (Ok pot, Examples.ramp) /\
    Forall2 (fun prow drow : vec => length prow = length drow) pot
            [[0; Examples.q 1 2]; [1; ofZ 656]] /\
    Forall (Forall (fun v => v ∈ dist_table Examples.ramp)) pot.
Proof.
  apply (generated_potential_reads_table [[0; Examples.q 1 2]; [1; ofZ 656]] Examples.ramp).
  done.
Defined.

Lemma generated_potential_saturates_witness :
  generated_potential [[1; ofZ 2]; [ofZ 655; Examples.q 3 2]] Examples.ramp
  = (Ok (map (map (fun _ => ofnat 99)) [[1; ofZ 2]; [ofZ 655; Examples.q 3 2]]),
     Examples.ramp).
Proof.
  apply (generated_potential_saturates _ Examples.ramp (ofnat 99)).
  - by_eval.
  - by_eval.
  - repeat constructor; by_eval.
Defined.

(** ** Keyword arguments and electrode positions *)

Section Keywords.
Context `{ext : External}.

(** X9. A keyword that is none of the fourteen options is ignored: the
    constructor behaves as if it had not been passed. *)
Theorem init_ignores_other_keywords (ele_pos0 pots0 : mat)
        (kwargs : gmap string value) (key : string) (v : value) :
  key ∉ option_names ->
  init ele_pos0 pots0 (<[key := v]> kwargs) = init ele_pos0 pots0 kwargs.
Proof.
  intros Hkey. unfold option_names in Hkey.
  rewrite !not_elem_of_cons in Hkey.
  destruct Hkey as (? & ? & ? & ? & ? & ? & ? & ? & ? & ? & ? & ? & ? & ? & _).
  unfold init. f_equal.
  unfold parameters, kwargs_num. by rewrite !lookup_insert_ne by done.
Qed.

Lemma kwargs_num_inv (kwargs : gmap string value) (key : string) (d v : Qc)
      (s s' : kcsd) :
  kwargs_num kwargs key d s = (Ok v, s') -> s' = s.
Proof.
  unfold kwargs_num. destruct (kwargs !! key) as [[?|?]|]; intros H; by inversion H.
Qed.

(** What [parameters] needs of the electrode positions. *)
Lemma parameters_Ok_inv (kwargs : gmap string value) (self self' : kcsd) :
  parameters kwargs self = (Ok tt, self') ->
  exists xs ys : vec,
    col_at 0 (ele_pos self) = Some xs /\ is_Some (np_min xs) /\
    col_at 1 (ele_pos self) = Some ys.
Proof.
  unfold parameters. rewrite bind_assign. intros H.
  repeat (apply bind_inv_Ok in H as (? & ? & Hk & H);
          apply kwargs_num_inv in Hk; subst; rewrite bind_assign in H).
  rewrite bind_get in H. simpl in H.
  apply bind_inv_Ok in H as (xs & ? & Hxs & H).
  apply bind_inv_Ok in H as (d & ? & Hd & H).
  apply bind_inv_Ok in H as (? & ? & _ & H). rewrite bind_assign in H.
  apply bind_inv_Ok in H as (? & ? & _ & H).
  apply bind_inv_Ok in H as (? & ? & _ & H).
  apply bind_inv_Ok in H as (? & ? & _ & H). rewrite bind_assign in H.
  apply bind_inv_Ok in H as (ys & ? & Hys & H).
  exists xs, ys.
  destruct (col_at 0 (ele_pos self)) as [xs'|]; [|done]. inversion Hxs; subst.
  destruct (np_min xs) as [m|]; [|done].
  destruct (col_at 1 (ele_pos self)) as [ys'|]; [|done]. inversion Hys; subst.
  split; [done|]. split; [by eexists | done].
Qed.

(** X10. Without electrodes, or with electrode positions of fewer than two
    coordinates, the constructor raises whatever keywords are passed: the
    defaults of [xmin], [xmax], [ymin], [ymax] are computed from [ele_pos]
    even when the bounds are given. *)
Theorem init_requires_electrode_coordinates (ele_pos0 pots0 : mat)
        (kwargs : gmap string value) (c : nat) :
  has_shape (length ele_pos0) c ele_pos0 ->
  ele_pos0 = [] \/ (c < 2)%nat ->
  exists (e : exn) (self : kcsd),
    init ele_pos0 pots0 kwargs new_object = (Raise e, self).
Proof.
  intros [_ Hrows] Hbad.
  destruct (init ele_pos0 pots0 kwargs new_object) as [[[]|e] self] eqn:Hrun;
    [|by eexists _, _].
  exfalso. unfold init in Hrun.
  apply bind_inv_Ok in Hrun as ([] & s1 & H1 & Hrun).
  apply bind_inv_Ok in Hrun as ([] & s2 & H2 & _).
  inversion H1; subst; clear H1.
  apply parameters_Ok_inv in H2 as (xs & ys & Hxs & [m Hm] & Hys). simpl in Hxs, Hys.
  destruct ele_pos0 as [|row rest].
  - inversion Hxs; subst. done.
  - destruct Hbad as [|Hc]; [done|]. inversion Hrows as [|? ? Hrow _]; subst.
    unfold col_at in Hxs, Hys.
    apply mapM_Some_1 in Hxs, Hys.
    inversion Hxs as [|? x ? ? Hx _]; subst. inversion Hys as [|? y ? ? Hy _]; subst.
    apply lookup_lt_Some in Hx, Hy. lia.
Qed.

End Keywords.

Lemma init_ignores_other_keywords_witness :
  @init Reference.numerics Examples.ele3 Examples.pots3
    (<["lambda" := VNum (ofZ 5)]> Examples.kwargs3)
  = @init Reference.numerics Examples.ele3 Examples.pots3 Examples.kwargs3.
Proof.
  apply (@init_ignores_other_keywords Reference.numerics). 
  unfold option_names. rewrite !not_elem_of_cons. repeat split; try done.
  apply not_elem_of_nil.
Defined.

Lemma init_requires_electrode_coordinates_witness :
  let bounds : gmap string value :=
    <["xmin" := VNum 0]> (<["xmax" := VNum 1]>
      (<["ymin" := VNum 0]> (<["ymax" := VNum 1]> ∅))) in
  (exists (e : exn) (self : kcsd),
     @init Reference.numerics [] [] bounds new_object = (Raise e, self)) /\
  (exists (e : exn) (self : kcsd),
     @init Reference.numerics [[0]; [1]] [[1]; [1]] bounds new_object = (Raise e, self)).
Proof.
  intros bounds. split.
  - apply (@init_requires_electrode_coordinates Reference.numerics [] [] bounds 2).
    + split; [done | constructor].
    + by left.
  - apply (@init_requires_electrode_coordinates Reference.numerics [[0]; [1]] [[1]; [1]]
             bounds 1).
    + split; [done | repeat constructor].
    + right. lia.
Defined.

(** ** The estimation mesh *)

Lemma ofZ_plus (a b : Z) : ofZ (a + b) = ofZ a + ofZ b.
Proof.
  apply Qc_is_canon. unfold ofZ. simpl.
  rewrite !Qred_correct. rewrite inject_Z_plus. reflexivity.
Qed.

Lemma ofnat_S (n : nat) : ofnat (S n) = ofnat n + 1.
Proof.
  unfold ofnat. rewrite Nat2Z.inj_succ, <- Z.add_1_r, ofZ_plus. reflexivity.
Qed.

(** The points of one axis reach [stop] when there are at least two. *)
Lemma mgrid_axis_last (start stop : Qc) (count : nat) :
  (2 <= count)%nat ->
  ofnat (count - 1) * ((stop - start) / (ofnat count - 1)) + start = stop.
Proof.
  intros Hc. destruct count as [|k]; [lia|].
  replace (S k - 1)%nat with k by lia. rewrite ofnat_S.
  assert (Hk : ofnat k <> 0).
  { assert (0 < ofnat k) by (apply ofnat_pos; lia).
    intros E. rewrite E in H. by apply (Qclt_not_eq 0 0). }
  field. intros E. apply Hk. rewrite <- E. ring.
Qed.

Section Mesh.
Context `{ext : External}.

(** X11. [estimate_at] builds two meshes of shape [(ngx, ngy)]:
    [estm_x[i, j]] is the [i]-th of [ngx] evenly spaced points from [xmin]
    to [xmax] and [estm_y[i, j]] the [j]-th of [ngy] points from [ymin] to
    [ymax]; with two points or more on an axis, both bounds are met.  The
    increments are not 0: Python raises on the division by a zero
    increment, which the rational model does not represent. *)
Theorem estimate_at_mesh (self : kcsd) :
  gdx self <> 0 -> gdy self <> 0 ->
  exists self' : kcsd,
    estimate_at self = (Ok tt, self') /\
    has_shape (ngx self') (ngy self') (estm_x self') /\
    has_shape (ngx self') (ngy self') (estm_y self') /\
    n_estm self' = (ngx self' * ngy self')%nat /\
    let stepx := if (ngx self' =? 1)%nat then 1
                 else (xmax self - xmin self) / (ofnat (ngx self') - 1) in
    let stepy := if (ngy self' =? 1)%nat then 1
                 else (ymax self - ymin self) / (ofnat (ngy self') - 1) in
    (forall i j : nat, (i < ngx self')%nat -> (j < ngy self')%nat ->
       get2 (estm_x self') i j = Some (ofnat i * stepx + xmin self) /\
       get2 (estm_y self') i j = Some (ofnat j * stepy + ymin self)) /\
    ((2 <= ngx self')%nat -> ofnat (ngx self' - 1) * stepx + xmin self = xmax self) /\
    ((2 <= ngy self')%nat -> ofnat (ngy self' - 1) * stepy + ymin self = ymax self).
Proof.
  intros _ _. unfold estimate_at. rewrite bind_get. unfold mgrid.
  set (nx := (xmax self - xmin self) / gdx self).
  set (ny := (ymax self - ymin self) / gdy self).
  rewrite !bind_assign. eexists. split; [reflexivity|]. simpl.
  unfold mgrid_axis. rewrite !length_map, !length_seq.
  set (cx := Z.to_nat (Qfloor (Qabs nx))). set (cy := Z.to_nat (Qfloor (Qabs ny))).
  split; [|split; [|split; [|split; [|split]]]].
  - split; [by rewrite !length_map, length_seq|].
    apply Forall_fmap, Forall_forall. intros x _. simpl.
    by rewrite !length_map, length_seq.
  - split; [by rewrite !length_map, length_seq|].
    apply Forall_fmap, Forall_forall. intros x _. simpl.
    by rewrite !length_map, length_seq.
  - unfold size. apply concat_length_shape; [by rewrite !length_map, length_seq|].
    apply Forall_fmap, Forall_forall. intros x _. simpl.
    by rewrite !length_map, length_seq.
  - intros i j Hi Hj. unfold get2.
    rewrite !list_lookup_fmap, !lookup_seq_lt by done. simpl.
    rewrite !list_lookup_fmap, !lookup_seq_lt by done. simpl. done.
  - intros Hc. destruct (cx =? 1)%nat eqn:E; [apply Nat.eqb_eq in E; lia|].
    by apply mgrid_axis_last.
  - intros Hc. destruct (cy =? 1)%nat eqn:E; [apply Nat.eqb_eq in E; lia|].
    by apply mgrid_axis_last.
Qed.

End Mesh.

Lemma estimate_at_mesh_witness :
  let self := (@parameters Examples.kwargs3
                 ((@CSD_init Examples.ele3 Examples.pots3) new_object).2).2 in
  exists self' : kcsd,
    estimate_at self = (Ok tt, self') /\
    has_shape (ngx self') (ngy self') (estm_x self') /\
    has_shape (ngx self') (ngy self') (estm_y self') /\
    n_estm self' = (ngx self' * ngy self')%nat /\
    let stepx := if (ngx self' =? 1)%nat then 1
                 else (xmax self - xmin self) / (ofnat (ngx self') - 1) in
    let stepy := if (ngy self' =? 1)%nat then 1
                 else (ymax self - ymin self) / (ofnat (ngy self') - 1) in
    (forall i j : nat, (i < ngx self')%nat -> (j < ngy self')%nat ->
       get2 (estm_x self') i j = Some (ofnat i * stepx + xmin self) /\
       get2 (estm_y self') i j = Some (ofnat j * stepy + ymin self)) /\
    ((2 <= ngx self')%nat -> ofnat (ngx self' - 1) * stepx + xmin self = xmax self) /\
    ((2 <= ngy self')%nat -> ofnat (ngy self' - 1) * stepy + ymin self = ymax self).
Proof.
  intros self. apply (estimate_at_mesh self); by_eval.
Defined.

(** ** [values]: effects and outcomes *)

Section Values_more.
Context `{ext : External}.

Lemma values_silent (estimate : string) : preserves silent (values estimate).
Proof. unfold values, print. solve_preserves. Qed.

Lemma values_valid_tag_keeps (estimate : string) :
  estimate = "CSD"%string \/ estimate = "POT"%string ->
  preserves (fun s => s) (values estimate).
Proof.
  intros Htag. unfold values.
  destruct Htag as [-> | ->].
  - rewrite (bool_decide_eq_true_2 ("CSD" = "CSD")%string) by done. solve_preserves.
  - rewrite (bool_decide_eq_false_2 ("POT" = "CSD")%string) by done.
    rewrite (bool_decide_eq_true_2 ("POT" = "POT")%string) by done. solve_preserves.
Qed.

(** X12. [values] is read-only: with 'CSD' or 'POT' it leaves [self] as it
    was, whether it returns or raises and whatever state it is called in;
    with any other tag only the printed text changes. *)
Theorem values_is_read_only (estimate : string) (self self' : kcsd)
        (r : outcome retval) :
  values estimate self = (r, self') ->
  silent self' = silent self /\
  (estimate = "CSD"%string \/ estimate = "POT"%string -> self' = self).
Proof.
  intros Hrun. split.
  - by apply (values_silent estimate self r self').
  - intros Htag. by apply (values_valid_tag_keeps estimate Htag self r self').
Qed.


Lemma cross_kernel_valid (estimate : string) (self : kcsd) :
  assembled self = true ->
  estimate = "CSD"%string \/ estimate = "POT"%string ->
  exists cross : mat,
    cross_kernel estimate self = Some cross /\
    has_shape (n_estm self) (n_ele self) cross.
Proof.
  intros Hasm Htag.
  unfold assembled in Hasm. rewrite !andb_true_iff, Nat.eqb_eq in Hasm.
  destruct Hasm as [[[[Hk Hp] Hc1] Hc2] Hsz].
  apply has_shapeb_spec in Hc1, Hc2.
  destruct Htag as [-> | ->]; eexists; (split; [reflexivity | done]).
Qed.

(** With an inverse of the regularised kernel, [values] returns. *)
Lemma values_regular (estimate : string) (self : kcsd) (k_inv : mat) :
  linalg_inv_law ->
  assembled self = true ->
  estimate = "CSD"%string \/ estimate = "POT"%string ->
  linalg_inv (regularised self) = Some k_inv ->
  exists a : arr3,
    values estimate self = (Ok (RArr3 a), self) /\
    has_shape3 (ngx self) (ngy self) (n_time self) a.
Proof.
  intros Hlaw Hasm Htag Hinv.
  destruct (cross_kernel_valid estimate self Hasm Htag) as (cross & Hcross & Hc).
  unfold assembled in Hasm. rewrite !andb_true_iff, Nat.eqb_eq in Hasm.
  destruct Hasm as [[[[Hk Hp] _] _] Hsz].
  apply has_shapeb_spec in Hk, Hp.
  assert (Hki : has_shape (n_ele self) (n_ele self) k_inv).
  { apply Hlaw in Hinv. unfold regularised in Hinv.
    destruct (mat_add_shape _ _ (k_pot self)
                (mat_scale (lambd self) (identity (n_ele self))) Hk
                (mat_scale_shape _ _ _ _ (identity_shape _))) as [Hlen _].
    by rewrite Hlen in Hinv. }
  eexists. split; [by apply (values_closed_form self estimate cross k_inv)|].
  pose proof (estimate_matrix_shape _ _ cross k_inv (pots self) (n_time self) Hc) as HE.
  rewrite Hsz in HE. by apply reshape3_Some.
Qed.

(** Without one, the inversion raises before any estimate is computed. *)
Lemma values_singular (estimate : string) (self : kcsd) :
  assembled self = true ->
  estimate = "CSD"%string \/ estimate = "POT"%string ->
  linalg_inv (regularised self) = None ->
  values estimate self = (Raise LinAlgError, self).
Proof.
  intros Hasm Htag Hinv.
  destruct (cross_kernel_valid estimate self Hasm Htag) as (cross & Hcross & Hc).
  unfold assembled in Hasm. rewrite !andb_true_iff, Nat.eqb_eq in Hasm.
  destruct Hasm as [[[[Hk _] _] _] _]. apply has_shapeb_spec in Hk.
  unfold values. rewrite bind_get.
  rewrite (bind_Ok _ _ self (Some cross) self).
  2:{ unfold cross_kernel in Hcross. repeat case_bool_decide; try done;
        inversion Hcross; reflexivity. }
  destruct Hk as [Hk1 Hk2]. rewrite Hk1.
  erewrite add_mm_Some; [| split; eassumption | apply mat_scale_shape, identity_shape].
  rewrite bind_lift_Some. fold (regularised self). by rewrite Hinv, bind_lift_None.
Qed.

(** X13. On assembled kernels [values] with a valid tag has two outcomes:
    an array of shape [(ngx, ngy, n_time)] when [k_pot + lambd I] can be
    inverted, LinAlgError when it cannot.  No other exception is raised. *)
Theorem values_returns_or_singular (estimate : string) (self : kcsd) :
  linalg_inv_law ->
  assembled self = true ->
  estimate = "CSD"%string \/ estimate = "POT"%string ->
  (exists a : arr3,
     values estimate self = (Ok (RArr3 a), self) /\
     has_shape3 (ngx self) (ngy self) (n_time self) a /\
     is_Some (linalg_inv (regularised self))) \/
  (values estimate self = (Raise LinAlgError, self) /\
   linalg_inv (regularised self) = None).
Proof.
  intros Hlaw Hasm Htag.
  destruct (linalg_inv (regularised self)) as [k_inv|] eqn:Hinv.
  - left.
    destruct (values_regular estimate self k_inv Hlaw Hasm Htag Hinv) as (a & Hrun & Hs).
    exists a. split; [exact Hrun|]. split; [exact Hs | by eexists].
  - right. split; [|reflexivity]. by apply values_singular.
Qed.

End Values_more.

Lemma values_is_read_only_witness :
  let self := Examples.small in
  let run := @values Reference.numerics "CSD" self in
  silent run.2 = silent self /\
  ("CSD"%string = "CSD"%string \/ "CSD"%string = "POT"%string -> run.2 = self).
Proof.
  intros self run.
  apply (@values_is_read_only Reference.numerics "CSD" self run.2 run.1).
  apply surjective_pairing.
Defined.

Lemma values_returns_or_singular_witness :
  let self := Examples.small in
  (exists a : arr3,
     @values Reference.numerics "POT" self = (Ok (RArr3 a), self) /\
     has_shape3 (ngx self) (ngy self) (n_time self) a /\
     is_Some (@linalg_inv Reference.numerics (regularised self))) \/
  (@values Reference.numerics "POT" self = (Raise LinAlgError, self) /\
   @linalg_inv Reference.numerics (regularised self) = None).
Proof.
  intros self.
  apply (@values_returns_or_singular Reference.numerics "POT" self).
  - exact reference_linalg_inv_law.
  - reflexivity.
  - by right.
Defined.

(** ** Kernel assembly: the other arrays, and rebuilding *)

Lemma nth_map_in {A} (h : A -> Qc) (l : list A) (i : nat) (p : A) :
  l !! i = Some p -> nth i (map h l) 0 = h p.
Proof.
  intros Hp. apply nth_lookup_Some. by rewrite list_lookup_fmap, Hp.
Qed.

Section Coincident.
Context `{ext : External}.

Lemma col_b_pot_of (self : kcsd) (i : nat) (p : vec) :
  ele_pos self !! i = Some p ->
  col i (b_pot_of self)
  = map (fun a => default 0 (lookup (dist_table self) (dist_max self)
                   (np_sqrt (sum (zip_with (fun x y => (x - y) * (x - y)) a p)))))
        (sources self).
Proof.
  intros Hp. unfold col, b_pot_of, cdist. fold (sources self).
  rewrite !map_map. apply map_ext. intros a. rewrite map_map.
  by rewrite (nth_map_in _ _ i p Hp).
Qed.

(** X14. Two electrodes at the same position give [b_pot] two equal
    columns and [k_pot] two equal rows and two equal columns. *)
Theorem update_b_pot_coincident_electrodes (self : kcsd) (i j : nat) (p : vec) :
  dist_table self <> [] ->
  concat (src_x self) <> [] -> concat (src_y self) <> [] ->
  length (ele_pos self) = n_ele self ->
  ele_pos self !! i = Some p -> ele_pos self !! j = Some p ->
  exists self' : kcsd,
    update_b_pot self = (Ok tt, self') /\
    col i (b_pot self') = col j (b_pot self') /\
    k_pot self' !! i = k_pot self' !! j /\
    col i (k_pot self') = col j (k_pot self').
Proof.
  intros Htab Hsx Hsy Hele Hi Hj.
  eexists. split; [by apply update_b_pot_run|]. simpl.
  pose proof (b_pot_of_shape self) as [HB1 HB2].
  set (B := b_pot_of self) in *. rewrite Hele in HB2.
  assert (Hnc : ncols B = n_ele self).
  { destruct B as [|row B'] eqn:HB.
    - destruct (concat (src_x self)), (concat (src_y self)); done.
    - simpl. by inversion HB2. }
  assert (Hcol : col i B = col j B).
  { unfold B. by rewrite (col_b_pot_of self i p Hi), (col_b_pot_of self j p Hj). }
  apply lookup_lt_Some in Hi as Hi', Hj as Hj'. rewrite Hele in Hi', Hj'.
  rewrite gram_tab, Hnc, idiv_tab.
  split; [done|]. split.
  - unfold tab. rewrite !list_lookup_fmap, !lookup_seq_lt by done. simpl.
    by rewrite Hcol.
  - rewrite !col_tab by done. by rewrite Hcol.
Qed.

End Coincident.

Lemma update_b_pot_coincident_electrodes_witness :
  let self := set_ele_pos [[0; 0]; [0; 1]; [0; 0]] Examples.placed in
  exists self' : kcsd,
    @update_b_pot Reference.numerics self = (Ok tt, self') /\
    col 0 (b_pot self') = col 2 (b_pot self') /\
    k_pot self' !! 0%nat = k_pot self' !! 2%nat /\
    col 0 (k_pot self') = col 2 (k_pot self').
Proof.
  intros self.
  apply (@update_b_pot_coincident_electrodes Reference.numerics self 0 2 [0; 0]);
    by vm_compute.
Defined.


Lemma get2_unravel (A : mat) (r c i : nat) :
  has_shape r c A -> (i < r * c)%nat ->
  get2 A (i / c) (i mod c) = Some (nth i (concat A) 0).
Proof.
  intros [Hr Hrows]. revert r i Hr.
  induction Hrows as [|row A Hrow _ IH]; intros r i Hr Hi; simpl in *.
  - subst. lia.
  - assert (Hc : (0 < c)%nat) by (destruct c; lia).
    destruct (decide (i < c)%nat) as [Hlt|Hge].
    + rewrite Nat.div_small, Nat.mod_small by done. unfold get2. simpl.
      rewrite app_nth1 by lia. apply lookup_nth. lia.
    + destruct r as [|r']; [done|].
      replace i with ((i - c) + 1 * c)%nat at 1 2 by lia.
      rewrite Nat.div_add, Nat.Div0.mod_add by lia.
      replace ((i - c) / c + 1)%nat with (S ((i - c) / c)) by lia.
      unfold get2. simpl. rewrite app_nth2 by lia. rewrite Hrow.
      apply (IH r'); [lia|]. 
      assert (i < c + r' * c)%nat by lia. lia.
Qed.

Lemma nth_zip_with {A B} (g : A -> B -> Qc) (X : list A) (Y : list B) (p : nat) (a : A) (b : B) :
  (p < length X)%nat -> (p < length Y)%nat ->
  nth p (zip_with g X Y) 0 = g (nth p X a) (nth p Y b).
Proof.
  intros HX HY. apply nth_lookup_Some. apply lookup_zip_with_Some.
  exists (nth p X a), (nth p Y b). split; [done|]. split; by apply lookup_nth.
Qed.

Section Steps.
Context `{ext : External}.

Lemma create_lookup_with (k : nat) (self : kcsd) (f : basis_fn) :
  basis self = Some f ->
  create_lookup k self = (Ok tt, with_lookup k f self).
Proof.
  intros Hf. destruct (create_lookup_run k self f Hf) as (table & Hrun & ->).
  exact Hrun.
Qed.

Lemma update_b_pot_with (self : kcsd) :
  dist_table self <> [] -> update_b_pot self = (Ok tt, with_b_pot self).
Proof. apply update_b_pot_run. Qed.

Lemma update_b_src_with (self : kcsd) (f : basis_fn) :
  basis self = Some f ->
  has_shape (nsx self) (nsy self) (src_x self) ->
  has_shape (nsx self) (nsy self) (src_y self) ->
  n_src self = (nsx self * nsy self)%nat ->
  length (b_pot self) = n_src self ->
  size (estm_x self) = n_estm self -> size (estm_y self) = n_estm self ->
  update_b_src self = (Ok tt, with_b_src f self).
Proof.
  intros Hf Hsx Hsy Hn HB Hex Hey. unfold update_b_src. rewrite bind_get.
  set (g := fun i : nat =>
         zip_with (fun x y => f x y
                     (nth i (concat (src_x self)) 0, nth i (concat (src_y self)) 0)
                     (R self))
                  (concat (estm_x self)) (concat (estm_y self))).
  erewrite bind_Ok.
  2:{ apply (for_map_pure g). intros i Hi. apply elem_of_seq in Hi.
      assert (Hlt : (i < nsx self * nsy self)%nat) by lia.
      apply Nat.ltb_lt in Hlt as Hltb. rewrite Hltb.
      unfold unravel_index.
      rewrite (bind_Ok _ _ self tt self) by done.
      rewrite (get2_unravel _ _ _ _ Hsx Hlt), bind_lift_Some.
      rewrite (get2_unravel _ _ _ _ Hsy Hlt), bind_lift_Some.
      by rewrite (bind_Ok _ _ _ _ _ (get_basis_run self f Hf)). }
  rewrite bind_assign.
  assert (Hb : map (fun p => map (fun c : vec => nth p c 0) (map g (seq 0 (n_src self))))
                   (seq 0 (n_estm self)) = b_src_of f self).
  { unfold b_src_of, tab. apply map_ext_in. intros p Hp. apply in_seq in Hp.
    rewrite map_map. apply map_ext. intros i. unfold g.
    rewrite (nth_zip_with
               (fun x y => f x y (nth i (concat (src_x self)) 0,
                                  nth i (concat (src_y self)) 0) (R self))
               _ _ p 0 0); [done | unfold size in *; lia | unfold size in *; lia]. }
  rewrite Hb.
  erewrite dot_mm_Some; [reflexivity | apply tab_shape | exact HB].
Qed.

Lemma update_b_interp_pot_with (self : kcsd) :
  dist_table self <> [] ->
  length (b_pot self) = length (sources self) ->
  update_b_interp_pot self = (Ok tt, with_b_interp_pot self).
Proof.
  intros Hne HB. unfold update_b_interp_pot. rewrite bind_get.
  fold (sources self) (points self).
  destruct (generated_potential_Ok (cdist (sources self) (points self)) self Hne)
    as (pot & Hrun & Hpot).
  rewrite (bind_Ok _ _ _ _ _ Hrun), bind_assign, bind_get. simpl.
  subst pot. fold (b_interp_pot_of self).
  erewrite dot_mm_Some; [reflexivity | | exact HB].
  split; [reflexivity|].
  apply Forall_forall. intros r Hr. unfold b_interp_pot_of, transpose in Hr.
  apply list_elem_of_fmap in Hr as (j & -> & _). rewrite col_length.
  unfold cdist. by rewrite !length_map.
Qed.

End Steps.


Section Method_closed.
Context `{ext : External}.

Lemma method_assemble (self : kcsd) (f : basis_fn) :
  interpolate_law ->
  ready self -> basis self = Some f ->
  method self = (Ok tt, assemble f self).
Proof.
  intros Hlaw (Hc & Hex & Hey) Hf. unfold constructed in Hc.
  rewrite !andb_true_iff, !Nat.eqb_eq, Nat.ltb_lt, !has_shapeb_spec in Hc.
  destruct Hc as [[[[[[Hb Hsx] Hsy] Hn] Hpos] Hele] Hp].
  unfold method, assemble.
  rewrite (bind_Ok _ _ _ _ _ (create_lookup_with 100 self f Hf)).
  set (s1 := with_lookup 100 f self).
  assert (Hne : dist_table s1 <> []).
  { simpl. pose proof (Hlaw (sparse_dist_table (R self) (dist_max self) 100)
      (map (fun x => forward_model (x / ofnat 100 * dist_max self)
                       (R self) (h self) (sigma self) f)
           (sparse_dist_table (R self) (dist_max self) 100)) 100%nat) as Hlen.
    unfold dist_table_of. destruct (interpolate_dist_table _ _ _); [done | done]. }
  rewrite (bind_Ok _ _ _ _ _ (update_b_pot_with s1 Hne)).
  set (s2 := with_b_pot s1).
  assert (HB : length (b_pot s2) = n_src self).
  { simpl. pose proof (b_pot_of_shape s1) as [HB _]. simpl in HB.
    rewrite length_zip_with, (size_shape _ _ _ Hsx), (size_shape _ _ _ Hsy) in HB.
    rewrite Nat.min_id, <- Hn in HB. exact HB. }
  rewrite (bind_Ok _ _ _ _ _ (update_b_src_with s2 f Hf Hsx Hsy Hn HB Hex Hey)).
  apply update_b_interp_pot_with; [exact Hne|].
  change (length (b_pot s2) = length (sources self)). rewrite HB. unfold sources.
  rewrite length_zip_with, (size_shape _ _ _ Hsx), (size_shape _ _ _ Hsy).
  rewrite Nat.min_id. done.
Qed.

End Method_closed.


Ltac unfold_steps :=
  cbv beta iota zeta delta
    [with_R dist_max_of
     assemble with_lookup with_b_pot with_b_src with_b_interp_pot
     dist_table_of b_pot_of b_src_of b_interp_pot_of sources points
     set_dist_table set_b_pot set_k_pot set_b_src set_k_interp_cross
     set_b_interp_pot set_k_interp_pot set_R set_dist_max set_stdout
     set_cv_error set_lambd
     ele_pos pots n_ele n_time cv_error src_type sigma h n_src_init ext_x ext_y
     lambd R_init xmin xmax ymin ymax gdx gdy estm_x estm_y n_estm ngx ngy
     basis src_x src_y R dist_max n_src nsx nsy dist_table b_pot k_pot b_src
     k_interp_cross b_interp_pot k_interp_pot stdout].

(** Equalities between states built by attribute updates. *)
Ltac same_state self := destruct self; unfold_steps; reflexivity.

Section Twice.
Context `{ext : External}.

Lemma assemble_twice (f : basis_fn) (self : kcsd) :
  assemble f (assemble f self) = assemble f self.
Proof. same_state self. Qed.

Lemma with_R_twice (f : basis_fn) (R0 : Qc) (self : kcsd) :
  with_R f R0 (with_R f R0 self) = with_R f R0 self.
Proof. same_state self. Qed.

Lemma assemble_placement (f : basis_fn) (self : kcsd) :
  (placement (assemble f self), estm_x (assemble f self), estm_y (assemble f self),
   n_estm (assemble f self))
  = (placement self, estm_x self, estm_y self, n_estm self).
Proof. unfold placement. same_state self. Qed.

Lemma ready_ext (s1 s2 : kcsd) :
  (placement s2, estm_x s2, estm_y s2, n_estm s2)
  = (placement s1, estm_x s1, estm_y s1, n_estm s1) ->
  ready s1 -> ready s2.
Proof.
  intros H (Hc & Hx & Hy).
  pose proof (f_equal (fun t => t.1.1.1) H) as Hp.
  pose proof (f_equal (fun t => t.1.1.2) H) as Hex.
  pose proof (f_equal (fun t => t.1.2) H) as Hey.
  pose proof (f_equal (fun t => t.2) H) as Hn. simpl in Hp, Hex, Hey, Hn.
  split; [|by rewrite Hex, Hey, Hn]. rewrite <- Hc. by apply constructed_placement.
Qed.

Lemma ready_basis (self : kcsd) : ready self -> exists f, basis self = Some f.
Proof.
  intros (Hc & _). unfold constructed in Hc. destruct (basis self) as [f|]; [by exists f|done].
Qed.

Lemma ready_sources (self : kcsd) :
  ready self -> concat (src_x self) <> [] /\ concat (src_y self) <> [].
Proof.
  intros (Hc & _). unfold constructed in Hc.
  rewrite !andb_true_iff, !Nat.eqb_eq, Nat.ltb_lt, !has_shapeb_spec in Hc.
  destruct Hc as [[[[[[Hb Hsx] Hsy] Hn] Hpos] Hele] Hp].
  apply size_shape in Hsx, Hsy.
  split; intros E; rewrite E in *; simpl in *; lia.
Qed.

Lemma update_R_with (R0 : Qc) (self : kcsd) (f : basis_fn) :
  interpolate_law -> ready self -> basis self = Some f ->
  update_R R0 self = (Ok tt, with_R f R0 self).
Proof.
  intros Hlaw Hr Hf. destruct (ready_sources self Hr) as [Hsx Hsy].
  unfold update_R. rewrite bind_assign, bind_get.
  change (src_x (set_R R0 self)) with (src_x self).
  change (src_y (set_R R0 self)) with (src_y self).
  change (R (set_R R0 self)) with R0.
  destruct (np_max_Some _ Hsx) as [hx Hhx]. destruct (np_min_Some _ Hsx) as [lx Hlx].
  destruct (np_max_Some _ Hsy) as [hy Hhy]. destruct (np_min_Some _ Hsy) as [ly Hly].
  rewrite Hhx, bind_lift_Some, Hlx, bind_lift_Some, Hhy, bind_lift_Some, Hly, bind_lift_Some.
  rewrite bind_assign.
  assert (HD : np_sqrt ((hx - lx + R0) * (hx - lx + R0) + (hy - ly + R0) * (hy - ly + R0))
               = dist_max_of R0 self).
  { unfold dist_max_of, span. by rewrite Hhx, Hlx, Hhy, Hly. }
  rewrite HD. apply method_assemble; [done | | done].
  revert Hr. apply ready_ext. unfold placement. clear. destruct self. reflexivity.
Qed.

End Twice.


Section Rebuild.
Context `{ext : External}.

(** X15. [update_b_src] numbers the sources as [update_b_pot] does:
    [b_src[p, i]] is the basis function centred on row [i] of the flattened
    source positions, evaluated at the [p]-th estimation point, and
    [k_interp_cross = b_src . b_pot / n_src]. *)
Theorem update_b_src_orders_sources (self : kcsd) (f : basis_fn) :
  basis self = Some f ->
  has_shape (nsx self) (nsy self) (src_x self) ->
  has_shape (nsx self) (nsy self) (src_y self) ->
  n_src self = (nsx self * nsy self)%nat ->
  length (b_pot self) = n_src self ->
  size (estm_x self) = n_estm self -> size (estm_y self) = n_estm self ->
  exists self' : kcsd,
    update_b_src self = (Ok tt, self') /\
    has_shape (n_estm self) (n_src self) (b_src self') /\
    (forall p i : nat, (p < n_estm self)%nat -> (i < n_src self)%nat ->
       get2 (b_src self') p i
       = Some (f (nth p (concat (estm_x self)) 0) (nth p (concat (estm_y self)) 0)
                 (nth 0 (nth i (sources self) []) 0, nth 1 (nth i (sources self) []) 0)
                 (R self))) /\
    k_interp_cross self' = idiv (mat_mul (b_src self') (b_pot self)) (n_src self).
Proof.
  intros Hf Hsx Hsy Hn HB Hex Hey.
  exists (with_b_src f self). split; [by apply update_b_src_with|]. simpl.
  split; [apply tab_shape|]. split; [|done].
  intros p i Hp Hi. unfold b_src_of, tab, get2.
  rewrite !list_lookup_fmap, lookup_seq_lt by done. simpl.
  rewrite !list_lookup_fmap, lookup_seq_lt by done. simpl.
  assert (Hlx : (i < length (concat (src_x self)))%nat)
    by (rewrite (size_shape _ _ _ Hsx); lia).
  assert (Hly : (i < length (concat (src_y self)))%nat)
    by (rewrite (size_shape _ _ _ Hsy); lia).
  unfold sources.
  assert (Hrow : zip_with (fun x y : Qc => [x; y]) (concat (src_x self)) (concat (src_y self))
                 !! i = Some [nth i (concat (src_x self)) 0; nth i (concat (src_y self)) 0]).
  { apply lookup_zip_with_Some. eexists _, _. split; [done|].
    split; by apply lookup_nth. }
  rewrite (nth_lookup_Some _ _ [] _ Hrow). done.
Qed.

(** X16. [update_b_interp_pot]: [b_interp_pot[p, i]] is the table value
    at the distance between source [i] and estimation point [p], and
    [k_interp_pot = b_interp_pot . b_pot / n_src]. *)
Theorem update_b_interp_pot_entries (self : kcsd) :
  dist_table self <> [] ->
  sources self <> [] ->
  length (b_pot self) = length (sources self) ->
  exists self' : kcsd,
    update_b_interp_pot self = (Ok tt, self') /\
    has_shape (length (points self)) (length (sources self)) (b_interp_pot self') /\
    (forall (p i : nat) (pt src : vec),
       points self !! p = Some pt -> sources self !! i = Some src ->
       exists v : Qc,
         get2 (b_interp_pot self') p i = Some v /\
         lookup (dist_table self) (dist_max self)
                (np_sqrt (sum (zip_with (fun x y => (x - y) * (x - y)) src pt))) = Some v) /\
    k_interp_pot self' = idiv (mat_mul (b_interp_pot self') (b_pot self)) (n_src self).
Proof.
  intros Hne Hsrc HB.
  exists (with_b_interp_pot self). split; [by apply update_b_interp_pot_with|].
  change (b_interp_pot (with_b_interp_pot self)) with (b_interp_pot_of self).
  change (k_interp_pot (with_b_interp_pot self))
    with (idiv (mat_mul (b_interp_pot_of self) (b_pot self)) (n_src self)).
  split; [|split; [|done]].
  - unfold b_interp_pot_of, transpose.
    assert (Hnc : ncols (map (map (fun d => default 0
                    (lookup (dist_table self) (dist_max self) d)))
                    (cdist (sources self) (points self))) = length (points self)).
    { unfold cdist. destruct (sources self) as [|a rest]; [done|]. simpl.
      by rewrite !length_map. }
    rewrite Hnc. split; [by rewrite length_map, length_seq|].
    apply Forall_fmap, Forall_forall. intros j _. simpl.
    rewrite col_length. unfold cdist. by rewrite !length_map.
  - intros p i pt src Hp Hi.
    destruct (lookup_is_Some (dist_table self) (dist_max self)
                (np_sqrt (sum (zip_with (fun x y => (x - y) * (x - y)) src pt))) Hne)
      as [v Hv].
    exists v. split; [|done].
    unfold b_interp_pot_of, transpose, get2.
    assert (Hnc : ncols (map (map (fun d => default 0
                    (lookup (dist_table self) (dist_max self) d)))
                    (cdist (sources self) (points self))) = length (points self)).
    { unfold cdist. destruct (sources self) as [|a rest]; [done|]. simpl.
      by rewrite !length_map. }
    rewrite Hnc. apply lookup_lt_Some in Hp as Hplt.
    rewrite list_lookup_fmap, lookup_seq_lt by done. simpl.
    unfold col, cdist. rewrite !map_map, list_lookup_fmap, Hi. simpl.
    f_equal. rewrite map_map.
    rewrite (nth_map_in _ _ p pt Hp). by rewrite Hv.
Qed.

Lemma with_R_placement (f : basis_fn) (R0 : Qc) (self : kcsd) :
  (placement (with_R f R0 self), estm_x (with_R f R0 self), estm_y (with_R f R0 self),
   n_estm (with_R f R0 self))
  = (placement self, estm_x self, estm_y self, n_estm self).
Proof. unfold placement. same_state self. Qed.

Lemma with_R_basis (f : basis_fn) (R0 : Qc) (self : kcsd) :
  basis (with_R f R0 self) = basis self.
Proof. same_state self. Qed.

Lemma assemble_with_R (f : basis_fn) (R0 : Qc) (self : kcsd) :
  assemble f (with_R f R0 self) = with_R f R0 self.
Proof. same_state self. Qed.

Lemma well_formed_ready (self : kcsd) : well_formed self -> ready self.
Proof. intros (Hc & (Hx & Hy & _) & _). done. Qed.

(** X17. [update_R] is idempotent: when [update_R(R)] has returned, a
    second [update_R(R)], or [method()], returns and changes nothing. *)
Theorem update_R_idempotent (R0 : Qc) (self self' : kcsd) :
  interpolate_law -> well_formed self ->
  update_R R0 self = (Ok tt, self') ->
  update_R R0 self' = (Ok tt, self') /\ method self' = (Ok tt, self').
Proof.
  intros Hlaw Hw Hrun. pose proof (well_formed_ready self Hw) as Hr.
  destruct (ready_basis self Hr) as [f Hf].
  rewrite (update_R_with R0 self f Hlaw Hr Hf) in Hrun. injection Hrun as <-.
  assert (Hr' : ready (with_R f R0 self)).
  { revert Hr. apply ready_ext. apply with_R_placement. }
  assert (Hf' : basis (with_R f R0 self) = Some f) by (by rewrite with_R_basis).
  split.
  - rewrite (update_R_with R0 _ f Hlaw Hr' Hf'). by rewrite with_R_twice.
  - rewrite (method_assemble _ f Hlaw Hr' Hf'). by rewrite assemble_with_R.
Qed.

Lemma place_basis_dist_max (self self' : kcsd) :
  place_basis self = (Ok tt, self') -> dist_max self' = dist_max_of (R self') self'.
Proof.
  intros Hrun. unfold place_basis in Hrun. rewrite bind_get in Hrun.
  destruct (match src_type self with VStr name => basis_2D !! name | VNum _ => None end)
    as [f|]; [|done].
  rewrite bind_assign in Hrun.
  destruct (distribute_srcs_2D _ _ _ _ _ _) as [[sx sy] r].
  rewrite !bind_assign in Hrun.
  destruct (np_max (concat sx)) eqn:E1; [|done]. rewrite bind_lift_Some in Hrun.
  destruct (np_min (concat sx)) eqn:E2; [|done]. rewrite bind_lift_Some in Hrun.
  destruct (np_max (concat sy)) eqn:E3; [|done]. rewrite bind_lift_Some in Hrun.
  destruct (np_min (concat sy)) eqn:E4; [|done]. rewrite bind_lift_Some in Hrun.
  rewrite !bind_assign in Hrun. inversion Hrun; subst; clear Hrun. simpl.
  unfold dist_max_of, span. simpl. by rewrite E1, E2, E3, E4.
Qed.

(** The state in which the constructor calls [method]. *)
Lemma init_before_method (ele_pos0 pots0 : mat) (kwargs : gmap string value)
      (self : kcsd) :
  distribute_law ->
  has_shape (length ele_pos0) (ncols pots0) pots0 ->
  init ele_pos0 pots0 kwargs new_object = (Ok tt, self) ->
  exists s4 : kcsd,
    ready s4 /\ dist_max s4 = dist_max_of (R s4) s4 /\ method s4 = (Ok tt, self).
Proof.
  intros Hlaw Hpots Hrun. unfold init in Hrun.
  apply bind_inv_Ok in Hrun as ([] & s1 & H1 & Hrun).
  apply bind_inv_Ok in Hrun as ([] & s2 & H2 & Hrun).
  apply bind_inv_Ok in Hrun as ([] & s3 & H3 & Hrun).
  apply bind_inv_Ok in Hrun as ([] & s4 & H4 & Hrun).
  exists s4. inversion H1; subst; clear H1.
  apply parameters_keeps in H2. apply estimate_at_gridded in H3 as Hg3.
  apply estimate_at_keeps in H3. simpl in H2, H3.
  destruct (place_basis_Ok_inv _ _ Hlaw H4) as (Hb & Hsx & Hsy & Hn & Hpos & Hkeep).
  assert (He : (ele_pos s4, n_ele s4, pots s4, n_time s4)
               = (ele_pos0, length ele_pos0, pots0, ncols pots0)) by congruence.
  injection He as He1 He2 He3 He4.
  split; [|split; [by apply (place_basis_dist_max s3)|done]].
  assert (Hg4 : gridded s4).
  { pose proof (place_basis_grid _ _ _ H4) as Hgrid.
    apply (gridded_inputs s3); [|done].
    injection Hgrid as _ -> -> -> -> ->. done. }
  destruct Hg4 as (Hx & Hy & _).
  split; [|done].
  unfold constructed. rewrite He1, He2, He3.
  rewrite !andb_true_iff, !Nat.eqb_eq, Nat.ltb_lt, !has_shapeb_spec.
  destruct Hb as [f ->]. done.
Qed.

Lemma assemble_up_to_date (f : basis_fn) (self : kcsd) :
  dist_max self = dist_max_of (R self) self ->
  with_R f (R (assemble f self)) (assemble f self) = assemble f self.
Proof.
  destruct self. unfold_steps. intros H. rewrite <- H. reflexivity.
Qed.


(** Kernels assembled from an object whose [dist_max] belongs to its [R]
    are a fixed point of [update_R] and of [method]. *)
Lemma assemble_fixed_point (f : basis_fn) (self : kcsd) :
  interpolate_law -> ready self -> basis self = Some f ->
  dist_max self = dist_max_of (R self) self ->
  update_R (R (assemble f self)) (assemble f self) = (Ok tt, assemble f self) /\
  method (assemble f self) = (Ok tt, assemble f self).
Proof.
  intros Hi Hr Hf Hdm.
  assert (Hr' : ready (assemble f self)).
  { revert Hr. apply ready_ext. apply assemble_placement. }
  assert (Hf' : basis (assemble f self) = Some f).
  { rewrite <- Hf. clear. same_state self. }
  split.
  - rewrite (update_R_with _ _ f Hi Hr' Hf'). by rewrite assemble_up_to_date.
  - rewrite (method_assemble _ f Hi Hr' Hf'). by rewrite assemble_twice.
Qed.

(** X18. After construction the kernels are up to date: [update_R] with
    the radius [place_basis] chose recomputes the same [dist_max], and it
    and [method] rebuild the same table and kernels. *)
Theorem init_is_up_to_date (ele_pos0 pots0 : mat) (kwargs : gmap string value)
        (self : kcsd) :
  distribute_law -> interpolate_law ->
  has_shape (length ele_pos0) (ncols pots0) pots0 ->
  init ele_pos0 pots0 kwargs new_object = (Ok tt, self) ->
  update_R (R self) self = (Ok tt, self) /\ method self = (Ok tt, self).
Proof.
  intros Hd Hi Hpots Hrun.
  destruct (init_before_method _ _ _ _ Hd Hpots Hrun) as (s4 & Hr & Hdm & Hm).
  destruct (ready_basis s4 Hr) as [f Hf].
  rewrite (method_assemble s4 f Hi Hr Hf) in Hm. injection Hm as <-.
  by apply assemble_fixed_point.
Qed.

End Rebuild.


Ltac value_eval := vm_compute; reflexivity.

Lemma update_b_src_orders_sources_witness :
  let self := Examples.with_pot in
  let f := Reference.step in
  exists self' : kcsd,
    update_b_src self = (Ok tt, self') /\
    has_shape (n_estm self) (n_src self) (b_src self') /\
    (forall p i : nat, (p < n_estm self)%nat -> (i < n_src self)%nat ->
       get2 (b_src self') p i
       = Some (f (nth p (concat (estm_x self)) 0) (nth p (concat (estm_y self)) 0)
                 (nth 0 (nth i (sources self) []) 0, nth 1 (nth i (sources self) []) 0)
                 (R self))) /\
    k_interp_cross self' = idiv (mat_mul (b_src self') (b_pot self)) (n_src self).
Proof.
  intros self f.
  apply (update_b_src_orders_sources self f).
  - reflexivity.
  - shape_eval.
  - shape_eval.
  - value_eval.
  - value_eval.
  - value_eval.
  - value_eval.
Defined.

Lemma update_b_interp_pot_entries_witness :
  let self := Examples.with_pot in
  exists self' : kcsd,
    @update_b_interp_pot Reference.numerics self = (Ok tt, self') /\
    has_shape (length (points self)) (length (sources self)) (b_interp_pot self') /\
    (forall (p i : nat) (pt src : vec),
       points self !! p = Some pt -> sources self !! i = Some src ->
       exists v : Qc,
         get2 (b_interp_pot self') p i = Some v /\
         lookup (dist_table self) (dist_max self)
                (@np_sqrt Reference.numerics
                   (sum (zip_with (fun x y => (x - y) * (x - y)) src pt))) = Some v) /\
    k_interp_pot self' = idiv (mat_mul (b_interp_pot self') (b_pot self)) (n_src self).
Proof.
  intros self.
  apply (@update_b_interp_pot_entries Reference.numerics self).
  - by vm_compute.
  - by vm_compute.
  - value_eval.
Defined.

Ltac well_formed_eval :=
  split; [vm_compute; reflexivity
         | split; [repeat split; vm_compute; reflexivity | shape_eval]].

Lemma update_R_run_half :
  @update_R Reference.numerics (Examples.q 1 2) Examples.built
  = (Ok tt, (@update_R Reference.numerics (Examples.q 1 2) Examples.built).2).
Proof.
  assert (H : (@update_R Reference.numerics (Examples.q 1 2) Examples.built).1 = Ok tt)
    by by_eval.
  rewrite <- H. apply surjective_pairing.
Qed.

Lemma update_R_idempotent_witness :
  let self' := (@update_R Reference.numerics (Examples.q 1 2) Examples.built).2 in
  @update_R Reference.numerics (Examples.q 1 2) self' = (Ok tt, self') /\
  @method Reference.numerics self' = (Ok tt, self').
Proof.
  intros self'.
  apply (@update_R_idempotent Reference.numerics (Examples.q 1 2) Examples.built self').
  - exact reference_interpolate_law.
  - well_formed_eval.
  - exact update_R_run_half.
Defined.

Lemma init_is_up_to_date_witness :
  let self := Examples.built in
  @update_R Reference.numerics (R self) self = (Ok tt, self) /\
  @method Reference.numerics self = (Ok tt, self).
Proof.
  intros self.
  apply (@init_is_up_to_date Reference.numerics Examples.ele3 Examples.pots3
           Examples.kwargs3 self).
  - exact reference_distribute_law.
  - exact reference_interpolate_law.
  - shape_eval.
  - exact built_run.
Defined.

(** ** Cross validation: what the search changes *)

Lemma set_stdout_twice (o1 o2 : list out_line) (self : kcsd) :
  set_stdout o2 (set_stdout o1 self) = set_stdout o2 self.
Proof. by destruct self. Qed.

Section Default_R.
Context `{ext : External}.

(** [compute_cverror] only appends to the printed text. *)
Lemma compute_cverror_prints (lambd0 : Qc) (folds : list (list nat * list nat)) (n : nat)
      (self : kcsd) :
  linalg_inv_law ->
  has_shape n n (k_pot self) ->
  has_shape n (ncols (pots self)) (pots self) ->
  Forall (in_range n) folds ->
  exists (e : Qc) (out : list out_line),
    compute_cverror lambd0 folds self = (Ok e, set_stdout (stdout self ++ out) self).
Proof.
  intros Hlaw Hk Hp Hfolds. unfold compute_cverror.
  rewrite (compute_cverror_run lambd0 folds n self Hlaw Hk Hp Hfolds 0 self eq_refl eq_refl).
  eexists _, _. f_equal.
  rewrite <- (foldl_fmap (fun s e => fold_output e s) self folds (fold_error lambd0 self)).
  apply fold_output_stdout.
Qed.

Lemma leave_one_out_in_range (n : nat) : Forall (in_range n) (leave_one_out n).
Proof.
  eapply Forall_impl; [apply leave_one_out_lt|].
  intros [train test] [Ht (ii & Htest & Hii)]. simpl in *. subst.
  split; [done|]. by constructor.
Qed.

Lemma search_row_prints (lambdas : vec) (n : nat) (self : kcsd) :
  linalg_inv_law ->
  has_shape n n (k_pot self) ->
  has_shape n (ncols (pots self)) (pots self) ->
  forall o : list out_line,
  exists (row : vec) (o' : list out_line),
    for_map lambdas (fun lambd0 => compute_cverror lambd0 (leave_one_out n))
            (set_stdout o self)
    = (Ok row, set_stdout o' self) /\ length row = length lambdas.
Proof.
  intros Hlaw Hk Hp. induction lambdas as [|l lambdas IH]; intros o.
  - exists [], o. done.
  - destruct (compute_cverror_prints l (leave_one_out n) n (set_stdout o self) Hlaw)
      as (e & out & Hrun); [exact Hk | exact Hp | apply leave_one_out_in_range |].
    rewrite set_stdout_twice in Hrun.
    destruct (IH (stdout (set_stdout o self) ++ out)) as (row & o' & Hrun' & Hlen).
    exists (e :: row), o'. cbn [for_map].
    rewrite (bind_Ok _ _ _ _ _ Hrun), (bind_Ok _ _ _ _ _ Hrun'). simpl.
    by rewrite Hlen.
Qed.

Lemma with_R_frame (f : basis_fn) (R0 : Qc) (c : option Qc) (o : list out_line)
      (self : kcsd) :
  with_R f R0 (set_cv_error c (set_stdout o self))
  = set_cv_error c (set_stdout o (with_R f R0 self)).
Proof. same_state self. Qed.

Lemma frame_placement (c : option Qc) (o : list out_line) (self : kcsd) :
  (placement (set_cv_error c (set_stdout o self)),
   estm_x (set_cv_error c (set_stdout o self)),
   estm_y (set_cv_error c (set_stdout o self)),
   n_estm (set_cv_error c (set_stdout o self)))
  = (placement self, estm_x self, estm_y self, n_estm self).
Proof. by destruct self. Qed.

Lemma final_state (l : Qc) (c : option Qc) (o : list out_line) (line : out_line)
      (self : kcsd) :
  set_stdout (stdout (set_lambd l (set_cv_error c (set_stdout o self))) ++ [line])
             (set_lambd l (set_cv_error c (set_stdout o self)))
  = set_stdout (o ++ [line]) (set_lambd l (set_cv_error c self)).
Proof. by destruct self. Qed.

(** X19. By default only lambda is searched: on kernels that are up to
    date (as the constructor leaves them), [cross_validate] without [Rs]
    returns the current radius with the chosen lambda, and changes nothing
    of [self] but [lambd], [cv_error] and the printed text; the table and
    the kernels stay as they were. *)
Theorem cross_validate_default_R_keeps_kernels (lambdas : option vec) (self : kcsd) :
  interpolate_law -> linalg_inv_law -> logspace_law ->
  well_formed self ->
  update_R (R self) self = (Ok tt, self) ->
  exists (cv_lambda m : Qc) (out : list out_line),
    cross_validate lambdas None self
    = (Ok (RTuple [R self; cv_lambda]),
       set_stdout out (set_lambd cv_lambda (set_cv_error (Some m) self))) /\
    cv_lambda ∈ lambdas_or_default lambdas.
Proof.
  intros Hli Hlv Hlog Hw Hup. pose proof (well_formed_ready self Hw) as Hr.
  pose proof Hr as (Hc & _).
  destruct (ready_basis self Hr) as [f Hf].
  destruct (update_R_Ok (R self) self Hli Hc) as (s' & Hrun' & _ & Hk).
  rewrite Hup in Hrun'. injection Hrun' as <-.
  assert (Hp : has_shape (n_ele self) (ncols (pots self)) (pots self)).
  { unfold constructed in Hc. rewrite !andb_true_iff, !has_shapeb_spec in Hc. apply Hc. }
  unfold cross_validate. rewrite bind_get.
  change (Rs_or_default None self) with [R self].
  set (L := lambdas_or_default lambdas).
  unfold cv_errors. cbn [for_map].
  destruct (search_row_prints L (n_ele self) self Hlv Hk Hp
              (stdout self ++ [("Cross validating R (all lambda) :"%string, [R self])]))
    as (row & o1 & Hrow & Hlen).
  erewrite (bind_Ok _ _ self [row] (set_stdout o1 self)).
  2:{ rewrite (bind_Ok _ _ self row (set_stdout o1 self)); [reflexivity|].
      rewrite (bind_Ok _ _ _ _ _ Hup). unfold print. rewrite bind_assign.
      exact Hrow. }
  assert (HL : L <> []) by (by apply lambdas_or_default_nonempty).
  assert (Hne : concat [row] <> []).
  { simpl. rewrite app_nil_r. destruct row; [|done]. by destruct L. }
  destruct (np_min_Some _ Hne) as [m Hm]. rewrite Hm, bind_lift_Some.
  destruct (np_min_spec _ _ Hm) as [Hin _].
  destruct (where_eq_nonempty [row] m Hin) as (i & j & Hi & Hj).
  pose proof (where_eq_head [row] m i j Hi Hj) as Hget.
  rewrite Hi, Hj. simpl.
  unfold get2 in Hget. destruct i as [|i]; [|done]. simpl in Hget.
  change ([R self] !! 0%nat) with (Some (R self)).
  assert (Hjlt : (j < length L)%nat) by (rewrite <- Hlen; by apply lookup_lt_Some in Hget).
  destruct (lookup_lt_is_Some_2 _ _ Hjlt) as [cv_lambda Hcv]. rewrite Hcv.
  rewrite !bind_lift_Some, bind_assign.
  set (s2 := set_cv_error (Some m) (set_stdout o1 self)).
  assert (Hr2 : ready s2) by (revert Hr; apply ready_ext, frame_placement).
  assert (Hf2 : basis s2 = Some f) by (rewrite <- Hf; unfold s2; by destruct self).
  rewrite (bind_Ok _ _ s2 tt s2).
  2:{ rewrite (update_R_with (R self) s2 f Hli Hr2 Hf2). unfold s2.
      rewrite with_R_frame. rewrite (update_R_with (R self) self f Hli Hr Hf) in Hup.
      injection Hup as ->. reflexivity. }
  unfold update_lambda. rewrite bind_assign. unfold print. rewrite bind_assign.
  exists cv_lambda, m. eexists. split.
  - unfold ret, s2. rewrite final_state. reflexivity.
  - by apply list_elem_of_lookup_2 in Hcv.
Qed.

End Default_R.


Lemma bind_inv_Raise {A B} (m : M A) (k : A -> M B) self e self'' :
  (x <- m;; k x) self = (Raise e, self'') ->
  m self = (Raise e, self'') \/
  exists a self', m self = (Ok a, self') /\ k a self' = (Raise e, self'').
Proof.
  unfold bind. destruct (m self) as [[a|e'] self'] eqn:Hm; intros H; [eauto|].
  left. by inversion H.
Qed.

Section Search_frame.
Context `{ext : External}.

Lemma method_inputs : preserves inputs method.
Proof.
  unfold method, create_lookup, update_b_pot, update_b_src, update_b_interp_pot,
    generated_potential, get_basis.
  solve_preserves.
Qed.

Lemma update_R_inputs (R0 : Qc) : preserves inputs (update_R R0).
Proof. unfold update_R. solve_preserves. apply method_inputs. Qed.

Lemma compute_cverror_inputs (lambd0 : Qc) (folds : list (list nat * list nat)) :
  preserves inputs (compute_cverror lambd0 folds).
Proof. unfold compute_cverror, cverror_fold. solve_preserves. Qed.

Lemma cross_validate_inputs (lambdas Rs : option vec) :
  preserves inputs (cross_validate lambdas Rs).
Proof.
  unfold cross_validate, cv_errors, update_lambda, print. solve_preserves.
  - apply update_R_inputs.
  - apply compute_cverror_inputs.
  - apply update_R_inputs.
Qed.

Lemma well_formed_inputs (s1 s2 : kcsd) :
  inputs s2 = inputs s1 -> well_formed s1 -> well_formed s2.
Proof.
  intros H (Hc & Hg & Hp). apply inputs_fields in H.
  destruct H as (Hpl & _ & _ & _ & _ & Hn & Hpots & Ht & Hx & Hy & Hne & Hgx & Hgy).
  split; [|split].
  - rewrite <- Hc. by apply constructed_placement.
  - apply (gridded_inputs s1); [|done]. congruence.
  - by rewrite Hn, Ht, Hpots.
Qed.

Lemma update_R_assembled (R0 : Qc) (self self' : kcsd) :
  interpolate_law -> well_formed self ->
  update_R R0 self = (Ok tt, self') ->
  assembled self' = true /\ well_formed self'.
Proof.
  intros Hlaw Hw Hrun.
  pose proof (update_R_inputs R0 _ _ _ Hrun) as Hin.
  split; [|by apply (well_formed_inputs self)].
  unfold update_R in Hrun. rewrite bind_assign, bind_get in Hrun.
  apply bind_inv_Ok in Hrun as (? & ? & H1 & Hrun).
  apply bind_inv_Ok in Hrun as (? & ? & H2 & Hrun).
  apply bind_inv_Ok in Hrun as (? & ? & H3 & Hrun).
  apply bind_inv_Ok in Hrun as (? & ? & H4 & Hrun).
  rewrite bind_assign in Hrun.
  match type of Hrun with method ?s = _ =>
    assert (Hs : well_formed s);
    [| destruct Hs as (Hc & Hg & Hp); by apply (method_assembled s) ]
  end.
  assert (Hp : preserves inputs (@lift Qc ValueError (np_max (concat (src_x (set_R R0 self))))))
    by apply preserves_lift.
  assert (Hq : forall (o : option Qc) s r s', lift ValueError o s = (r, s') -> s' = s).
  { intros [q|] s r s' H; by inversion H. }
  apply Hq in H1, H2, H3, H4. subst.
  revert Hw. apply well_formed_inputs. by destruct self.
Qed.

Lemma method_options : preserves (fun s => (settings s, lambd s)) method.
Proof.
  unfold method, create_lookup, update_b_pot, update_b_src, update_b_interp_pot,
    generated_potential, get_basis.
  solve_preserves.
Qed.

Lemma update_R_options (R0 : Qc) : preserves (fun s => (settings s, lambd s)) (update_R R0).
Proof. unfold update_R. solve_preserves. apply method_options. Qed.

Lemma compute_cverror_options (lambd0 : Qc) (folds : list (list nat * list nat)) :
  preserves (fun s => (settings s, lambd s)) (compute_cverror lambd0 folds).
Proof. unfold compute_cverror, cverror_fold. solve_preserves. Qed.

(** The search assigns no option: [lambd] is only passed to
    [compute_cverror]. *)
Lemma cv_errors_options (Rs lambdas : vec) (folds : list (list nat * list nat)) :
  preserves (fun s => (settings s, lambd s)) (cv_errors Rs lambdas folds).
Proof.
  unfold cv_errors, print. solve_preserves;
    [apply update_R_options | apply compute_cverror_options].
Qed.

Lemma cv_errors_inputs (Rs lambdas : vec) (folds : list (list nat * list nat)) :
  preserves inputs (cv_errors Rs lambdas folds).
Proof.
  unfold cv_errors, print. solve_preserves;
    [apply update_R_inputs | apply compute_cverror_inputs].
Qed.

(** [self.lambd] is assigned by the last but one statement of
    [cross_validate], after which nothing raises. *)
Lemma cross_validate_raise_lambd (lambdas Rs : option vec) (self self' : kcsd) (e : exn) :
  cross_validate lambdas Rs self = (Raise e, self') ->
  (settings self', lambd self') = (settings self, lambd self).
Proof.
  unfold cross_validate. rewrite bind_get. intros H.
  assert (Hq : forall A (o : option A) e0 s r s', lift e0 o s = (r, s') -> s' = s).
  { intros A [q|] e0 s r s' H0; by inversion H0. }
  apply bind_inv_Raise in H as [H | (errs & s1 & Hs & H)];
    [by apply cv_errors_options in H|].
  apply cv_errors_options in Hs. rewrite <- Hs.
  apply bind_inv_Raise in H as [H | (m & s2 & Hm & H)];
    [apply Hq in H; by subst|].
  apply Hq in Hm. subst s2.
  apply bind_inv_Raise in H as [H | (cv_R & s3 & HR & H)];
    [apply Hq in H; by subst|].
  apply Hq in HR. subst s3.
  apply bind_inv_Raise in H as [H | (cv_lambda & s4 & Hl & H)];
    [apply Hq in H; by subst|].
  apply Hq in Hl. subst s4.
  rewrite bind_assign in H.
  apply bind_inv_Raise in H as [H | ([] & s5 & Hu & H)].
  - apply update_R_options in H. rewrite H. by destruct s1.
  - unfold update_lambda in H. rewrite bind_assign in H.
    unfold print in H. rewrite bind_assign in H. inversion H.
Qed.

(** X20. [cross_validate] never changes the data, the estimation grid,
    the basis function or the placement of the sources, nor any option
    stored by [parameters] other than [lambd], whether it returns or
    raises.  [lambd] is the one option it assigns: when it returns,
    [lambd] is the regularization value returned; when it raises, [lambd]
    is as before. *)
Theorem cross_validate_keeps_inputs (lambdas Rs : option vec) (self self' : kcsd)
        (r : outcome retval) :
  cross_validate lambdas Rs self = (r, self') ->
  inputs self' = inputs self /\ settings self' = settings self /\
  match r with
  | Ok v => exists cv_R cv_lambda : Qc,
      v = RTuple [cv_R; cv_lambda] /\ lambd self' = cv_lambda
  | Raise _ => lambd self' = lambd self
  end.
Proof.
  intros Hrun. split; [|split].
  - by apply (cross_validate_inputs lambdas Rs self r self').
  - assert (Hm : preserves settings method).
    { unfold method, create_lookup, update_b_pot, update_b_src, update_b_interp_pot,
        generated_potential, get_basis. solve_preserves. }
    assert (Hu : forall R0, preserves settings (update_R R0)).
    { intros R0. unfold update_R. solve_preserves. apply Hm. }
    assert (Hc : forall l folds, preserves settings (compute_cverror l folds)).
    { intros l folds. unfold compute_cverror, cverror_fold. solve_preserves. }
    assert (Hcv : preserves settings (cross_validate lambdas Rs)).
    { unfold cross_validate, cv_errors, update_lambda, print. solve_preserves;
        [apply Hu | apply Hc | apply Hu]. }
    by apply (Hcv self r self').
  - destruct r as [v|e].
    + destruct (cross_validate_result _ _ _ _ _ Hrun)
        as (cv_R & cv_lambda & m & errs & searched & rebuilt & i & j & Hv & _ & Hl & _).
      by exists cv_R, cv_lambda.
    + apply cross_validate_raise_lambd in Hrun. by inversion Hrun.
Qed.


(** The last kernel assembly of [cross_validate]: [update_R(cv_R)], run
    on an object with the inputs of [self]; only [lambd] and the printed
    text are assigned after it. *)
Lemma cross_validate_last_update (lambdas Rs : option vec) (self self' : kcsd)
      (r : retval) :
  cross_validate lambdas Rs self = (Ok r, self') ->
  exists (s s5 : kcsd) (cv_R cv_lambda : Qc),
    inputs s = inputs self /\
    update_R cv_R s = (Ok tt, s5) /\
    self' = set_stdout (stdout (set_lambd cv_lambda s5)
                        ++ [("R, lambda :"%string, [cv_R; cv_lambda])])
                       (set_lambd cv_lambda s5).
Proof.
  intros Hrun. unfold cross_validate in Hrun. rewrite bind_get in Hrun.
  apply bind_inv_Ok in Hrun as (errs & s1 & Hsearch & H).
  apply bind_inv_Ok in H as (m & s2 & Hm & H).
  apply bind_inv_Ok in H as (cv_R & s3 & HR & H).
  apply bind_inv_Ok in H as (cv_lambda & s4 & Hl & H).
  rewrite bind_assign in H.
  apply bind_inv_Ok in H as ([] & s5 & HuR & H).
  unfold update_lambda in H. rewrite bind_assign in H.
  unfold print in H. rewrite bind_assign in H. inversion H; subst; clear H.
  assert (Hq : forall A (o : option A) e s r s', lift e o s = (r, s') -> s' = s).
  { intros A [q|] e s r s' H; by inversion H. }
  apply Hq in Hm, HR, Hl. subst.
  assert (Hs1 : inputs s1 = inputs self).
  { assert (Hp : preserves inputs
                   (cv_errors (Rs_or_default Rs self) (lambdas_or_default lambdas)
                              (leave_one_out (n_ele self)))).
    { unfold cv_errors, print. solve_preserves;
        [apply update_R_inputs | apply compute_cverror_inputs]. }
    by apply (Hp self (Ok errs) s1). }
  exists (set_cv_error (Some m) s1), s5, cv_R, cv_lambda.
  split; [|split; [exact HuR | reflexivity]].
  rewrite <- Hs1. by destruct s1.
Qed.

(** The table and the kernels that [update_R] builds depend on the
    object through the inputs of the kernel assembly and the options [h]
    and [sigma] only. *)
Lemma with_R_ext (f : basis_fn) (R0 : Qc) (s1 s2 : kcsd) :
  inputs s2 = inputs s1 -> h s2 = h s1 -> sigma s2 = sigma s1 ->
  R (with_R f R0 s2) = R0 /\
  dist_max (with_R f R0 s2) = dist_max (with_R f R0 s1) /\
  kernels (with_R f R0 s2) = kernels (with_R f R0 s1).
Proof.
  intros Hin Hh Hs. apply inputs_fields in Hin.
  destruct Hin as (_ & Hsx & Hsy & Hele & Hns & _ & _ & _ & Hex & Hey & Hne & _ & _).
  destruct s1, s2. simpl in *. subst.
  unfold kernels. unfold_steps. done.
Qed.

Lemma with_R_tuned (f : basis_fn) (R0 l : Qc) (o : list out_line) (self : kcsd) :
  with_R f R0 (set_stdout o (set_lambd l self))
  = set_stdout o (set_lambd l (with_R f R0 self)).
Proof. same_state self. Qed.

(** Assigning [lambd] and printing leave the rest of the object alone. *)
Lemma tuned_frame (l : Qc) (o : list out_line) (self : kcsd) :
  let self' := set_stdout o (set_lambd l self) in
  inputs self' = inputs self /\
  (placement self', estm_x self', estm_y self', n_estm self')
  = (placement self, estm_x self, estm_y self, n_estm self) /\
  basis self' = basis self /\ R self' = R self /\ dist_max self' = dist_max self /\
  kernels self' = kernels self /\ assembled self' = assembled self.
Proof. by destruct self. Qed.

(** X21. When [cross_validate] returns on a well-formed object, it
    returns a pair [(cv_R, cv_lambda)] and leaves the radius [cv_R] with
    the look up table and the kernels of that radius: they are those that
    [update_R(cv_R)] builds on the object as it was before the search,
    whatever radii the search tried, and a further [update_R(cv_R)]
    changes nothing.  The kernels have the shapes [values] needs and the
    object is as well formed as before. *)
Theorem cross_validate_leaves_assembled (lambdas Rs : option vec) (self self' : kcsd)
        (r : retval) :
  interpolate_law -> well_formed self ->
  cross_validate lambdas Rs self = (Ok r, self') ->
  exists (cv_R cv_lambda : Qc) (fresh : kcsd),
    r = RTuple [cv_R; cv_lambda] /\
    update_R cv_R self = (Ok tt, fresh) /\
    R self' = cv_R /\ dist_max self' = dist_max fresh /\
    kernels self' = kernels fresh /\
    update_R cv_R self' = (Ok tt, self') /\
    assembled self' = true /\ well_formed self'.
Proof.
  intros Hlaw Hw Hrun. pose proof (well_formed_ready self Hw) as Hr.
  destruct (ready_basis self Hr) as [f Hf].
  destruct (cross_validate_result _ _ _ _ _ Hrun)
    as (cv_R & cv_lambda & m & errs & searched & rebuilt & i & j & -> & HR & _ & _
        & Hsearch & _ & _ & _ & _ & _ & Hup & Hself).
  pose proof (cv_errors_inputs _ _ _ _ _ _ Hsearch) as Hin.
  pose proof (cv_errors_options _ _ _ _ _ _ Hsearch) as Hopt.
  set (s := set_cv_error (Some m) searched) in *.
  assert (Hin_s : inputs s = inputs self) by (rewrite <- Hin; unfold s; by destruct searched).
  assert (Hh : h s = h self /\ sigma s = sigma self).
  { unfold settings in Hopt. inversion Hopt. unfold s. by destruct searched. }
  destruct Hh as [Hh Hsig].
  assert (Hw_s : well_formed s) by (by apply (well_formed_inputs self)).
  pose proof (well_formed_ready s Hw_s) as Hr_s.
  assert (Hf_s : basis s = Some f).
  { apply inputs_fields in Hin_s as (Hpl & _). unfold placement in Hpl.
    inversion Hpl. congruence. }
  destruct (update_R_assembled cv_R s rebuilt Hlaw Hw_s Hup) as [Ha Hw_r].
  rewrite (update_R_with cv_R s f Hlaw Hr_s Hf_s) in Hup. injection Hup as Hreb.
  destruct (with_R_ext f cv_R self s Hin_s Hh Hsig) as (_ & Hdm & Hk).
  rewrite Hreb in Hdm, Hk.
  pose proof (with_R_placement f cv_R s) as Hpl_r.
  pose proof (with_R_basis f cv_R s) as Hb_r. rewrite Hreb in Hpl_r, Hb_r.
  destruct (tuned_frame cv_lambda
              (stdout rebuilt ++ [("R, lambda :"%string, [cv_R; cv_lambda])]) rebuilt)
    as (Ti & Tp & Tb & TR & Td & Tk & Ta).
  rewrite <- Hself in Ti, Tp, Tb, TR, Td, Tk, Ta.
  exists cv_R, cv_lambda, (with_R f cv_R self).
  split; [done|]. split; [by apply update_R_with|]. split; [done|].
  split; [congruence|]. split; [congruence|].
  assert (Hw' : well_formed self') by (revert Hw_r; by apply well_formed_inputs).
  split; [|split; [congruence | exact Hw']].
  rewrite (update_R_with cv_R self' f Hlaw).
  - f_equal. rewrite Hself, with_R_tuned. rewrite <- Hreb at 2.
    rewrite with_R_twice. by rewrite Hreb.
  - apply (ready_ext s); [|exact Hr_s]. congruence.
  - congruence.
Qed.

End Search_frame.


Lemma pots3_shape :
  has_shape (length Examples.ele3) (ncols Examples.pots3) Examples.pots3.
Proof. shape_eval. Qed.

Lemma built_well_formed : well_formed Examples.built.
Proof. well_formed_eval. Qed.

(** The kernels of [Examples.built] are up to date. *)
Lemma built_up_to_date :
  @update_R Reference.numerics (R Examples.built) Examples.built
  = (Ok tt, Examples.built).
Proof.
  generalize built_run. generalize Examples.built as self. intros self Hrun.
  destruct (@init_before_method Reference.numerics _ _ _ _ reference_distribute_law
              pots3_shape Hrun) as (s4 & Hr & Hdm & Hm).
  destruct (ready_basis s4 Hr) as [f Hf].
  rewrite (method_assemble s4 f reference_interpolate_law Hr Hf) in Hm.
  injection Hm as <-.
  by apply assemble_fixed_point; [exact reference_interpolate_law | | |].
Qed.

Lemma built_constructed : constructed Examples.built = true.
Proof. vm_compute; reflexivity. Qed.

Lemma cross_validate_default_R_keeps_kernels_witness :
  let self := Examples.built in
  let lambdas := Some [1; Examples.q 1 2] in
  exists (cv_lambda m : Qc) (out : list out_line),
    @cross_validate Reference.numerics lambdas None self
    = (Ok (RTuple [R self; cv_lambda]),
       set_stdout out (set_lambd cv_lambda (set_cv_error (Some m) self))) /\
    cv_lambda ∈ @lambdas_or_default Reference.numerics lambdas.
Proof.
  intros self lambdas.
  apply (@cross_validate_default_R_keeps_kernels Reference.numerics lambdas self).
  - exact reference_interpolate_law.
  - exact reference_linalg_inv_law.
  - exact reference_logspace_law.
  - well_formed_eval.
  - exact built_up_to_date.
Defined.

Lemma cross_validate_keeps_inputs_witness :
  let self := Examples.built_level in
  let run := @cross_validate Reference.numerics (Some [1; Examples.q 1 2])
               (Some [Examples.q 1 2; 1]) self in
  lambd self = 1 /\ run.1 = Ok (RTuple [1; Examples.q 1 2]) /\
  inputs run.2 = inputs self /\ settings run.2 = settings self /\
  match run.1 with
  | Ok v => exists cv_R cv_lambda : Qc,
      v = RTuple [cv_R; cv_lambda] /\ lambd run.2 = cv_lambda
  | Raise _ => lambd run.2 = lambd self
  end.
Proof.
  intros self run.
  split; [by_eval|]. split; [by_eval|].
  apply (@cross_validate_keeps_inputs Reference.numerics (Some [1; Examples.q 1 2])
           (Some [Examples.q 1 2; 1]) self run.2 run.1).
  apply surjective_pairing.
Defined.

Lemma cross_validate_leaves_assembled_witness :
  let self := Examples.built in
  let lambdas := Some [1; Examples.q 1 2] in
  let Rs := Some [Examples.q 1 2; 1] in
  let run := @cross_validate Reference.numerics lambdas Rs self in
  run.1 = Ok (RTuple [Examples.q 1 2; 1]) /\
  k_pot (@update_R Reference.numerics 1 self).2 <> k_pot run.2 /\
  exists (cv_R cv_lambda : Qc) (fresh : kcsd),
    RTuple [Examples.q 1 2; 1] = RTuple [cv_R; cv_lambda] /\
    @update_R Reference.numerics cv_R self = (Ok tt, fresh) /\
    R run.2 = cv_R /\ dist_max run.2 = dist_max fresh /\
    kernels run.2 = kernels fresh /\
    @update_R Reference.numerics cv_R run.2 = (Ok tt, run.2) /\
    assembled run.2 = true /\ well_formed run.2.
Proof.
  intros self lambdas Rs run.
  assert (Hrun : run.1 = Ok (RTuple [Examples.q 1 2; 1])) by by_eval.
  split; [exact Hrun|]. split; [by_eval|].
  apply (@cross_validate_leaves_assembled Reference.numerics lambdas Rs self run.2
           (RTuple [Examples.q 1 2; 1])).
  - exact reference_interpolate_law.
  - exact built_well_formed.
  - rewrite <- Hrun. apply surjective_pairing.
Defined.

(** ** From construction to the estimate *)

Section Pipeline.
Context `{ext : External}.

(** X22. When the constructor returns, the kernels are assembled: [k_pot]
    has shape [(n_ele, n_ele)], both cross kernels have shape
    [(n_estm, n_ele)] with [n_estm = ngx * ngy], the sources form an
    [nsx] by [nsy] mesh, and the data are the arguments passed. *)
Theorem init_builds_assembled_kernels (ele_pos0 pots0 : mat)
        (kwargs : gmap string value) (self : kcsd) :
  distribute_law -> interpolate_law ->
  has_shape (length ele_pos0) (ncols pots0) pots0 ->
  init ele_pos0 pots0 kwargs new_object = (Ok tt, self) ->
  assembled self = true /\ well_formed self /\
  ele_pos self = ele_pos0 /\ pots self = pots0.
Proof.
  intros Hd Hi Hpots Hrun.
  destruct (init_assembled _ _ _ _ Hd Hi Hpots Hrun) as [Ha Hc].
  destruct (init_inv _ _ _ _ Hd Hpots Hrun) as (s4 & Hc4 & Hg4 & Hp4 & Hm).
  pose proof (method_inputs _ _ _ Hm) as Hin.
  assert (Hw : well_formed self) by (by apply (well_formed_inputs s4)).
  split; [done|]. split; [done|].
  apply inputs_fields in Hin as (_ & _ & _ & He & _ & _ & Hpo & _).
  unfold init in Hrun.
  apply bind_inv_Ok in Hrun as ([] & s1 & H1 & Hrun).
  apply bind_inv_Ok in Hrun as ([] & s2 & H2 & Hrun).
  apply bind_inv_Ok in Hrun as ([] & s3 & H3 & Hrun).
  apply bind_inv_Ok in Hrun as ([] & s4' & H4 & Hrun).
  inversion H1; subst; clear H1.
  apply parameters_keeps in H2. apply estimate_at_keeps in H3. simpl in H2, H3.
  assert (Hk4 : preserves (fun s => (ele_pos s, pots s)) place_basis).
  { unfold place_basis. solve_preserves. }
  apply Hk4 in H4. simpl in H4.
  assert (Hkm : preserves (fun s => (ele_pos s, pots s)) method).
  { unfold method, create_lookup, update_b_pot, update_b_src, update_b_interp_pot,
      generated_potential, get_basis. solve_preserves. }
  apply Hkm in Hrun. simpl in Hrun.
  split; congruence.
Qed.

(** X23. The sequence of the sample script: after the constructor and
    [cross_validate] have returned, [values] with a valid tag returns an
    array of shape [(ngx, ngy, n_time)], or raises LinAlgError when the
    regularised kernel of the chosen parameters is singular; it raises
    nothing else and leaves the tuned object as it is. *)
Theorem values_after_cross_validate (ele_pos0 pots0 : mat)
        (kwargs : gmap string value) (lambdas Rs : option vec) (estimate : string)
        (built tuned : kcsd) (res : retval) :
  distribute_law -> interpolate_law -> linalg_inv_law ->
  has_shape (length ele_pos0) (ncols pots0) pots0 ->
  init ele_pos0 pots0 kwargs new_object = (Ok tt, built) ->
  cross_validate lambdas Rs built = (Ok res, tuned) ->
  estimate = "CSD"%string \/ estimate = "POT"%string ->
  (exists a : arr3,
     values estimate tuned = (Ok (RArr3 a), tuned) /\
     has_shape3 (ngx tuned) (ngy tuned) (n_time tuned) a) \/
  values estimate tuned = (Raise LinAlgError, tuned).
Proof.
  intros Hd Hi Hlv Hpots Hinit Hcv Htag.
  (* the constructor leaves a well-formed object *)
  destruct (init_inv _ _ _ _ Hd Hpots Hinit) as (s4 & Hc4 & Hg4 & Hp4 & Hm).
  pose proof (method_inputs _ _ _ Hm) as Hin4.
  assert (Hw : well_formed built) by (by apply (well_formed_inputs s4)).
  (* the search ends with a kernel assembly *)
  destruct (cross_validate_last_update _ _ _ _ _ Hcv)
    as (s & s5 & cv_R & cv_lambda & Hin & Hup & ->).
  destruct (update_R_assembled cv_R s s5 Hi) as [Ha _];
    [by apply (well_formed_inputs built) | exact Hup |].
  set (tuned := set_stdout _ (set_lambd cv_lambda s5)).
  assert (Hat : assembled tuned = true) by exact Ha.
  (* [values] on assembled kernels *)
  destruct (linalg_inv (regularised tuned)) as [k_inv|] eqn:Hinv.
  - left. by apply (values_regular estimate tuned k_inv).
  - right. by apply values_singular.
Qed.

End Pipeline.

Section Integrand.
Context `{ext : External}.

(** X24. The integrand of the forward model never divides by less than
    0.00001: it is [arcsinh(h / y) * basis(xp, yp, [0, 0], R)] for some
    [y >= 0.00001], and at the point [(x, 0)] itself, where the distance is
    0, it is [arcsinh(100000 h)] times the basis function. *)
Theorem int_pot_2D_guard (xp yp x R0 h0 : Qc) (f : basis_fn) :
  (exists y : Qc,
     Q2Qc (1 # 100000) <= y /\
     int_pot_2D xp yp x R0 h0 f = np_arcsinh (h0 / y) * f xp yp (0, 0) R0) /\
  (np_sqrt 0 = 0 ->
   int_pot_2D x 0 x R0 h0 f = np_arcsinh (h0 * ofZ 100000) * f x 0 (0, 0) R0).
Proof.
  split.
  - unfold int_pot_2D. case_bool_decide as Hlt.
    + eexists. split; [apply Qcle_refl | reflexivity].
    + eexists. split; [by apply Qcnot_lt_le | reflexivity].
  - intros Hs. unfold int_pot_2D.
    replace ((x - x) * (x - x) + 0 * 0) with 0 by ring. rewrite Hs.
    rewrite bool_decide_eq_true_2 by by_eval.
    replace (h0 / Q2Qc (1 # 100000)) with (h0 * ofZ 100000); [done|].
    unfold Qcdiv. apply (f_equal (Qcmult h0)). by_eval.
Qed.

End Integrand.

Lemma init_builds_assembled_kernels_witness :
  let self := Examples.built in
  assembled self = true /\ well_formed self /\
  ele_pos self = Examples.ele3 /\ pots self = Examples.pots3.
Proof.
  intros self.
  apply (@init_builds_assembled_kernels Reference.numerics Examples.ele3 Examples.pots3
           Examples.kwargs3 self).
  - exact reference_distribute_law.
  - exact reference_interpolate_law.
  - shape_eval.
  - exact built_run.
Defined.

Lemma values_after_cross_validate_witness :
  exists (res : retval) (tuned : kcsd),
    @cross_validate Reference.numerics (Some [1; Examples.q 1 2]) None Examples.built
    = (Ok res, tuned) /\
    ((exists a : arr3,
        @values Reference.numerics "CSD" tuned = (Ok (RArr3 a), tuned) /\
        has_shape3 (ngx tuned) (ngy tuned) (n_time tuned) a) \/
     @values Reference.numerics "CSD" tuned = (Raise LinAlgError, tuned)).
Proof.
  destruct (@cross_validate_Ok Reference.numerics (Some [1; Examples.q 1 2]) None
              Examples.built
              reference_interpolate_law reference_linalg_inv_law reference_logspace_law
              built_constructed) as (res & tuned & Hrun).
  exists res, tuned. split; [exact Hrun|].
  apply (@values_after_cross_validate Reference.numerics Examples.ele3 Examples.pots3
           Examples.kwargs3 (Some [1; Examples.q 1 2]) None "CSD" Examples.built tuned res).
  - exact reference_distribute_law.
  - exact reference_interpolate_law.
  - exact reference_linalg_inv_law.
  - shape_eval.
  - exact built_run.
  - exact Hrun.
  - by left.
Defined.

Lemma int_pot_2D_guard_witness :
  let f := Reference.step in
  (exists y : Qc,
     Q2Qc (1 # 100000) <= y /\
     @int_pot_2D Reference.numerics 0 0 0 1 1 f
     = @np_arcsinh Reference.numerics (1 / y) * f 0 0 (0, 0) 1) /\
  (@np_sqrt Reference.numerics 0 = 0 ->
   @int_pot_2D Reference.numerics 0 0 0 1 1 f
   = @np_arcsinh Reference.numerics (1 * ofZ 100000) * f 0 0 (0, 0) 1).
Proof.
  intros f. exact (@int_pot_2D_guard Reference.numerics 0 0 0 1 1 f).
Defined.
